(** * Two small 2D particle simulations: [bh.py] and [e.py]

    [bh.py] (module [BH]) moves tracer particles around a central
    attractor and removes those that come within the horizon radius.
    [e.py] (module [E]) moves discs under uniform gravity inside a box,
    with wall bounces and pairwise impulse collisions.

    Numbers.  Every number of the two programs is a Python [float]; here a
    float is a real number ([R]), so the arithmetic of this development is
    exact and rounding, overflow and NaN are outside it.  What is kept of
    Python's arithmetic is its partiality: [/] raises [ZeroDivisionError]
    on a zero divisor and [math.sqrt] raises [ValueError] on a negative
    argument, so code that divides lives in the [result] monad.  Reals do
    not compute, so concrete runs over [R] are proved by rewriting; the
    wall handler and the pair resolver are given a second time on IEEE
    binary64 numbers (module [E64]), where the concrete cases are run.

    Two places where the floats of the programs part from the reals are
    modelled on their own.  The power [** 1.5] of the force model of
    [bh.py] raises [OverflowError] far from the centre: module
    [BHOverflow] gives the force model with the largest float and [inf]
    in it, and module [BH] is the same code where every power is
    representable.  The positional correction of [e.py] is exact over the
    reals only: its rounding is shown on the binary64 resolver of module
    [E64].

    Objects.  A particle is a mutable object held by reference in a
    list.  Where the source relies on object identity ([list.remove] in
    [bh.py]), a particle carries its identity in the field [oid]; an
    in-place update of a particle is an update of its record at its place
    in the list.

    Randomness.  The generator of module [random] is a state that is
    threaded through the commands that draw from it ([Rng]). *)

From Stdlib Require Import Reals Lra Lia List Bool Arith String Ascii.
From Stdlib Require PrimFloat.
Import ListNotations.
Local Open Scope R_scope.

(* ================================================================== *)
(** ** Python's arithmetic and exceptions *)

Module Py.

Inductive exn : Set :=
| ZeroDivisionError
| ValueError
| IndexError
| OverflowError.

Inductive result (A : Type) : Type :=
| Ok (a : A)
| Raise (e : exn).

Arguments Ok {A} a.
Arguments Raise {A} e.

Definition bind {A B : Type} (m : result A) (k : A -> result B) : result B :=
  match m with
  | Ok a => k a
  | Raise e => Raise e
  end.

(** [a / b] on floats. *)
Definition truediv (a b : R) : result R :=
  if Req_dec_T b 0 then Raise ZeroDivisionError else Ok (a / b).

(** [math.sqrt(a)]. *)
Definition math_sqrt (a : R) : result R :=
  if Rlt_dec a 0 then Raise ValueError else Ok (sqrt a).

(** [math.hypot(a, b)]. *)
Definition math_hypot (a b : R) : R := sqrt (a * a + b * b).

(** [a ** b] for a float base [a > 0], the only use the programs make of
    it, where the power is representable; [0.0 ** b] is [0.0] for
    [b > 0].  The [OverflowError] of a power beyond the largest float is in
    [BHOverflow.float_pow]. *)
Definition float_pow (a b : R) : R :=
  if Rlt_dec 0 a then Rpower a b else 0.

(** [max(a, b)] and [min(a, b)]: the first argument is kept unless the
    second is strictly better. *)
Definition max (a b : R) : R := if Rlt_dec a b then b else a.
Definition min (a b : R) : R := if Rlt_dec b a then b else a.

(** [abs(a)]. *)
Definition abs (a : R) : R := Rabs a.

End Py.

Import Py.

Declare Scope py_scope.
Delimit Scope py_scope with py.
Notation "x <- m ;; k" := (bind m (fun x => k))
  (at level 61, m at next level, right associativity) : py_scope.
Notation "' pat <- m ;; k" := (bind m (fun x => match x with pat => k end))
  (at level 61, pat pattern, m at next level, right associativity) : py_scope.
Local Open Scope py_scope.

(* ================================================================== *)
(** ** The random generator *)

Module Random.

(** The generator's state: the reals in [0,1) and the integers it is going
    to produce, and how many draws were made so far. *)
Record Rng : Type := mkRng {
  unit_draws : nat -> R;
  int_draws : nat -> nat;
  cursor : nat
}.

Definition advance (g : Rng) : Rng :=
  mkRng (unit_draws g) (int_draws g) (S (cursor g)).

(** [random.random()]. *)
Definition random (g : Rng) : R * Rng :=
  (unit_draws g (cursor g), advance g).

(** [random.uniform(a, b)] is [a + (b - a) * random()]. *)
Definition uniform (a b : R) (g : Rng) : R * Rng :=
  let (u, g') := random g in (a + (b - a) * u, g').

(** [random.choice(seq)] on a sequence of [n] items picks an index below
    [n]. *)
Definition randbelow (n : nat) (g : Rng) : nat * Rng :=
  (Nat.modulo (int_draws g (cursor g)) n, advance g).

End Random.

(** Commands that draw random numbers and may raise. *)
Definition Cmd (A : Type) : Type := Random.Rng -> result (A * Random.Rng).

Definition cret {A : Type} (a : A) : Cmd A := fun g => Ok (a, g).

Definition cbind {A B : Type} (m : Cmd A) (k : A -> Cmd B) : Cmd B :=
  fun g => match m g with
           | Ok (a, g') => k a g'
           | Raise e => Raise e
           end.

(** A computation that draws nothing. *)
Definition lift {A : Type} (r : result A) : Cmd A :=
  fun g => match r with
           | Ok a => Ok (a, g)
           | Raise e => Raise e
           end.

(** A draw, which cannot raise. *)
Definition draw {A : Type} (d : Random.Rng -> A * Random.Rng) : Cmd A :=
  fun g => Ok (d g).

(** A command that behaves as a computation without the generator: its
    outcome is the same whatever the generator's state, which it leaves as
    it found it. *)
Definition draws_nothing {A : Type} (c : Cmd A) : Prop :=
  exists r : result A, forall g : Random.Rng, c g = lift r g.

(** Whatever a command returns, when it returns, satisfies [Q]. *)
Definition ensures {A : Type} (c : Cmd A) (Q : A -> Prop) : Prop :=
  forall (g : Random.Rng) (a : A) (g' : Random.Rng),
    c g = Ok (a, g') -> Q a.

(** A command returns, whatever the generator's state, and what it
    returns satisfies [Q]. *)
Definition returns {A : Type} (c : Cmd A) (Q : A -> Prop) : Prop :=
  forall g : Random.Rng, exists (a : A) (g' : Random.Rng),
    c g = Ok (a, g') /\ Q a.

Declare Scope cmd_scope.
Delimit Scope cmd_scope with cmd.
Notation "x <~ m ;; k" := (cbind m (fun x => k))
  (at level 61, m at next level, right associativity) : cmd_scope.
Local Open Scope cmd_scope.

(* ================================================================== *)
(** ** [bh.py]: tracer particles around a central attractor *)

Module BH.

Definition WIDTH : R := 1000.
Definition HEIGHT : R := 700.
Definition FPS : R := 60.
Definition G : R := 10.

(** [class Particle]; the colour is the same constant for every particle
    and only read by the drawing code, it is left out.  [oid] is the
    identity of the object. *)
Record Particle : Type := mkParticle {
  oid : nat;
  x : R;
  y : R;
  vx : R;
  vy : R;
  trail : list (R * R)
}.

Definition pos (p : Particle) : R * R := (x p, y p).

(** The fields of [BlackHoleSim] (the screen and the clock left out).
    [next_oid] is the identity the next created object gets. *)
Record Sim : Type := mkSim {
  width : R;
  height : R;
  M : R;
  particles : list Particle;
  running : bool;
  paused : bool;
  base_dt : R;
  speed_mult : R;
  dt : R;
  trail_length : nat;
  dragging : bool;
  drag_start : option (R * R);
  drag_button : option nat;
  show_trails : bool;
  next_oid : nat
}.

(** [BlackHoleSim.__init__] *)
Definition init : Sim :=
  let base_dt := 1 / FPS in
  let speed_mult := 1 in
  mkSim WIDTH HEIGHT 40 [] true false base_dt speed_mult
        (base_dt * speed_mult) 30 false None None true 0.

Definition set_particles (s : Sim) (ps : list Particle) : Sim :=
  mkSim (width s) (height s) (M s) ps (running s) (paused s) (base_dt s)
        (speed_mult s) (dt s) (trail_length s) (dragging s) (drag_start s)
        (drag_button s) (show_trails s) (next_oid s).

Definition set_M (s : Sim) (m : R) : Sim :=
  mkSim (width s) (height s) m (particles s) (running s) (paused s)
        (base_dt s) (speed_mult s) (dt s) (trail_length s) (dragging s)
        (drag_start s) (drag_button s) (show_trails s) (next_oid s).

Definition set_running (s : Sim) (b : bool) : Sim :=
  mkSim (width s) (height s) (M s) (particles s) b (paused s) (base_dt s)
        (speed_mult s) (dt s) (trail_length s) (dragging s) (drag_start s)
        (drag_button s) (show_trails s) (next_oid s).

Definition set_paused (s : Sim) (b : bool) : Sim :=
  mkSim (width s) (height s) (M s) (particles s) (running s) b (base_dt s)
        (speed_mult s) (dt s) (trail_length s) (dragging s) (drag_start s)
        (drag_button s) (show_trails s) (next_oid s).

Definition set_speed_mult (s : Sim) (m : R) : Sim :=
  mkSim (width s) (height s) (M s) (particles s) (running s) (paused s)
        (base_dt s) m (dt s) (trail_length s) (dragging s) (drag_start s)
        (drag_button s) (show_trails s) (next_oid s).

Definition set_dt (s : Sim) (d : R) : Sim :=
  mkSim (width s) (height s) (M s) (particles s) (running s) (paused s)
        (base_dt s) (speed_mult s) d (trail_length s) (dragging s)
        (drag_start s) (drag_button s) (show_trails s) (next_oid s).

Definition set_drag (s : Sim) (d : bool) (st : option (R * R))
    (b : option nat) : Sim :=
  mkSim (width s) (height s) (M s) (particles s) (running s) (paused s)
        (base_dt s) (speed_mult s) (dt s) (trail_length s) d st b
        (show_trails s) (next_oid s).

Definition set_show_trails (s : Sim) (b : bool) : Sim :=
  mkSim (width s) (height s) (M s) (particles s) (running s) (paused s)
        (base_dt s) (speed_mult s) (dt s) (trail_length s) (dragging s)
        (drag_start s) (drag_button s) b (next_oid s).

(** [schwarzschild_radius] *)
Definition schwarzschild_radius (s : Sim) : R := 2 * M s.

(** [center] *)
Definition center (s : Sim) : R * R := (width s / 2, height s / 2).

(** [world_offset] *)
Definition world_offset (s : Sim) : R * R := center s.

(** [add_particle]: a new object, appended. *)
Definition add_particle (s : Sim) (x0 y0 vx0 vy0 : R) : Sim :=
  let p := mkParticle (next_oid s) x0 y0 vx0 vy0 [] in
  mkSim (width s) (height s) (M s) (particles s ++ [p]) (running s)
        (paused s) (base_dt s) (speed_mult s) (dt s) (trail_length s)
        (dragging s) (drag_start s) (drag_button s) (show_trails s)
        (S (next_oid s)).

(** [compute_acceleration], every power taken as representable (module
    [BHOverflow] has it with the overflow).  The first pair [ax], [ay] the
    source computes from [a_mag] is overwritten before it is read. *)
Definition compute_acceleration (s : Sim) (px py : R) : result (R * R) :=
  let '(cx, cy) := center s in
  let dx := px - cx in
  let dy := py - cy in
  let r := math_hypot dx dy in
  if Req_dec_T r 0 then Ok (0, 0)
  else
    let soft := 6 in
    let denom := float_pow (r * r + soft * soft) 1.5 in
    q <- truediv (- G * M s) denom ;;
    let a_mag := q * (if Req_dec_T r 0 then 1 else r) in
    let ax := a_mag * dx in
    let ay := a_mag * dy in
    ax <- truediv (- G * M s * dx) denom ;;
    ay <- truediv (- G * M s * dy) denom ;;
    Ok (ax, ay).

(** The capture test at the end of the loop of [step]:
    [math.hypot(p.x - cx, p.y - cy) <= r_s]. *)
Definition captured (s : Sim) (p : Particle) : bool :=
  let r_s := schwarzschild_radius s in
  let '(cx, cy) := center s in
  if Rle_dec (math_hypot (x p - cx) (y p - cy)) r_s then true else false.

(** One turn of the loop of [step] on particle [p]: the particle after it,
    and whether it was appended to [remove]. *)
Definition advance (s : Sim) (p : Particle) : result (Particle * bool) :=
  '(ax, ay) <- compute_acceleration s (x p) (y p) ;;
  let vx' := vx p + ax * dt s in
  let vy' := vy p + ay * dt s in
  let x' := x p + vx' * dt s in
  let y' := y p + vy' * dt s in
  let trail' := trail p ++ [(x', y')] in
  let trail'' :=
    if Nat.ltb (trail_length s) (List.length trail') then tl trail'
    else trail' in
  let p' := mkParticle (oid p) x' y' vx' vy' trail'' in
  Ok (p', captured s p').

(** The particle [advance] leaves, as a function (with every power
    representable the force model always returns). *)
Definition moved (s : Sim) (p : Particle) : Particle :=
  match advance s p with
  | Ok (q, _) => q
  | Raise _ => p
  end.

(** What the first loop of [step] leaves behind. *)
Record Pass : Type := mkPass {
  store : list Particle;      (* [self.particles], objects updated in place *)
  remove : list Particle;     (* the list [remove] *)
  evals : list (R * R)        (* where [compute_acceleration] was called *)
}.

(** The first loop of [step], over the particles still to visit. *)
Fixpoint pass (s : Sim) (todo : list Particle) (acc : Pass) : result Pass :=
  match todo with
  | [] => Ok acc
  | p :: todo' =>
      '(p', captured) <- advance s p ;;
      pass s todo'
        (mkPass (store acc ++ [p'])
                (if captured then remove acc ++ [p'] else remove acc)
                (evals acc ++ [pos p]))
  end.

(** [list.remove(p)]: the first item that is the object [p] goes;
    [ValueError] when there is none. *)
Fixpoint list_remove (p : Particle) (l : list Particle)
  : result (list Particle) :=
  match l with
  | [] => Raise ValueError
  | q :: l' =>
      if Nat.eqb (oid q) (oid p) then Ok l'
      else (r <- list_remove p l' ;; Ok (q :: r))
  end.

(** The second loop of [step]. *)
Fixpoint remove_all (rm : list Particle) (l : list Particle)
  : result (list Particle) :=
  match rm with
  | [] => Ok l
  | p :: rm' => l' <- list_remove p l ;; remove_all rm' l'
  end.

(** [step], with the positions at which the force was evaluated. *)
Definition step_traced (s : Sim) : result (Sim * list (R * R)) :=
  ps <- pass s (particles s) (mkPass [] [] []) ;;
  l <- remove_all (remove ps) (store ps) ;;
  Ok (set_particles s l, evals ps).

(** [step] *)
Definition step (s : Sim) : result Sim :=
  '(s', _) <- step_traced s ;; Ok s'.

(** The store holds distinct objects, all older than the next one to be
    created. *)
Definition fresh_ids (s : Sim) : Prop :=
  NoDup (map oid (particles s)) /\
  forall p, In p (particles s) -> (oid p < next_oid s)%nat.

(** [spawn_random_cloud(n, radius_min, radius_max)]: six draws for each
    particle. *)
Fixpoint spawn_random_cloud (n : nat) (radius_min radius_max : R) (s : Sim)
  : Cmd Sim :=
  match n with
  | O => cret s
  | S n' =>
      let '(cx, cy) := center s in
      r <~ draw (Random.uniform radius_min radius_max) ;;
      theta <~ draw (Random.uniform 0 (2 * PI)) ;;
      let x0 := cx + r * cos theta in
      let y0 := cy + r * sin theta in
      q <~ lift (truediv (G * M s) (max r 0.001)) ;;
      v_circ <~ lift (math_sqrt q) ;;
      u1 <~ draw (Random.uniform 0.8 1.2) ;;
      let vx0 := - v_circ * sin theta * u1 in
      u2 <~ draw (Random.uniform 0.8 1.2) ;;
      let vy0 := v_circ * cos theta * u2 in
      u3 <~ draw (Random.uniform (-0.05) 0.05) ;;
      let vx1 := vx0 + u3 * v_circ in
      u4 <~ draw (Random.uniform (-0.05) 0.05) ;;
      let vy1 := vy0 + u4 * v_circ in
      spawn_random_cloud n' radius_min radius_max
        (add_particle s x0 y0 vx1 vy1)
  end.

(** The keys [run] reacts to, and the events of the window. *)
Inductive Key : Set :=
| K_ESCAPE | K_SPACE | K_c | K_r | K_UP | K_DOWN
| K_RIGHTBRACKET | K_LEFTBRACKET | K_n | K_t | K_other.

Inductive Event : Type :=
| QUIT
| KEYDOWN (key : Key) (shift : bool)
| MOUSEBUTTONDOWN (mx my : R) (button : nat)
| MOUSEBUTTONUP (mx my : R)
| OTHER.

(** The [KEYDOWN] branch of [run]. *)
Definition on_keydown (key : Key) (shift : bool) (s : Sim) : Cmd Sim :=
  match key with
  | K_ESCAPE => cret (set_running s false)
  | K_SPACE => cret (set_paused s (negb (paused s)))
  | K_c => cret (set_particles s [])
  | K_r => spawn_random_cloud 60 120 320 s
  | K_UP => cret (set_M s (if shift then M s * 1.5 else M s * 1.1))
  | K_DOWN =>
      if shift then (q <~ lift (truediv (M s) 1.5) ;; cret (set_M s (max 1 q)))
      else cret (set_M s (max 1 (M s * 0.9)))
  | K_RIGHTBRACKET =>
      let s1 := set_speed_mult s (speed_mult s * 2) in
      cret (set_dt s1 (base_dt s1 * speed_mult s1))
  | K_LEFTBRACKET =>
      q <~ lift (truediv (speed_mult s) 2) ;;
      let s1 := set_speed_mult s (max 0.125 q) in
      cret (set_dt s1 (base_dt s1 * speed_mult s1))
  | K_n => if paused s then lift (step s) else cret s
  | K_t => cret (set_show_trails s (negb (show_trails s)))
  | K_other => cret s
  end.

(** The [MOUSEBUTTONUP] branch of [run]. *)
Definition on_mousebuttonup (mx my : R) (s : Sim) : Cmd Sim :=
  match dragging s, drag_start s with
  | true, Some (sx, sy) =>
      let dx := mx - sx in
      let dy := my - sy in
      let dist := math_hypot dx dy in
      s1 <~ (if Rlt_dec 6 dist then
               let fling_scale := 0.06 in
               cret (add_particle s sx sy (dx * fling_scale) (dy * fling_scale))
             else
               match drag_button s with
               | Some 1%nat =>
                   let '(cx, cy) := center s in
                   let dx_c := sx - cx in
                   let dy_c := sy - cy in
                   let r := math_hypot dx_c dy_c in
                   if Rle_dec 5 r then
                     q <~ lift (truediv (G * M s) (max r 0.001)) ;;
                     v_circ <~ lift (math_sqrt q) ;;
                     vx0 <~ lift (truediv (- v_circ * dy_c) r) ;;
                     vy0 <~ lift (truediv (v_circ * dx_c) r) ;;
                     u1 <~ draw (Random.uniform 0.95 1.05) ;;
                     u2 <~ draw (Random.uniform 0.95 1.05) ;;
                     cret (add_particle s sx sy (vx0 * u1) (vy0 * u2))
                   else cret s
               | Some 3%nat =>
                   vx0 <~ draw (Random.uniform (-0.6) 0.6) ;;
                   vy0 <~ draw (Random.uniform (-0.6) 0.6) ;;
                   cret (add_particle s sx sy vx0 vy0)
               | _ => cret s
               end) ;;
      cret (set_drag s1 false None None)
  | _, _ => cret s
  end.

(** One event of the event loop of [run]. *)
Definition on_event (ev : Event) (s : Sim) : Cmd Sim :=
  match ev with
  | QUIT => cret (set_running s false)
  | KEYDOWN key shift => on_keydown key shift s
  | MOUSEBUTTONDOWN mx my button =>
      cret (set_drag s true (Some (mx, my)) (Some button))
  | MOUSEBUTTONUP mx my => on_mousebuttonup mx my s
  | OTHER => cret s
  end.

Fixpoint on_events (evs : list Event) (s : Sim) : Cmd Sim :=
  match evs with
  | [] => cret s
  | ev :: evs' => s' <~ on_event ev s ;; on_events evs' s'
  end.

(** The events that create particles: the key [R] and the release of a
    mouse button. *)
Definition spawns (ev : Event) : bool :=
  match ev with
  | KEYDOWN K_r _ => true
  | MOUSEBUTTONUP _ _ => true
  | _ => false
  end.

(** The states [run] goes through: distinct objects in the store and a
    positive attractor mass. *)
Definition well_formed (s : Sim) : Prop := fresh_ids s /\ 0 < M s.

(** The speed multiplier is at least [floor] and the base step is
    positive. *)
Definition clock_ok (floor : R) (s : Sim) : Prop :=
  floor <= speed_mult s /\ 0 < base_dt s.

(** What [run] does after the events of a frame: [dt] is refreshed and
    the simulation advances unless paused. *)
Definition tick (s : Sim) : result Sim :=
  let s1 := set_dt s (base_dt s * speed_mult s) in
  if paused s1 then Ok s1 else step s1.

(** What [run] does before its loop: the first cloud. *)
Definition start (s : Sim) : Cmd Sim := spawn_random_cloud 80 120 320 s.

(** One turn of the [while self.running] loop of [run] (drawing and the
    clock left out). *)
Definition frame (evs : list Event) (s : Sim) : Cmd Sim :=
  s' <~ on_events evs s ;; lift (tick s').

End BH.

(* ================================================================== *)
(** ** The force model of [bh.py] with the overflow of its power

    On floats [r * r] is [inf] once it is beyond the largest float, and
    [x ** 1.5] raises [OverflowError] when [x] is a number whose power is
    beyond the largest float, while [inf ** 1.5] is [inf] and a number
    divided by [inf] is zero. *)

Module BHOverflow.
Import BH.

(** [sys.float_info.max], the largest float: [2^1024 - 2^971]. *)
Definition FLOAT_MAX : R :=
  ltac:(let v := eval vm_compute in
                   (BinInt.Z.sub (BinInt.Z.pow 2 1024) (BinInt.Z.pow 2 971)) in
        exact (IZR v)).

(** A float that is a number or [inf]. *)
Inductive xfloat : Type :=
| Finite (v : R)
| Infinity.

(** The float a sum of squares is computed to: [inf] beyond the largest
    float. *)
Definition overflowing (v : R) : xfloat :=
  if Rlt_dec FLOAT_MAX v then Infinity else Finite v.

(** [a ** b] for a positive exponent. *)
Definition float_pow (a : xfloat) (b : R) : result xfloat :=
  match a with
  | Infinity => Ok Infinity
  | Finite v =>
      if Rlt_dec FLOAT_MAX (Py.float_pow v b) then Raise OverflowError
      else Ok (Finite (Py.float_pow v b))
  end.

(** [a / b] for a number [a]. *)
Definition truediv (a : R) (b : xfloat) : result R :=
  match b with
  | Infinity => Ok 0
  | Finite v => Py.truediv a v
  end.

(** [compute_acceleration] *)
Definition compute_acceleration (s : Sim) (px py : R) : result (R * R) :=
  let '(cx, cy) := center s in
  let dx := px - cx in
  let dy := py - cy in
  let r := math_hypot dx dy in
  if Req_dec_T r 0 then Ok (0, 0)
  else
    let soft := 6 in
    denom <- float_pow (overflowing (r * r + soft * soft)) 1.5 ;;
    q <- truediv (- G * M s) denom ;;
    let a_mag := q * (if Req_dec_T r 0 then 1 else r) in
    let ax := a_mag * dx in
    let ay := a_mag * dy in
    ax <- truediv (- G * M s * dx) denom ;;
    ay <- truediv (- G * M s * dy) denom ;;
    Ok (ax, ay).

(** The positions at which the power of the force model is a float. *)
Definition representable (s : Sim) (px py : R) : Prop :=
  let '(cx, cy) := center s in
  let dx := px - cx in
  let dy := py - cy in
  Rpower (dx * dx + dy * dy + 6 * 6) (3 / 2) <= FLOAT_MAX.

End BHOverflow.

(* ================================================================== *)
(** ** [e.py]: discs in a box, with gravity, walls and collisions *)

Module E.

Definition WIDTH : R := 800.
Definition HEIGHT : R := 600.
Definition DEFAULT_N : nat := 1.
Definition MIN_RADIUS : R := 18.
Definition MAX_RADIUS : R := 18.
Definition GRAVITY : R := 200.
Definition FRICTION : R := 1.

(** [class Particle] (a dataclass; the canvas item [_id] left out). *)
Record Particle : Type := mkParticle {
  x : R;
  y : R;
  vx : R;
  vy : R;
  r : R;
  m : R;
  color : string
}.

(** The fields of [Simulation] the physics reads. *)
Record Sim : Type := mkSim {
  particles : list Particle;
  running : bool;
  speed : R;
  dt : R
}.

(** [_overlap] *)
Definition _overlap (a b : Particle) : bool :=
  let dx := x a - x b in
  let dy := y a - y b in
  if Rlt_dec (dx * dx + dy * dy) ((r a + r b) ^ 2) then true else false.

(** ["#" + "".join(random.choice("89ABCDEF") for _ in range(6))] *)
Definition palette : list ascii :=
  ["8"; "9"; "A"; "B"; "C"; "D"; "E"; "F"]%char.

Fixpoint random_digits (k : nat) : Cmd string :=
  match k with
  | O => cret EmptyString
  | S k' =>
      i <~ draw (Random.randbelow (List.length palette)) ;;
      rest <~ random_digits k' ;;
      cret (String (nth i palette "8"%char) rest)
  end.

Definition random_color : Cmd string :=
  ds <~ random_digits 6 ;; cret (String "#"%char ds).

(** The [while] loop of [_init_particles]; [budget] is what is left of the
    [n * 200] attempts. *)
Fixpoint init_loop (n budget : nat) (ps : list Particle)
  : Cmd (list Particle) :=
  match budget with
  | O => cret ps
  | S budget' =>
      if Nat.ltb (List.length ps) n then
        r0 <~ draw (Random.uniform MIN_RADIUS MAX_RADIUS) ;;
        x0 <~ draw (Random.uniform r0 (WIDTH - r0)) ;;
        y0 <~ draw (Random.uniform r0 (HEIGHT - r0)) ;;
        vx0 <~ draw (Random.uniform (-150) 150) ;;
        vy0 <~ draw (Random.uniform (-150) 150) ;;
        c <~ random_color ;;
        let p := mkParticle x0 y0 vx0 vy0 r0 (r0 * r0) c in
        if existsb (_overlap p) ps then init_loop n budget' ps
        else init_loop n budget' (ps ++ [p])
      else cret ps
  end.

(** [_init_particles] *)
Definition _init_particles (n : nat) (s : Sim) : Cmd Sim :=
  ps <~ init_loop n (n * 200) [] ;;
  cret (mkSim ps (running s) (speed s) (dt s)).

(** [_toggle] *)
Definition _toggle (s : Sim) : Sim :=
  mkSim (particles s) (negb (running s)) (speed s) (dt s).

(** [_reset] *)
Definition _reset (s : Sim) : Cmd Sim :=
  let n := List.length (particles s) in
  _init_particles n s.

(** [_change_speed] *)
Definition _change_speed (factor : R) (s : Sim) : Sim :=
  let speed1 := speed s * factor in
  mkSim (particles s) (running s) (max 0.1 (min 10 speed1)) (dt s).

(** [spawn_particle] of the main block, called without a radius. *)
Definition spawn_particle (x0 y0 vx0 vy0 : R) (s : Sim) : Cmd Sim :=
  r0 <~ draw (Random.uniform MIN_RADIUS MAX_RADIUS) ;;
  c <~ random_color ;;
  let p := mkParticle x0 y0 vx0 vy0 r0 (r0 * r0) c in
  cret (mkSim (particles s ++ [p]) (running s) (speed s) (dt s)).

(** [_handle_wall_collision]: four tests in a row, each on the particle
    as the tests before it left it. *)
Definition _handle_wall_collision (p : Particle) : Particle :=
  let p1 :=
    if Rlt_dec (x p - r p) 0
    then mkParticle (r p) (y p) (abs (vx p)) (vy p) (r p) (m p) (color p)
    else p in
  let p2 :=
    if Rlt_dec WIDTH (x p1 + r p1)
    then mkParticle (WIDTH - r p1) (y p1) (- abs (vx p1)) (vy p1)
                    (r p1) (m p1) (color p1)
    else p1 in
  let p3 :=
    if Rlt_dec (y p2 - r p2) 0
    then mkParticle (x p2) (r p2) (vx p2) (abs (vy p2)) (r p2) (m p2)
                    (color p2)
    else p2 in
  if Rlt_dec HEIGHT (y p3 + r p3)
  then mkParticle (x p3) (HEIGHT - r p3) (vx p3) (- abs (vy p3))
                  (r p3) (m p3) (color p3)
  else p3.

(** The five assignments at the head of the loop of [_step]. *)
Definition integrate (dt0 : R) (p : Particle) : Particle :=
  let vy1 := vy p + GRAVITY * dt0 in
  let vx2 := vx p * FRICTION in
  let vy2 := vy1 * FRICTION in
  let x' := x p + vx2 * dt0 in
  let y' := y p + vy2 * dt0 in
  mkParticle x' y' vx2 vy2 (r p) (m p) (color p).

(** The body of the [if] of [_resolve_collisions] for a pair in contact,
    with the restitution [e] as an argument. *)
Definition collide (e : R) (a b : Particle) (dx dy dist2 radii : R)
  : result (Particle * Particle) :=
  dist <- math_sqrt dist2 ;;
  nx <- truediv dx dist ;;
  ny <- truediv dy dist ;;
  let overlap := radii - dist in
  let total_mass := m a + m b in
  share_b <- truediv (m b) total_mass ;;
  let ax' := x a - nx * (overlap * share_b) in
  let ay' := y a - ny * (overlap * share_b) in
  share_a <- truediv (m a) total_mass ;;
  let bx' := x b + nx * (overlap * share_a) in
  let by' := y b + ny * (overlap * share_a) in
  let rvx := vx b - vx a in
  let rvy := vy b - vy a in
  let vel_along_normal := rvx * nx + rvy * ny in
  if Rlt_dec 0 vel_along_normal then
    Ok (mkParticle ax' ay' (vx a) (vy a) (r a) (m a) (color a),
        mkParticle bx' by' (vx b) (vy b) (r b) (m b) (color b))
  else
    let j := - (1 + e) * vel_along_normal in
    inv_a <- truediv 1 (m a) ;;
    inv_b <- truediv 1 (m b) ;;
    j <- truediv j (inv_a + inv_b) ;;
    let impulse_x := j * nx in
    let impulse_y := j * ny in
    dvax <- truediv impulse_x (m a) ;;
    dvay <- truediv impulse_y (m a) ;;
    dvbx <- truediv impulse_x (m b) ;;
    dvby <- truediv impulse_y (m b) ;;
    Ok (mkParticle ax' ay' (vx a - dvax) (vy a - dvay) (r a) (m a) (color a),
        mkParticle bx' by' (vx b + dvbx) (vy b + dvby) (r b) (m b) (color b)).

(** The body of the inner loop of [_resolve_collisions] on the pair
    [(a, b)]; the source sets [e = 0.95] there. *)
Definition resolve_pair (a b : Particle) : result (Particle * Particle) :=
  let dx := x b - x a in
  let dy := y b - y a in
  let dist2 := dx * dx + dy * dy in
  let radii := r a + r b in
  if Rle_dec dist2 (radii * radii) then
    if Rlt_dec 0 dist2 then collide 0.95 a b dx dy dist2 radii
    else Ok (a, b)
  else Ok (a, b).

(** [l[i]] and the store after an in-place update of the object at [i]. *)
Definition getitem (l : list Particle) (i : nat) : result Particle :=
  match nth_error l i with
  | Some p => Ok p
  | None => Raise IndexError
  end.

Fixpoint setitem (l : list Particle) (i : nat) (p : Particle)
  : list Particle :=
  match l, i with
  | [], _ => []
  | _ :: l', O => p :: l'
  | q :: l', S i' => q :: setitem l' i' p
  end.

(** The inner loop for a fixed [i], over the indices [js]. *)
Fixpoint resolve_row (i : nat) (js : list nat) (ps : list Particle)
  : result (list Particle) :=
  match js with
  | [] => Ok ps
  | j :: js' =>
      a <- getitem ps i ;;
      b <- getitem ps j ;;
      '(a', b') <- resolve_pair a b ;;
      resolve_row i js' (setitem (setitem ps i a') j b')
  end.

(** The outer loop, over the indices [rows], for a list of [n] particles. *)
Fixpoint resolve_rows (n : nat) (rows : list nat) (ps : list Particle)
  : result (list Particle) :=
  match rows with
  | [] => Ok ps
  | i :: rows' =>
      ps' <- resolve_row i (seq (i + 1) (n - (i + 1))) ps ;;
      resolve_rows n rows' ps'
  end.

(** [_resolve_collisions] *)
Definition _resolve_collisions (ps : list Particle) : result (list Particle) :=
  let n := List.length ps in
  resolve_rows n (seq 0 n) ps.

(** [_step] (redrawing left out). *)
Definition _step (dt0 : R) (s : Sim) : result Sim :=
  let ps1 := map (fun p => _handle_wall_collision (integrate dt0 p))
                 (particles s) in
  ps2 <- _resolve_collisions ps1 ;;
  Ok (mkSim ps2 (running s) (speed s) (dt s)).

(** [_loop], one call. *)
Definition _loop (s : Sim) : result Sim :=
  if running s then _step (dt s * speed s) s else Ok s.

(** What the bound keys, the wheel and the mouse ask of the simulation. *)
Inductive Command : Type :=
| Toggle
| Reset
| ChangeSpeed (factor : R)
| Spawn (x0 y0 vx0 vy0 : R).

Definition on_command (c : Command) (s : Sim) : Cmd Sim :=
  match c with
  | Toggle => cret (_toggle s)
  | Reset => _reset s
  | ChangeSpeed factor => cret (_change_speed factor s)
  | Spawn x0 y0 vx0 vy0 => spawn_particle x0 y0 vx0 vy0 s
  end.

(** The commands that create particles. *)
Definition spawns (c : Command) : bool :=
  match c with
  | Reset => true
  | Spawn _ _ _ _ => true
  | _ => false
  end.

(** What the Tk main loop calls: the timer callback [_loop], or the
    handler of a command. *)
Inductive Callback : Type :=
| Timer
| Request (c : Command).

Definition on_callback (cb : Callback) (s : Sim) : Cmd Sim :=
  match cb with
  | Timer => lift (_loop s)
  | Request c => on_command c s
  end.

Fixpoint mainloop (cbs : list Callback) (s : Sim) : Cmd Sim :=
  match cbs with
  | [] => cret s
  | cb :: cbs' => s' <~ on_callback cb s ;; mainloop cbs' s'
  end.

Definition physics_only (cb : Callback) : bool :=
  match cb with
  | Timer => true
  | Request c => negb (spawns c)
  end.

(** One turn of the inner loop of [_resolve_collisions], on the objects at
    the indices [i] and [j] of the store. *)
Definition resolve_at (i j : nat) (ps : list Particle)
  : result (list Particle) :=
  a <- getitem ps i ;;
  b <- getitem ps j ;;
  '(a', b') <- resolve_pair a b ;;
  Ok (setitem (setitem ps i a') j b').

(** The turns of the inner loop for a list of index pairs, in order. *)
Fixpoint resolve_each (turns : list (nat * nat)) (ps : list Particle)
  : result (list Particle) :=
  match turns with
  | [] => Ok ps
  | (i, j) :: turns' => ps' <- resolve_at i j ps ;; resolve_each turns' ps'
  end.

(** The index pairs the two loops of [_resolve_collisions] go through for a
    list of [n] particles: [for i in range(n)], [for j in range(i + 1, n)]. *)
Definition index_pairs (n : nat) : list (nat * nat) :=
  flat_map (fun i => map (pair i) (seq (i + 1) (n - (i + 1)))) (seq 0 n).

(** Every disc of the store has a positive mass. *)
Definition massive (s : Sim) : Prop :=
  Forall (fun p => 0 < m p) (particles s).

(** [Simulation.__init__] without the particles. *)
Definition init : Sim := mkSim [] true 1 0.016.


End E.

(* ================================================================== *)
(** ** The wall handler and the pair resolver on binary64

    The same two functions of [e.py] once more, on IEEE binary64 numbers
    with the operations CPython applies to them, so that the concrete cases
    below can be run with the rounding of the program. *)

Module E64.

Import PrimFloat.
Local Open Scope float_scope.

Record Particle : Set := mkParticle {
  x : float;
  y : float;
  vx : float;
  vy : float;
  r : float;
  m : float
}.

Definition WIDTH : float := 800.
Definition HEIGHT : float := 600.

Definition truediv (a b : float) : result float :=
  if PrimFloat.eqb b 0 then Raise ZeroDivisionError else Ok (a / b).

Definition math_sqrt (a : float) : result float :=
  if PrimFloat.ltb a 0 then Raise ValueError else Ok (PrimFloat.sqrt a).

(** [_handle_wall_collision] *)
Definition _handle_wall_collision (p : Particle) : Particle :=
  let p1 :=
    if PrimFloat.ltb (x p - r p) 0
    then mkParticle (r p) (y p) (PrimFloat.abs (vx p)) (vy p) (r p) (m p)
    else p in
  let p2 :=
    if PrimFloat.ltb WIDTH (x p1 + r p1)
    then mkParticle (WIDTH - r p1) (y p1) (- PrimFloat.abs (vx p1)) (vy p1)
                    (r p1) (m p1)
    else p1 in
  let p3 :=
    if PrimFloat.ltb (y p2 - r p2) 0
    then mkParticle (x p2) (r p2) (vx p2) (PrimFloat.abs (vy p2)) (r p2)
                    (m p2)
    else p2 in
  if PrimFloat.ltb HEIGHT (y p3 + r p3)
  then mkParticle (x p3) (HEIGHT - r p3) (vx p3) (- PrimFloat.abs (vy p3))
                  (r p3) (m p3)
  else p3.

(** The body of the inner loop of [_resolve_collisions]. *)
Definition resolve_pair (a b : Particle) : result (Particle * Particle) :=
  let dx := x b - x a in
  let dy := y b - y a in
  let dist2 := dx * dx + dy * dy in
  let radii := r a + r b in
  if PrimFloat.leb dist2 (radii * radii) && PrimFloat.ltb 0 dist2 then
    dist <- math_sqrt dist2 ;;
    nx <- truediv dx dist ;;
    ny <- truediv dy dist ;;
    let overlap := radii - dist in
    let total_mass := m a + m b in
    share_b <- truediv (m b) total_mass ;;
    let ax' := x a - nx * (overlap * share_b) in
    let ay' := y a - ny * (overlap * share_b) in
    share_a <- truediv (m a) total_mass ;;
    let bx' := x b + nx * (overlap * share_a) in
    let by' := y b + ny * (overlap * share_a) in
    let rvx := vx b - vx a in
    let rvy := vy b - vy a in
    let vel_along_normal := rvx * nx + rvy * ny in
    if PrimFloat.ltb 0 vel_along_normal then
      Ok (mkParticle ax' ay' (vx a) (vy a) (r a) (m a),
          mkParticle bx' by' (vx b) (vy b) (r b) (m b))
    else
      let e := 0x1.e666666666666p-1 in (* 0.95 *)
      let j := - (1 + e) * vel_along_normal in
      inv_a <- truediv 1 (m a) ;;
      inv_b <- truediv 1 (m b) ;;
      j <- truediv j (inv_a + inv_b) ;;
      let impulse_x := j * nx in
      let impulse_y := j * ny in
      dvax <- truediv impulse_x (m a) ;;
      dvay <- truediv impulse_y (m a) ;;
      dvbx <- truediv impulse_x (m b) ;;
      dvby <- truediv impulse_y (m b) ;;
      Ok (mkParticle ax' ay' (vx a - dvax) (vy a - dvay) (r a) (m a),
          mkParticle bx' by' (vx b + dvbx) (vy b + dvby) (r b) (m b))
  else Ok (a, b).

(** The concrete discs of the cases below: across the left wall and
    moving right; a pair in contact, a pair exactly touching and a pair
    apart, each moving towards the other. *)
Definition inbound_at_left_wall : Particle := mkParticle 5 300 50 0 18 324.
Definition head_on_left : Particle := mkParticle 100 100 50 0 18 324.
Definition head_on_right : Particle := mkParticle 130 100 (-50) 0 18 324.
Definition touching_right : Particle := mkParticle 136 100 (-50) 0 18 324.
Definition far_right : Particle := mkParticle 200 100 (-50) 0 18 324.

(** What the resolver compares for a pair: the squared distance of the
    centres and the square of the sum of the radii. *)
Definition dist2 (a b : Particle) : float :=
  let dx := x b - x a in
  let dy := y b - y a in
  dx * dx + dy * dy.

Definition radii2 (a b : Particle) : float :=
  let radii := r a + r b in
  radii * radii.

(** The mass-weighted vertical displacements of a pair, summed. *)
Definition weighted_shift_y (a b a' b' : Particle) : float :=
  m a * (y a' - y a) + m b * (y b' - y b).

(** Two pairs of discs at rest that overlap along a slanted line. *)
Definition slanted_left : Particle := mkParticle 118 341 0 0 18 324.
Definition slanted_right : Particle := mkParticle 142 362 0 0 18 324.
Definition steep_left : Particle := mkParticle 300 100 0 0 18 324.
Definition steep_right : Particle := mkParticle 310 130 0 0 18 324.

End E64.

(* ================================================================== *)
(** ** Quantities of a store of discs *)

Module EPhysics.
Import E.

(** The sum of [f] over the discs of a store. *)
Definition total (f : Particle -> R) (ps : list Particle) : R :=
  fold_right (fun p acc => f p + acc) 0 ps.

Definition momentum_x (p : Particle) : R := m p * vx p.
Definition momentum_y (p : Particle) : R := m p * vy p.
Definition moment_x (p : Particle) : R := m p * x p.
Definition moment_y (p : Particle) : R := m p * y p.
Definition kinetic_energy (p : Particle) : R :=
  m p * (vx p * vx p + vy p * vy p) / 2.

(** What a step never touches of a disc. *)
Definition body (p : Particle) : R * R * string := (r p, m p, color p).

(** The centre of a disc lies between the walls. *)
Definition inside (p : Particle) : Prop :=
  r p <= x p <= WIDTH - r p /\ r p <= y p <= HEIGHT - r p.

(** What [_init_particles] makes a disc be. *)
Definition placed (q : Particle) : Prop :=
  r q = 18 /\ m q = 324 /\ inside q /\
  -150 <= vx q <= 150 /\ -150 <= vy q <= 150.

(** The loop keeps: at most [n] discs, each placed as above, no two of
    them overlapping. *)
Definition tidy (n : nat) (ps : list Particle) : Prop :=
  (List.length ps <= n)%nat /\ Forall placed ps /\
  ForallOrdPairs (fun a b => _overlap a b = false) ps.

End EPhysics.

(* ================================================================== *)
(** ** The mouse of [e.py]

    The handlers of the main block.  They share the dictionary [drag] and
    read the clock; here the time [time.time()] returns is an argument of
    the handler.  [drag["p"]] holds a reference to a disc: in the store it
    is the disc at a given place (the store only grows at its end), and
    after [_init_particles] has replaced the store it is an object that is
    in no store any more. *)

Module EMouse.
Import E.

(** The object [drag["p"]] refers to. *)
Inductive Target : Set :=
| InStore (i : nat)
| Detached.

(** The dictionary [drag]; a press, [(x, y, time)]. *)
Record Drag : Type := mkDrag {
  p : option Target;
  last : option (R * R * R);
  start : option (R * R * R);
  button : option nat
}.

(** [drag = {"p": None, "last": None, "start": None, "button": None}] *)
Definition no_drag : Drag := mkDrag None None None None.

(** The simulation and the dictionary. *)
Record App : Type := mkApp {
  sim : Sim;
  drag : Drag
}.

(** The test of [find_particle_at]:
    [dx * dx + dy * dy <= p.r * p.r]. *)
Definition hit (x0 y0 : R) (q : Particle) : bool :=
  let dx := x q - x0 in
  let dy := y q - y0 in
  if Rle_dec (dx * dx + dy * dy) (r q * r q) then true else false.

(** [find_particle_at]: the store is searched from its end; the disc found
    comes with its place in the store. *)
Definition find_particle_at (ps : list Particle) (x0 y0 : R)
  : option (nat * Particle) :=
  find (fun iq => hit x0 y0 (snd iq))
       (rev (combine (seq 0 (List.length ps)) ps)).

(** [on_button_press] *)
Definition on_button_press (b : nat) (x0 y0 now : R) (a : App) : Cmd App :=
  let d := mkDrag (p (drag a)) (last (drag a)) (start (drag a)) (Some b) in
  match b with
  | 1%nat =>
      match find_particle_at (particles (sim a)) x0 y0 with
      | Some (i, _) =>
          cret (mkApp (sim a)
                      (mkDrag (Some (InStore i)) (Some (x0, y0, now))
                              (start d) (button d)))
      | None =>
          s' <~ spawn_particle x0 y0 0 0 (sim a) ;;
          cret (mkApp s'
                      (mkDrag (Some (InStore (List.length (particles (sim a)))))
                              (Some (x0, y0, now)) (start d) (button d)))
      end
  | 3%nat =>
      cret (mkApp (sim a)
                  (mkDrag (p d) (last d) (Some (x0, y0, now)) (button d)))
  | _ => cret (mkApp (sim a) d)
  end.

(** The four assignments of [on_motion] to the dragged disc. *)
Definition drag_to (x0 y0 vx0 vy0 : R) (q : Particle) : Particle :=
  mkParticle x0 y0 vx0 vy0 (r q) (m q) (color q).

(** [on_motion] *)
Definition on_motion (x0 y0 now : R) (a : App) : result App :=
  match p (drag a), last (drag a) with
  | Some t, Some (last_x, last_y, last_t) =>
      let dt0 := max 0.0001 (now - last_t) in
      let dx := x0 - last_x in
      let dy := y0 - last_y in
      vx0 <- truediv dx dt0 ;;
      vy0 <- truediv dy dt0 ;;
      let ps :=
        match t with
        | InStore i =>
            match nth_error (particles (sim a)) i with
            | Some q =>
                setitem (particles (sim a)) i (drag_to x0 y0 vx0 vy0 q)
            | None => particles (sim a)
            end
        | Detached => particles (sim a)
        end in
      Ok (mkApp (mkSim ps (running (sim a)) (speed (sim a)) (dt (sim a)))
                (mkDrag (p (drag a)) (Some (x0, y0, now)) (start (drag a))
                        (button (drag a))))
  | _, _ => Ok a
  end.

(** [on_button_release] *)
Definition on_button_release (b : nat) (x0 y0 now : R) (a : App) : Cmd App :=
  match b, p (drag a), start (drag a) with
  | 1%nat, Some _, _ =>
      cret (mkApp (sim a)
                  (mkDrag None None (start (drag a)) (button (drag a))))
  | 3%nat, _, Some (sx, sy, st) =>
      let dt0 := max 0.0001 (now - st) in
      qx <~ lift (truediv (x0 - sx) dt0) ;;
      let vx0 := qx * 0.02 in
      qy <~ lift (truediv (y0 - sy) dt0) ;;
      let vy0 := qy * 0.02 in
      s' <~ spawn_particle sx sy vx0 vy0 (sim a) ;;
      cret (mkApp s'
                  (mkDrag (p (drag a)) (last (drag a)) None (button (drag a))))
  | _, _, _ => cret a
  end.

(** [on_mouse_wheel], on the [delta] of the event ([0] when it has
    none). *)
Definition on_mouse_wheel (delta : R) (a : App) : App :=
  if Req_dec_T delta 0 then a
  else
    let factor := if Rlt_dec 0 delta then 1.1 else 0.9 in
    mkApp (_change_speed factor (sim a)) (drag a).

(** The key [r] with the mouse in the picture: the store is replaced, and
    a disc being dragged is left outside the new store. *)
Definition on_reset (a : App) : Cmd App :=
  s' <~ _reset (sim a) ;;
  cret (mkApp s'
              (mkDrag (match p (drag a) with
                       | Some _ => Some Detached
                       | None => None
                       end)
                      (last (drag a)) (start (drag a)) (button (drag a)))).

(** What the Tk main loop delivers with the mouse bound: the timer, the
    keys, the wheel and the three mouse events, each with the time at
    which its handler reads the clock. *)
Inductive Input : Type :=
| Tick
| KeySpace
| KeyR
| KeyUp
| KeyDown
| Wheel (delta : R)
| ButtonPress (b : nat) (x0 y0 now : R)
| Motion (x0 y0 now : R)
| ButtonRelease (b : nat) (x0 y0 now : R).

Definition with_sim (a : App) (s' : Sim) : App := mkApp s' (drag a).

Definition on_input (i : Input) (a : App) : Cmd App :=
  match i with
  | Tick => s' <~ lift (_loop (sim a)) ;; cret (with_sim a s')
  | KeySpace => cret (with_sim a (_toggle (sim a)))
  | KeyR => on_reset a
  | KeyUp => cret (with_sim a (_change_speed 1.1 (sim a)))
  | KeyDown => cret (with_sim a (_change_speed 0.9 (sim a)))
  | Wheel delta => cret (on_mouse_wheel delta a)
  | ButtonPress b x0 y0 now => on_button_press b x0 y0 now a
  | Motion x0 y0 now => lift (on_motion x0 y0 now a)
  | ButtonRelease b x0 y0 now => on_button_release b x0 y0 now a
  end.

Fixpoint on_inputs (l : list Input) (a : App) : Cmd App :=
  match l with
  | [] => cret a
  | i :: l' => a' <~ on_input i a ;; on_inputs l' a'
  end.

(** The disc being dragged, when it is in the store, is at a place of the
    store; and the masses are positive. *)
Definition sound (a : App) : Prop :=
  massive (sim a) /\
  match p (drag a) with
  | Some (InStore i) => (i < List.length (particles (sim a)))%nat
  | _ => True
  end.

End EMouse.

(* ================================================================== *)
(** ** Concrete states *)

(** A store of two tracers: one at the attractor, one far to the right. *)
Definition two_tracers : BH.Sim :=
  BH.add_particle (BH.add_particle BH.init 500 350 3 4) 900 350 0 1.

(** A disc dragged half-way through the left wall while moving right. *)
Definition inbound_at_left_wall : E.Particle :=
  E.mkParticle 5 300 50 0 18 324 EmptyString.

(** A disc about to reach the left wall. *)
Definition near_left_wall : E.Particle :=
  E.mkParticle 18.5 300 (-50) 0 18 324 EmptyString.

(** A tracer that crosses the attractor's centre fast enough to be out of
    the horizon after one tick. *)
Definition through_centre : BH.Sim :=
  BH.add_particle BH.init 500 350 6000 0.

(** A running store of one disc in mid-air. *)
Definition mid_air : E.Particle :=
  E.mkParticle 400 300 30 (-20) 18 324 EmptyString.

Definition one_disc : E.Sim := E.mkSim [mid_air] true 1 0.016.

(** Two equal discs in contact, moving towards each other. *)
Definition head_on_left : E.Particle :=
  E.mkParticle 100 100 50 0 18 324 EmptyString.
Definition head_on_right : E.Particle :=
  E.mkParticle 130 100 (-50) 0 18 324 EmptyString.

Definition touching_right : E.Particle :=
  E.mkParticle 136 100 (-50) 0 18 324 EmptyString.

Definition far_right : E.Particle :=
  E.mkParticle 200 100 (-50) 0 18 324 EmptyString.

(** A generator that always draws zero, and the generators whose draws
    are in [[0, 1)], as those of [random.random()] are. *)
Definition zero_rng : Random.Rng :=
  Random.mkRng (fun _ => 0) (fun _ => 0%nat) 0.

Definition unit_range (g : Random.Rng) : Prop :=
  forall i : nat, 0 <= Random.unit_draws g i < 1.

(** The generator after [k] more draws. *)
Definition after (k : nat) (g : Random.Rng) : Random.Rng :=
  Random.mkRng (Random.unit_draws g) (Random.int_draws g)
               (k + Random.cursor g).

(** A command that, run on a generator whose draws are in [[0, 1)],
    returns a value that satisfies [Q]. *)
Definition draws_ok {A : Type} (c : Cmd A) (Q : A -> Prop) : Prop :=
  forall g : Random.Rng, unit_range g ->
  exists (a : A) (g' : Random.Rng),
    c g = Ok (a, g') /\ unit_range g' /\ Q a.

(** A frame of events of [bh.py]: a cloud, a click, a slow-down of the
    attractor. *)
Definition busy_frame : list BH.Event :=
  [BH.KEYDOWN BH.K_r false; BH.MOUSEBUTTONDOWN 600 350 1;
   BH.MOUSEBUTTONUP 600 350; BH.KEYDOWN BH.K_DOWN true].

(* ================================================================== *)
(** ** Facts about the arithmetic *)

Section PyFacts.

Lemma truediv_ok (a b : R) : b <> 0 -> truediv a b = Ok (a / b).
Proof.
  intros Hb. unfold truediv. destruct (Req_dec_T b 0); [contradiction | reflexivity].
Qed.

Lemma math_sqrt_ok (a : R) : 0 <= a -> math_sqrt a = Ok (sqrt a).
Proof.
  intros Ha. unfold math_sqrt. destruct (Rlt_dec a 0); [lra | reflexivity].
Qed.

Lemma sum_squares_nonneg (a b : R) : 0 <= a * a + b * b.
Proof. nra. Qed.


Lemma hypot_square (a b : R) : math_hypot a b * math_hypot a b = a * a + b * b.
Proof. unfold math_hypot. apply sqrt_sqrt, sum_squares_nonneg. Qed.

Lemma hypot_zero (a b : R) : math_hypot a b = 0 -> a = 0 /\ b = 0.
Proof.
  intros H. pose proof (hypot_square a b) as Hs. rewrite H in Hs.
  split; nra.
Qed.

Lemma hypot_origin : math_hypot 0 0 = 0.
Proof.
  unfold math_hypot. replace (0 * 0 + 0 * 0) with 0 by ring. apply sqrt_0.
Qed.

Lemma float_pow_positive (a b : R) : 0 < a -> float_pow a b = Rpower a b.
Proof.
  intros Ha. unfold float_pow. destruct (Rlt_dec 0 a); [reflexivity | contradiction].
Qed.

Lemma Rpower_positive (a b : R) : 0 < Rpower a b.
Proof. unfold Rpower. apply exp_pos. Qed.

Lemma max_lower_l (a b : R) : a <= max a b.
Proof. unfold max. destruct (Rlt_dec a b); lra. Qed.

Lemma max_lower_r (a b : R) : b <= max a b.
Proof. unfold max. destruct (Rlt_dec a b); lra. Qed.

Lemma max_upper (a b c : R) : a <= c -> b <= c -> max a b <= c.
Proof. unfold max. destruct (Rlt_dec a b); lra. Qed.

Lemma min_upper_l (a b : R) : min a b <= a.
Proof. unfold min. destruct (Rlt_dec b a); lra. Qed.

Lemma abs_nonneg (a : R) : 0 <= abs a.
Proof. apply Rabs_pos. Qed.

Lemma abs_abs (a : R) : abs (abs a) = abs a.
Proof. apply Rabs_Rabsolu. Qed.

Lemma abs_opp (a : R) : abs (- a) = abs a.
Proof. apply Rabs_Ropp. Qed.

Lemma abs_of_nonpos (a : R) : a <= 0 -> abs a = - a.
Proof.
  intros Ha. unfold abs. destruct (Req_dec_T a 0) as [->|Hn].
  - rewrite Rabs_R0. ring.
  - apply Rabs_left. lra.
Qed.

Lemma abs_of_nonneg (a : R) : 0 <= a -> abs a = a.
Proof. intros Ha. apply Rabs_right. lra. Qed.

End PyFacts.

(* ================================================================== *)
(** ** Commands and the generator *)

Section CmdFacts.

Context {A B : Type}.

Lemma cbind_ok (c : Cmd A) (k : A -> Cmd B) (g g' : Random.Rng) (b : B) :
  cbind c k g = Ok (b, g') ->
  exists a g1, c g = Ok (a, g1) /\ k a g1 = Ok (b, g').
Proof.
  unfold cbind. destruct (c g) as [[a g1]|e]; [|discriminate].
  intros H. now exists a, g1.
Qed.

Lemma lift_ok (r : result A) (g g' : Random.Rng) (a : A) :
  lift r g = Ok (a, g') -> r = Ok a /\ g' = g.
Proof.
  unfold lift. destruct r as [a0|e]; [|discriminate].
  intros H. injection H as -> ->. auto.
Qed.

Lemma cret_ok (a0 a : A) (g g' : Random.Rng) :
  cret a0 g = Ok (a, g') -> a = a0 /\ g' = g.
Proof. unfold cret. intros H. injection H as -> ->. auto. Qed.

Lemma draws_nothing_cret (a : A) : draws_nothing (cret a).
Proof. exists (Ok a). reflexivity. Qed.

Lemma draws_nothing_lift (r : result A) : draws_nothing (lift r).
Proof. exists r. reflexivity. Qed.

Lemma draws_nothing_cbind (c : Cmd A) (k : A -> Cmd B) :
  draws_nothing c -> (forall a, draws_nothing (k a)) ->
  draws_nothing (cbind c k).
Proof.
  intros [r Hr] Hk. destruct r as [a|e].
  - destruct (Hk a) as [rb Hrb]. exists rb. intros g.
    unfold cbind. rewrite Hr. simpl. apply Hrb.
  - exists (Raise e). intros g. unfold cbind. now rewrite Hr.
Qed.

End CmdFacts.

Section Ensures.

Context {A B : Type}.

Lemma ensures_cret (a : A) (Q : A -> Prop) : Q a -> ensures (cret a) Q.
Proof. intros HQ g a' g' H. apply cret_ok in H as [-> _]. exact HQ. Qed.

Lemma ensures_lift (r : result A) (Q : A -> Prop) :
  (forall a, r = Ok a -> Q a) -> ensures (lift r) Q.
Proof. intros HQ g a g' H. apply lift_ok in H as [-> _]. now apply HQ. Qed.

Lemma ensures_cbind (c : Cmd A) (k : A -> Cmd B) (P : A -> Prop)
    (Q : B -> Prop) :
  ensures c P -> (forall a, P a -> ensures (k a) Q) ->
  ensures (cbind c k) Q.
Proof.
  intros Hc Hk g b g' H. apply cbind_ok in H as (a & g1 & Ha & Hb).
  eapply Hk; [eapply Hc, Ha | exact Hb].
Qed.

(** When the first command only supplies a value. *)
Lemma ensures_then (c : Cmd A) (k : A -> Cmd B) (Q : B -> Prop) :
  (forall a, ensures (k a) Q) -> ensures (cbind c k) Q.
Proof.
  intros Hk. apply ensures_cbind with (P := fun _ => True).
  - intros g a g' _. exact I.
  - intros a _. apply Hk.
Qed.

End Ensures.

Section Returns.

Context {A B : Type}.

Lemma returns_cret (a : A) (Q : A -> Prop) : Q a -> returns (cret a) Q.
Proof. intros HQ g. now exists a, g. Qed.

Lemma returns_lift (r : result A) (a : A) (Q : A -> Prop) :
  r = Ok a -> Q a -> returns (lift r) Q.
Proof. intros -> HQ g. now exists a, g. Qed.

Lemma returns_draw (d : Random.Rng -> A * Random.Rng) :
  returns (draw d) (fun _ => True).
Proof.
  intros g. exists (fst (d g)), (snd (d g)). unfold draw.
  now destruct (d g).
Qed.

Lemma returns_cbind (c : Cmd A) (k : A -> Cmd B) (P : A -> Prop)
    (Q : B -> Prop) :
  returns c P -> (forall a, P a -> returns (k a) Q) ->
  returns (cbind c k) Q.
Proof.
  intros Hc Hk g. destruct (Hc g) as (a & g1 & Ha & HP).
  destruct (Hk a HP g1) as (b & g2 & Hb & HQ).
  exists b, g2. unfold cbind. rewrite Ha. now split.
Qed.

(** What returns, ensures. *)
Lemma returns_ensures (c : Cmd A) (Q : A -> Prop) :
  returns c Q -> ensures c Q.
Proof.
  intros Hc g a g' Hrun. destruct (Hc g) as (a0 & g0 & Ha0 & HQ).
  congruence.
Qed.

End Returns.

(* ================================================================== *)
(** ** The force model of [bh.py] *)

Module BHForce.
Import BH.

(** The squared distance to the centre plus the squared softening length
    is positive, so the denominator never vanishes. *)
Lemma softened_positive (dx dy : R) :
  0 < math_hypot dx dy * math_hypot dx dy + 6 * 6.
Proof. rewrite hypot_square. pose proof (sum_squares_nonneg dx dy). lra. Qed.

Lemma compute_acceleration_away (s : Sim) (px py : R) :
  let dx := px - width s / 2 in
  let dy := py - height s / 2 in
  math_hypot dx dy <> 0 ->
  compute_acceleration s px py =
    Ok (- G * M s * dx / Rpower (dx * dx + dy * dy + 6 * 6) (3 / 2),
        - G * M s * dy / Rpower (dx * dx + dy * dy + 6 * 6) (3 / 2)).
Proof.
  intros dx dy Hr. unfold compute_acceleration, center. fold dx dy.
  destruct (Req_dec_T (math_hypot dx dy) 0) as [H0|_]; [contradiction|].
  rewrite float_pow_positive by apply softened_positive.
  rewrite hypot_square.
  replace 1.5 with (3 / 2) by lra.
  assert (Hd : Rpower (dx * dx + dy * dy + 6 * 6) (3 / 2) <> 0).
  { pose proof (Rpower_positive (dx * dx + dy * dy + 6 * 6) (3 / 2)). lra. }
  rewrite !truediv_ok by exact Hd. reflexivity.
Qed.

Lemma compute_acceleration_centre (s : Sim) (px py : R) :
  math_hypot (px - width s / 2) (py - height s / 2) = 0 ->
  compute_acceleration s px py = Ok (0, 0).
Proof.
  intros Hr. unfold compute_acceleration, center.
  destruct (Req_dec_T _ 0) as [_|Hn]; [reflexivity | contradiction].
Qed.

(** Where every power is representable the force model returns the
    softened inverse-square value at every position. *)
Lemma compute_acceleration_value (s : Sim) (px py : R) :
  let dx := px - width s / 2 in
  let dy := py - height s / 2 in
  compute_acceleration s px py =
    Ok (- G * M s * dx / Rpower (dx * dx + dy * dy + 6 * 6) (3 / 2),
        - G * M s * dy / Rpower (dx * dx + dy * dy + 6 * 6) (3 / 2)).
Proof.
  intros dx dy.
  destruct (Req_dec_T (math_hypot dx dy) 0) as [H0|Hn].
  - rewrite compute_acceleration_centre by exact H0.
    destruct (hypot_zero _ _ H0) as [-> ->].
    unfold Rdiv. now rewrite !Rmult_0_r, !Rmult_0_l.
  - now apply compute_acceleration_away.
Qed.

(** So that model of it always returns. *)
Lemma compute_acceleration_total (s : Sim) (px py : R) :
  exists ax ay, compute_acceleration s px py = Ok (ax, ay).
Proof.
  destruct (Req_dec_T (math_hypot (px - width s / 2) (py - height s / 2)) 0)
    as [H0|Hn].
  - exists 0, 0. now apply compute_acceleration_centre.
  - eexists _, _. now apply compute_acceleration_away.
Qed.

End BHForce.

(* ================================================================== *)
(** ** One tick of [bh.py] *)

Module BHStep.
Import BH.

Lemma advance_moved (s : Sim) (p : Particle) :
  advance s p = Ok (moved s p, captured s (moved s p)).
Proof.
  unfold moved, advance.
  destruct (BHForce.compute_acceleration_total s (x p) (y p)) as (ax & ay & ->).
  reflexivity.
Qed.

Lemma moved_oid (s : Sim) (p : Particle) : oid (moved s p) = oid p.
Proof.
  unfold moved, advance.
  destruct (BHForce.compute_acceleration_total s (x p) (y p)) as (ax & ay & ->).
  reflexivity.
Qed.

Lemma moved_kick_drift (s : Sim) (p : Particle) (ax ay : R) :
  compute_acceleration s (x p) (y p) = Ok (ax, ay) ->
  vx (moved s p) = vx p + ax * dt s /\
  vy (moved s p) = vy p + ay * dt s /\
  x (moved s p) = x p + vx (moved s p) * dt s /\
  y (moved s p) = y p + vy (moved s p) * dt s.
Proof.
  intros Ha. unfold moved, advance. rewrite Ha. simpl. repeat split.
Qed.

(** The first loop visits the particles in order, once each. *)
Lemma pass_spec (s : Sim) (todo : list Particle) (acc : Pass) :
  pass s todo acc =
    Ok (mkPass (store acc ++ map (moved s) todo)
               (remove acc ++ filter (captured s) (map (moved s) todo))
               (evals acc ++ map pos todo)).
Proof.
  revert acc. induction todo as [|p todo IH]; intros acc.
  - simpl. rewrite !app_nil_r. now destruct acc.
  - simpl. rewrite advance_moved. simpl. rewrite IH. simpl.
    destruct (captured s (moved s p)); simpl;
      now rewrite <- !app_assoc.
Qed.

(** Removing an object that sits further down the list. *)
Lemma list_remove_skip (p q : Particle) (l : list Particle) :
  oid q <> oid p ->
  list_remove p (q :: l) = (r <- list_remove p l ;; Ok (q :: r)).
Proof.
  intros Hne. simpl. destruct (Nat.eqb_spec (oid q) (oid p)); [contradiction|].
  reflexivity.
Qed.

Lemma remove_all_skip (q : Particle) (rm l : list Particle) :
  ~ In (oid q) (map oid rm) ->
  remove_all rm (q :: l) = (r <- remove_all rm l ;; Ok (q :: r)).
Proof.
  revert l. induction rm as [|p rm IH]; intros l Hnin.
  - reflexivity.
  - simpl in Hnin.
    assert (Hne : oid q <> oid p) by (intros E; apply Hnin; left; congruence).
    assert (Hnin' : ~ In (oid q) (map oid rm)) by tauto.
    cbn [remove_all]. rewrite list_remove_skip by exact Hne.
    destruct (list_remove p l) as [l'|e]; simpl; [|reflexivity].
    apply IH, Hnin'.
Qed.

Lemma in_oid_filter (f : Particle -> bool) (n : nat) (l : list Particle) :
  In n (map oid (filter f l)) -> In n (map oid l).
Proof.
  rewrite !in_map_iff. intros (q & Hq & Hin).
  apply filter_In in Hin. exists q. tauto.
Qed.

(** The second loop: with distinct objects in the store, taking out the
    marked ones one by one leaves the unmarked ones, in order. *)
Lemma remove_all_filter (f : Particle -> bool) (l : list Particle) :
  NoDup (map oid l) ->
  remove_all (filter f l) l = Ok (filter (fun q => negb (f q)) l).
Proof.
  induction l as [|q l IH]; intros Hnd.
  - reflexivity.
  - simpl in Hnd. inversion Hnd as [|? ? Hnin Hnd']; subst.
    simpl. destruct (f q) eqn:Hf; simpl.
    + rewrite Nat.eqb_refl. simpl. apply IH, Hnd'.
    + rewrite remove_all_skip.
      * rewrite IH by exact Hnd'. reflexivity.
      * intros Hin. apply Hnin. eapply in_oid_filter, Hin.
Qed.

Lemma map_oid_moved (s : Sim) (l : list Particle) :
  map oid (map (moved s) l) = map oid l.
Proof.
  rewrite map_map. apply map_ext. intros p. apply moved_oid.
Qed.

Lemma step_traced_spec (s : Sim) :
  NoDup (map oid (particles s)) ->
  step_traced s =
    Ok (set_particles s
          (filter (fun q => negb (captured s q)) (map (moved s) (particles s))),
        map pos (particles s)).
Proof.
  intros Hnd. unfold step_traced. rewrite pass_spec. simpl.
  rewrite remove_all_filter by (now rewrite map_oid_moved).
  reflexivity.
Qed.

Lemma step_spec (s : Sim) :
  NoDup (map oid (particles s)) ->
  step s =
    Ok (set_particles s
          (filter (fun q => negb (captured s q)) (map (moved s) (particles s)))).
Proof.
  intros Hnd. unfold step. rewrite step_traced_spec by exact Hnd. reflexivity.
Qed.

Lemma Forall2_map_r {A B : Type} (P : A -> B -> Prop) (f : A -> B)
    (l : list A) :
  (forall a, P a (f a)) -> Forall2 P l (map f l).
Proof. intros H. induction l; simpl; constructor; auto. Qed.

Lemma fresh_ids_init : fresh_ids init.
Proof. split; simpl; [constructor | tauto]. Qed.

Lemma fresh_ids_add (s : Sim) (x0 y0 vx0 vy0 : R) :
  fresh_ids s -> fresh_ids (add_particle s x0 y0 vx0 vy0).
Proof.
  intros [Hnd Hlt]. split; simpl.
  - rewrite map_app. simpl.
    apply NoDup_app; [exact Hnd | repeat constructor; simpl; tauto |].
    intros n Hin [<-|[]]. apply in_map_iff in Hin as (p & Hp & Hin).
    apply Hlt in Hin. lia.
  - intros p Hin. apply in_app_iff in Hin as [Hin|[<-|[]]].
    + apply Hlt in Hin. lia.
    + simpl. lia.
Qed.

Lemma NoDup_oid_filter (f : Particle -> bool) (l : list Particle) :
  NoDup (map oid l) -> NoDup (map oid (filter f l)).
Proof.
  induction l as [|q l IH]; intros Hnd; simpl.
  - constructor.
  - simpl in Hnd. inversion Hnd as [|? ? Hnin Hnd']; subst.
    destruct (f q); simpl; [|now apply IH].
    constructor; [|now apply IH].
    intros Hin. apply Hnin. eapply in_oid_filter, Hin.
Qed.

(** A tick of a store of distinct objects returns, and the store it
    leaves holds distinct objects again. *)
Lemma step_keeps_fresh_ids (s : Sim) :
  fresh_ids s -> exists s', step s = Ok s' /\ fresh_ids s'.
Proof.
  intros [Hnd Hlt]. eexists. split; [now apply step_spec|].
  split; cbn [particles next_oid set_particles].
  - apply NoDup_oid_filter. now rewrite map_oid_moved.
  - intros q Hin. apply filter_In in Hin as [Hin _].
    apply in_map_iff in Hin as (p & <- & Hin).
    rewrite moved_oid. now apply Hlt.
Qed.

Lemma spawn_keeps_fresh_ids (n : nat) (rmin rmax : R) (s : Sim) :
  fresh_ids s -> ensures (spawn_random_cloud n rmin rmax s) fresh_ids.
Proof.
  revert s. induction n as [|n IH]; intros s Hs.
  - now apply ensures_cret.
  - cbn [spawn_random_cloud]. unfold center.
    do 8 (apply ensures_then; intros ?).
    apply IH. now apply fresh_ids_add.
Qed.

Lemma event_keeps_fresh_ids (ev : Event) (s : Sim) :
  fresh_ids s -> ensures (on_event ev s) fresh_ids.
Proof.
  intros Hs. destruct ev as [|key shift|mx my button|mx my|];
    cbn [on_event]; try (now apply ensures_cret).
  - destruct key; cbn [on_keydown]; try (now apply ensures_cret).
    + apply ensures_cret. split; simpl; [constructor | tauto].
    + now apply spawn_keeps_fresh_ids.
    + destruct shift; [|now apply ensures_cret].
      apply ensures_then. intros q. now apply ensures_cret.
    + apply ensures_then. intros q. now apply ensures_cret.
    + destruct (paused s); [|now apply ensures_cret].
      apply ensures_lift. intros s' Hstep.
      destruct (step_keeps_fresh_ids s Hs) as (s1 & Hs1 & Hfresh).
      congruence.
  - unfold on_mousebuttonup.
    destruct (dragging s); [|now apply ensures_cret].
    destruct (drag_start s) as [[sx sy]|]; [|now apply ensures_cret].
    apply ensures_cbind with (P := fresh_ids).
    + destruct (Rlt_dec 6 _);
        [apply ensures_cret; now apply fresh_ids_add|].
      destruct (drag_button s) as [[|[|[|[|k]]]]|];
        try (now apply ensures_cret).
      * unfold center. destruct (Rle_dec 5 _); [|now apply ensures_cret].
        do 6 (apply ensures_then; intros ?).
        apply ensures_cret. now apply fresh_ids_add.
      * do 2 (apply ensures_then; intros ?).
        apply ensures_cret. now apply fresh_ids_add.
    + intros s1 Hs1. now apply ensures_cret.
Qed.

(** Every frame of [run] keeps the objects of the store distinct. *)
Lemma frame_keeps_fresh_ids (evs : list Event) (s : Sim) :
  fresh_ids s -> ensures (frame evs s) fresh_ids.
Proof.
  intros Hs. unfold frame.
  apply ensures_cbind with (P := fresh_ids).
  - revert s Hs. induction evs as [|ev evs IH]; intros s Hs.
    + now apply ensures_cret.
    + cbn [on_events]. apply ensures_cbind with (P := fresh_ids).
      * now apply event_keeps_fresh_ids.
      * intros s' Hs'. now apply IH.
  - intros s1 Hs1. apply ensures_lift. intros s' Htick.
    unfold tick in Htick. cbn [paused set_dt] in Htick.
    destruct (paused s1).
    + injection Htick as <-. exact Hs1.
    + destruct (step_keeps_fresh_ids
                  (set_dt s1 (base_dt s1 * speed_mult s1)) Hs1)
        as (s2 & Hs2 & Hfresh).
      congruence.
Qed.

(** The circular speed [sqrt(G * M / max(r, 0.001))] is defined when the
    mass is positive. *)
Lemma circular_speed_returns (s : Sim) (r0 : R) (k : R -> Cmd Sim)
    (Q : Sim -> Prop) :
  0 < M s ->
  (forall v, returns (k v) Q) ->
  returns (q <~ lift (truediv (G * M s) (max r0 0.001)) ;;
           v_circ <~ lift (math_sqrt q) ;; k v_circ) Q.
Proof.
  intros HM Hk.
  assert (Hmax : 0 < max r0 0.001)
    by (pose proof (max_lower_r r0 0.001); lra).
  apply returns_cbind with (P := fun q => 0 <= q).
  - eapply returns_lift; [apply truediv_ok; lra|].
    apply Rlt_le, Rdiv_lt_0_compat; [|exact Hmax].
    unfold G. lra.
  - intros q Hq. apply returns_cbind with (P := fun _ => True).
    + eapply returns_lift; [now apply math_sqrt_ok | exact I].
    + intros v _. apply Hk.
Qed.

Lemma well_formed_add (s : Sim) (x0 y0 vx0 vy0 : R) :
  well_formed s -> well_formed (add_particle s x0 y0 vx0 vy0).
Proof. intros [Hf HM]. split; [now apply fresh_ids_add | exact HM]. Qed.

Lemma spawn_returns (n : nat) (rmin rmax : R) (s : Sim) :
  well_formed s -> returns (spawn_random_cloud n rmin rmax s) well_formed.
Proof.
  revert s. induction n as [|n IH]; intros s Hs.
  - now apply returns_cret.
  - cbn [spawn_random_cloud]. unfold center.
    do 2 (eapply returns_cbind; [apply returns_draw|]; intros ? _).
    apply circular_speed_returns; [apply Hs|]. intros v.
    do 4 (eapply returns_cbind; [apply returns_draw|]; intros ? _).
    apply IH. now apply well_formed_add.
Qed.

Lemma keydown_returns (key : Key) (shift : bool) (s : Sim) :
  well_formed s -> returns (on_keydown key shift s) well_formed.
Proof.
  intros Hs. pose proof Hs as [Hf HM].
  destruct key; cbn [on_keydown]; try (now apply returns_cret).
  - apply returns_cret. split; [|exact HM].
    split; simpl; [constructor | tauto].
  - now apply spawn_returns.
  - apply returns_cret. split; [exact Hf|]. cbn [M set_M].
    destruct shift; nra.
  - destruct shift.
    + eapply returns_cbind.
      * eapply returns_lift with (Q := fun _ => True);
          [apply truediv_ok; lra | exact I].
      * intros q _. apply returns_cret. split; [exact Hf|]. cbn [M set_M].
        pose proof (max_lower_l 1 q). lra.
    + apply returns_cret. split; [exact Hf|]. cbn [M set_M].
      pose proof (max_lower_l 1 (M s * 0.9)). lra.
  - eapply returns_cbind.
    + eapply returns_lift with (Q := fun _ => True);
        [apply truediv_ok; lra | exact I].
    + intros q _. now apply returns_cret.
  - destruct (paused s); [|now apply returns_cret].
    destruct (step_keeps_fresh_ids s Hf) as (s' & Hstep & Hf').
    eapply returns_lift; [exact Hstep|].
    split; [exact Hf'|].
    rewrite step_spec in Hstep by apply Hf. injection Hstep as <-. exact HM.
Qed.

Lemma mousebuttonup_returns (mx my : R) (s : Sim) :
  well_formed s -> returns (on_mousebuttonup mx my s) well_formed.
Proof.
  intros Hs. unfold on_mousebuttonup.
  destruct (dragging s); [|now apply returns_cret].
  destruct (drag_start s) as [[sx sy]|]; [|now apply returns_cret].
  apply returns_cbind with (P := well_formed).
  - destruct (Rlt_dec 6 _);
      [apply returns_cret; now apply well_formed_add|].
    destruct (drag_button s) as [[|[|[|[|k]]]]|];
      try (now apply returns_cret).
    + unfold center. destruct (Rle_dec 5 _) as [Hr|];
        [|now apply returns_cret].
      apply circular_speed_returns; [apply Hs|]. intros v.
      do 2 (eapply returns_cbind;
            [eapply returns_lift with (Q := fun _ => True);
             [apply truediv_ok; lra | exact I]|]; intros ? _).
      do 2 (eapply returns_cbind; [apply returns_draw|]; intros ? _).
      apply returns_cret. now apply well_formed_add.
    + do 2 (eapply returns_cbind; [apply returns_draw|]; intros ? _).
      apply returns_cret. now apply well_formed_add.
  - intros s1 Hs1. now apply returns_cret.
Qed.

Lemma event_returns (ev : Event) (s : Sim) :
  well_formed s -> returns (on_event ev s) well_formed.
Proof.
  intros Hs. destruct ev; cbn [on_event]; try (now apply returns_cret).
  - now apply keydown_returns.
  - now apply mousebuttonup_returns.
Qed.

(** With every power representable, a frame of [run] from a well-formed
    state returns, whatever the events and the random draws, and the state
    it leaves is well-formed. *)
Lemma frame_returns (evs : list Event) (s : Sim) :
  well_formed s -> returns (frame evs s) well_formed.
Proof.
  intros Hs. unfold frame.
  apply returns_cbind with (P := well_formed).
  - revert s Hs. induction evs as [|ev evs IH]; intros s Hs.
    + now apply returns_cret.
    + cbn [on_events]. apply returns_cbind with (P := well_formed).
      * now apply event_returns.
      * intros s' Hs'. now apply IH.
  - intros s1 [Hf HM]. unfold tick. cbn [paused set_dt].
    destruct (paused s1).
    + apply returns_lift with (a := set_dt s1 (base_dt s1 * speed_mult s1));
        [reflexivity | now split].
    + destruct (step_keeps_fresh_ids
                  (set_dt s1 (base_dt s1 * speed_mult s1)) Hf)
        as (s2 & Hstep & Hf2).
      eapply returns_lift; [exact Hstep|].
      split; [exact Hf2|].
      rewrite step_spec in Hstep by apply Hf. injection Hstep as <-.
      exact HM.
Qed.

Lemma well_formed_init : well_formed init.
Proof. split; [apply fresh_ids_init | simpl; lra]. Qed.

End BHStep.



(* ================================================================== *)
(** ** The walls of [e.py] *)

Module EWall.
Import E.

(** The handler never touches radius, mass or colour. *)
Lemma wall_keeps_body (p : Particle) :
  r (_handle_wall_collision p) = r p /\
  m (_handle_wall_collision p) = m p /\
  color (_handle_wall_collision p) = color p.
Proof.
  unfold _handle_wall_collision.
  repeat (destruct (Rlt_dec _ _); simpl); auto.
Qed.

(** The horizontal outcome depends on the two horizontal tests only. *)
Lemma wall_x_cases (p : Particle) :
  2 * r p <= WIDTH ->
  let q := _handle_wall_collision p in
  (x p - r p < 0 /\ x q = r p /\ vx q = abs (vx p)) \/
  (0 <= x p - r p /\ WIDTH < x p + r p /\
   x q = WIDTH - r p /\ vx q = - abs (vx p)) \/
  (0 <= x p - r p /\ x p + r p <= WIDTH /\ x q = x p /\ vx q = vx p).
Proof.
  intros Hfit. unfold _handle_wall_collision.
  destruct (Rlt_dec (x p - r p) 0) as [Hl|Hl]; cbn [x r vx].
  - left. destruct (Rlt_dec WIDTH (r p + r p)) as [Hr|Hr]; [lra|].
    repeat (destruct (Rlt_dec _ _); cbn [x y r vx vy]); auto.
  - right. destruct (Rlt_dec WIDTH (x p + r p)) as [Hr|Hr].
    + left. repeat (destruct (Rlt_dec _ _); cbn [x y r vx vy]);
        repeat split; auto; lra.
    + right. repeat (destruct (Rlt_dec _ _); cbn [x y r vx vy]);
        repeat split; auto; lra.
Qed.

Lemma wall_y_cases (p : Particle) :
  2 * r p <= HEIGHT ->
  let q := _handle_wall_collision p in
  (y p - r p < 0 /\ y q = r p /\ vy q = abs (vy p)) \/
  (0 <= y p - r p /\ HEIGHT < y p + r p /\
   y q = HEIGHT - r p /\ vy q = - abs (vy p)) \/
  (0 <= y p - r p /\ y p + r p <= HEIGHT /\ y q = y p /\ vy q = vy p).
Proof.
  intros Hfit. unfold _handle_wall_collision.
  destruct (Rlt_dec (x p - r p) 0) as [Hl|Hl]; cbn [x y r vx vy];
    destruct (Rlt_dec WIDTH _) as [Hr|Hr]; cbn [x y r vx vy];
    (destruct (Rlt_dec (y p - r p) 0) as [Ht|Ht]; cbn [x y r vx vy];
     [ left; destruct (Rlt_dec HEIGHT (r p + r p)); [lra | auto]
     | right; destruct (Rlt_dec HEIGHT (y p + r p));
       [left | right]; repeat split; auto; lra ]).
Qed.

(** The handler leaves a disc inside the domain as it is. *)
Lemma wall_inside (q : Particle) :
  EPhysics.inside q -> _handle_wall_collision q = q.
Proof.
  intros [[Hx1 Hx2] [Hy1 Hy2]]. unfold _handle_wall_collision.
  destruct (Rlt_dec (x q - r q) 0); [lra|].
  destruct (Rlt_dec WIDTH (x q + r q)); [lra|].
  destruct (Rlt_dec (y q - r q) 0); [lra|].
  destruct (Rlt_dec HEIGHT (y q + r q)); [lra|]. reflexivity.
Qed.

(** The sweep has nothing to do on a store of one disc, so a step of such
    a store is the integration followed by the wall handler. *)
Lemma step_single (dt0 : R) (s : Sim) (p0 : Particle) :
  particles s = [p0] ->
  _step dt0 s =
    Ok (mkSim [_handle_wall_collision (integrate dt0 p0)]
              (running s) (speed s) (dt s)).
Proof. intros Hs. unfold _step. rewrite Hs. reflexivity. Qed.

End EWall.

(** C4, as stated, fails: a disc whose extent crosses the left edge does
    not always leave the handler with its horizontal velocity inverted.
    The disc [inbound_at_left_wall] crosses the edge and keeps [vx = 50]. *)
Lemma wall_flip_counterexample :
  ~ (forall p : E.Particle,
       E.x p - E.r p < 0 ->
       E.vx (E._handle_wall_collision p) = - E.vx p).
Proof.
  intros H. specialize (H inbound_at_left_wall).
  unfold E._handle_wall_collision, inbound_at_left_wall in H.
  cbn [E.x E.y E.r E.vx E.vy] in H.
  destruct (Rlt_dec (5 - 18) 0) as [_|Hn]; [|lra].
  cbn [E.x E.y E.r E.vx E.vy] in H.
  destruct (Rlt_dec E.WIDTH (18 + 18)) as [Hw|_];
    [unfold E.WIDTH in Hw; lra|].
  cbn [E.x E.y E.r E.vx E.vy] in H.
  destruct (Rlt_dec (300 - 18) 0) as [Ht|_]; [lra|].
  cbn [E.x E.y E.r E.vx E.vy] in H.
  destruct (Rlt_dec E.HEIGHT (300 + 18)) as [Hb|_];
    [unfold E.HEIGHT in Hb; lra|].
  cbn [E.x E.y E.r E.vx E.vy] in H.
  specialize (H ltac:(lra)).
  unfold abs in H. rewrite Rabs_right in H by lra. lra.
Qed.

(** C4, amended.  For a disc that fits in the domain, at each of the four
    edges its extent crosses the handler puts the centre back at the
    distance [r] from that edge and makes the velocity component normal to
    the edge point into the domain with its magnitude unchanged ([abs] at
    the left and top edges, [- abs] at the right and bottom ones): the
    component is sign-flipped when it pointed out of the domain and kept
    when it already pointed inwards.  The centre ends inside the domain.
    A disc alone in the store that reaches the left wall after the
    integration of one step with [vx = -50] ends the step with [x = r] and
    [vx = 50]. *)
Theorem wall_reflection (p : E.Particle) :
  2 * E.r p <= E.WIDTH ->
  2 * E.r p <= E.HEIGHT ->
  let q := E._handle_wall_collision p in
  (E.r p <= E.x q <= E.WIDTH - E.r p /\
   E.r p <= E.y q <= E.HEIGHT - E.r p) /\
  (abs (E.vx q) = abs (E.vx p) /\ abs (E.vy q) = abs (E.vy p)) /\
  (E.x p - E.r p < 0 -> E.x q = E.r p /\ E.vx q = abs (E.vx p)) /\
  (E.WIDTH < E.x p + E.r p ->
   E.x q = E.WIDTH - E.r p /\ E.vx q = - abs (E.vx p)) /\
  (E.y p - E.r p < 0 -> E.y q = E.r p /\ E.vy q = abs (E.vy p)) /\
  (E.HEIGHT < E.y p + E.r p ->
   E.y q = E.HEIGHT - E.r p /\ E.vy q = - abs (E.vy p)) /\
  (E.x p - E.r p < 0 -> E.vx p <= 0 -> E.vx q = - E.vx p) /\
  (E.WIDTH < E.x p + E.r p -> 0 <= E.vx p -> E.vx q = - E.vx p) /\
  (E.y p - E.r p < 0 -> E.vy p <= 0 -> E.vy q = - E.vy p) /\
  (E.HEIGHT < E.y p + E.r p -> 0 <= E.vy p -> E.vy q = - E.vy p) /\
  (forall (dt0 : R) (p0 : E.Particle) (s : E.Sim),
     E.particles s = [p0] ->
     p = E.integrate dt0 p0 -> E.vx p0 = -50 -> E.x p - E.r p < 0 ->
     E._step dt0 s = Ok (E.mkSim [q] (E.running s) (E.speed s) (E.dt s)) /\
     E.x q = E.r p0 /\ E.vx q = 50).
Proof.
  intros Hw Hh q.
  pose proof (EWall.wall_x_cases p Hw) as Hx.
  pose proof (EWall.wall_y_cases p Hh) as Hy.
  cbv zeta in Hx, Hy. fold q in Hx, Hy.
  assert (Hleft : E.x p - E.r p < 0 ->
                  E.x q = E.r p /\ E.vx q = abs (E.vx p))
    by (intros; destruct Hx as [(_ & ? & ?)|[(? & _)|(? & _)]];
        [auto | lra | lra]).
  assert (Hright : E.WIDTH < E.x p + E.r p ->
                   E.x q = E.WIDTH - E.r p /\ E.vx q = - abs (E.vx p))
    by (intros; destruct Hx as [(? & _)|[(_ & _ & ? & ?)|(_ & ? & _)]];
        [lra | auto | lra]).
  assert (Htop : E.y p - E.r p < 0 ->
                 E.y q = E.r p /\ E.vy q = abs (E.vy p))
    by (intros; destruct Hy as [(_ & ? & ?)|[(? & _)|(? & _)]];
        [auto | lra | lra]).
  assert (Hbottom : E.HEIGHT < E.y p + E.r p ->
                    E.y q = E.HEIGHT - E.r p /\ E.vy q = - abs (E.vy p))
    by (intros; destruct Hy as [(? & _)|[(_ & _ & ? & ?)|(_ & ? & _)]];
        [lra | auto | lra]).
  repeat match goal with |- _ /\ _ => split end;
    try assumption.
  - destruct Hx as [(_ & -> & _)|[(_ & _ & -> & _)|(? & ? & -> & _)]]; lra.
  - destruct Hx as [(_ & -> & _)|[(_ & _ & -> & _)|(? & ? & -> & _)]]; lra.
  - destruct Hy as [(_ & -> & _)|[(_ & _ & -> & _)|(? & ? & -> & _)]]; lra.
  - destruct Hy as [(_ & -> & _)|[(_ & _ & -> & _)|(? & ? & -> & _)]]; lra.
  - destruct Hx as [(_ & _ & ->)|[(_ & _ & _ & ->)|(_ & _ & _ & ->)]];
      rewrite ?abs_opp, ?abs_abs; reflexivity.
  - destruct Hy as [(_ & _ & ->)|[(_ & _ & _ & ->)|(_ & _ & _ & ->)]];
      rewrite ?abs_opp, ?abs_abs; reflexivity.
  - intros Hc Hv. destruct (Hleft Hc) as [_ ->]. now apply abs_of_nonpos.
  - intros Hc Hv. destruct (Hright Hc) as [_ ->].
    now rewrite abs_of_nonneg.
  - intros Hc Hv. destruct (Htop Hc) as [_ ->]. now apply abs_of_nonpos.
  - intros Hc Hv. destruct (Hbottom Hc) as [_ ->].
    now rewrite abs_of_nonneg.
  - intros dt0 p0 s Hs Hp Hv Hc. split.
    + rewrite (EWall.step_single dt0 s p0 Hs). unfold q. now rewrite Hp.
    + destruct (Hleft Hc) as [-> ->].
      subst p. unfold E.integrate, E.FRICTION. cbn [E.r E.vx].
      rewrite Hv. split; [reflexivity|].
      rewrite abs_of_nonpos by lra. lra.
Qed.

Lemma wall_reflection_witness :
  let p := E.integrate 0.016 near_left_wall in
  let q := E._handle_wall_collision p in
  E.x p - E.r p < 0 /\
  E._step 0.016 (E.mkSim [near_left_wall] true 1 0.016)
    = Ok (E.mkSim [q] true 1 0.016) /\
  E.x q = 18 /\ E.vx q = 50.
Proof.
  assert (Hc : E.x (E.integrate 0.016 near_left_wall)
               - E.r (E.integrate 0.016 near_left_wall) < 0)
    by (unfold E.integrate, near_left_wall, E.FRICTION; simpl; lra).
  split; [exact Hc|].
  assert (Hw : 2 * E.r (E.integrate 0.016 near_left_wall) <= E.WIDTH)
    by (unfold E.WIDTH; simpl; lra).
  assert (Hh : 2 * E.r (E.integrate 0.016 near_left_wall) <= E.HEIGHT)
    by (unfold E.HEIGHT; simpl; lra).
  pose proof (wall_reflection (E.integrate 0.016 near_left_wall) Hw Hh) as H.
  cbv zeta in H.
  destruct H as (_ & _ & _ & _ & _ & _ & _ & _ & _ & _ & H).
  exact (H 0.016 near_left_wall (E.mkSim [near_left_wall] true 1 0.016)
           eq_refl eq_refl eq_refl Hc).
Defined.

(* ================================================================== *)
(** ** The collision resolver of [e.py] *)

Module ECollide.
Import E.

Lemma inverse_mass_sum_nonzero (ma mb : R) :
  0 < ma -> 0 < mb -> 1 / ma + 1 / mb <> 0.
Proof.
  intros Ha Hb.
  assert (0 < 1 / ma) by (apply Rdiv_lt_0_compat; lra).
  assert (0 < 1 / mb) by (apply Rdiv_lt_0_compat; lra).
  lra.
Qed.

(** With positive masses and distinct centres nothing in [collide]
    raises, and its result is the following. *)
Lemma collide_ok (e : R) (a b : Particle) (dx dy dist2 radii : R) :
  0 < m a -> 0 < m b -> 0 < dist2 ->
  let d := sqrt dist2 in
  let nx := dx / d in
  let ny := dy / d in
  let overlap := radii - d in
  let vn := (vx b - vx a) * nx + (vy b - vy a) * ny in
  let j := - (1 + e) * vn / (1 / m a + 1 / m b) in
  collide e a b dx dy dist2 radii =
    Ok (mkParticle (x a - nx * (overlap * (m b / (m a + m b))))
                   (y a - ny * (overlap * (m b / (m a + m b))))
                   (if Rlt_dec 0 vn then vx a else vx a - j * nx / m a)
                   (if Rlt_dec 0 vn then vy a else vy a - j * ny / m a)
                   (r a) (m a) (color a),
        mkParticle (x b + nx * (overlap * (m a / (m a + m b))))
                   (y b + ny * (overlap * (m a / (m a + m b))))
                   (if Rlt_dec 0 vn then vx b else vx b + j * nx / m b)
                   (if Rlt_dec 0 vn then vy b else vy b + j * ny / m b)
                   (r b) (m b) (color b)).
Proof.
  intros Ha Hb Hd d nx ny overlap vn j.
  assert (Hdpos : 0 < d) by (apply sqrt_lt_R0; exact Hd).
  unfold collide.
  rewrite math_sqrt_ok by lra. cbn [bind]. fold d.
  rewrite !(truediv_ok _ d) by lra. cbn [bind]. fold nx ny.
  rewrite !(truediv_ok _ (m a + m b)) by lra. cbn [bind].
  fold overlap vn.
  destruct (Rlt_dec 0 vn) as [Hsep|Happ]; [reflexivity|].
  rewrite (truediv_ok 1 (m a)), (truediv_ok 1 (m b)) by lra. cbn [bind].
  rewrite truediv_ok by (apply inverse_mass_sum_nonzero; assumption).
  cbn [bind]. fold j.
  rewrite !(truediv_ok _ (m a)), !(truediv_ok _ (m b)) by lra.
  reflexivity.
Qed.

(** The unit normal is a unit vector. *)
Lemma normal_unit (dx dy : R) :
  0 < dx * dx + dy * dy ->
  let d := sqrt (dx * dx + dy * dy) in
  (dx / d) * (dx / d) + (dy / d) * (dy / d) = 1.
Proof.
  intros Hpos d.
  assert (Hd : 0 < d) by (apply sqrt_lt_R0; exact Hpos).
  assert (Hdd : d * d = dx * dx + dy * dy) by (apply sqrt_sqrt; lra).
  replace (dx / d * (dx / d) + dy / d * (dy / d))
    with ((dx * dx + dy * dy) / (d * d)) by (field; lra).
  rewrite Hdd. field. lra.
Qed.

Lemma normal_times_distance (dx dy : R) :
  0 < dx * dx + dy * dy ->
  let d := sqrt (dx * dx + dy * dy) in
  dx / d * d = dx /\ dy / d * d = dy.
Proof.
  intros Hpos d.
  assert (Hd : 0 < d) by (apply sqrt_lt_R0; exact Hpos).
  split; field; lra.
Qed.

(** For a pair in contact, [resolve_pair] is [collide 0.95]. *)
Lemma resolve_pair_contact (a b : Particle) :
  let dx := x b - x a in
  let dy := y b - y a in
  0 < dx * dx + dy * dy ->
  dx * dx + dy * dy <= (r a + r b) * (r a + r b) ->
  resolve_pair a b =
    collide 0.95 a b dx dy (dx * dx + dy * dy) (r a + r b).
Proof.
  intros dx dy Hpos Hle. unfold resolve_pair. fold dx dy.
  destruct (Rle_dec _ _) as [_|Hn]; [|contradiction].
  destruct (Rlt_dec 0 _) as [_|Hn]; [reflexivity | contradiction].
Qed.


End ECollide.

Module EHeadOn.
Import E.

(** Two discs of equal mass on a horizontal line, [a] on the left, in
    contact, with velocities [(v, 0)] and [(-v, 0)], [v >= 0]: under
    restitution [e] they leave [collide] with [(- e * v, 0)] and
    [(e * v, 0)]. *)
Lemma collide_head_on (e : R) (a b : Particle) (v : R) :
  0 < m a -> m b = m a ->
  y b = y a -> x a < x b ->
  0 <= v -> vx a = v -> vy a = 0 -> vx b = - v -> vy b = 0 ->
  let dx := x b - x a in
  let dy := y b - y a in
  exists a' b',
    collide e a b dx dy (dx * dx + dy * dy) (r a + r b) = Ok (a', b') /\
    vx a' = - e * v /\ vy a' = 0 /\ vx b' = e * v /\ vy b' = 0.
Proof.
  intros Hm Hmb Hy Hx Hv Hvxa Hvya Hvxb Hvyb dx dy.
  assert (Hdy : dy = 0) by (unfold dy; lra).
  assert (Hdx : 0 < dx) by (unfold dx; lra).
  assert (Hd : sqrt (dx * dx + dy * dy) = dx).
  { rewrite Hdy. replace (dx * dx + 0 * 0) with (dx * dx) by ring.
    apply sqrt_square. lra. }
  rewrite ECollide.collide_ok; try lra; try nra.
  - eexists. eexists. split; [reflexivity|]. cbn [vx vy].
    rewrite Hd, Hdy, Hvxa, Hvya, Hvxb, Hvyb, Hmb.
    replace (dx / dx) with 1 by (field; lra).
    replace (0 / dx) with 0 by (field; lra).
    destruct (Rlt_dec 0 _) as [Hsep|_]; [lra|].
    repeat split; field; lra.
Qed.

End EHeadOn.

Module ESweep.
Import E.


Lemma getitem_some (l : list Particle) (i : nat) (p : Particle) :
  nth_error l i = Some p -> getitem l i = Ok p.
Proof. intros H. unfold getitem. now rewrite H. Qed.

Lemma getitem_in_range (l : list Particle) (i : nat) :
  (i < List.length l)%nat -> exists p, nth_error l i = Some p.
Proof.
  intros H. destruct (nth_error l i) as [p|] eqn:E.
  - now exists p.
  - apply nth_error_None in E. lia.
Qed.





(** A pair that exactly touches ([d = R]) is not skipped: it goes through
    [collide], which leaves the positions where they are. *)
Lemma resolve_pair_touching (a b : Particle) :
  0 < m a -> 0 < m b ->
  let dx := x b - x a in
  let dy := y b - y a in
  0 < dx * dx + dy * dy ->
  dx * dx + dy * dy = (r a + r b) * (r a + r b) ->
  0 <= r a + r b ->
  exists a' b',
    resolve_pair a b = Ok (a', b') /\
    x a' = x a /\ y a' = y a /\ x b' = x b /\ y b' = y b.
Proof.
  intros Hma Hmb dx dy Hpos Heq Hr.
  rewrite ECollide.resolve_pair_contact by (fold dx dy; lra).
  fold dx dy. rewrite ECollide.collide_ok by assumption.
  eexists. eexists. split; [reflexivity|]. cbn [x y].
  assert (Hd : sqrt (dx * dx + dy * dy) = r a + r b)
    by (rewrite Heq; now apply sqrt_square).
  rewrite Hd. repeat split; ring.
Qed.

Lemma setitem_length (l : list Particle) (i : nat) (p : Particle) :
  List.length (setitem l i p) = List.length l.
Proof.
  revert i. induction l as [|q l IH]; intros [|i]; simpl; auto.
Qed.

Lemma setitem_Forall (P : Particle -> Prop) (l : list Particle) (i : nat)
    (p : Particle) :
  Forall P l -> P p -> Forall P (setitem l i p).
Proof.
  intros Hl Hp. revert i. induction Hl as [|q l Hq Hl IH]; intros [|i];
    simpl; auto.
Qed.

(** With positive masses [resolve_pair] returns, and the masses are what
    they were. *)
Lemma resolve_pair_total (a b : Particle) :
  0 < m a -> 0 < m b ->
  exists a' b', resolve_pair a b = Ok (a', b') /\ m a' = m a /\ m b' = m b.
Proof.
  intros Ha Hb. unfold resolve_pair.
  destruct (Rle_dec _ _); [|now exists a, b].
  destruct (Rlt_dec 0 _) as [Hpos|]; [|now exists a, b].
  rewrite ECollide.collide_ok by assumption.
  eexists. eexists. split; [reflexivity|]. split; reflexivity.
Qed.

Lemma resolve_row_total (i : nat) (js : list nat) (ps : list Particle) :
  Forall (fun p => 0 < m p) ps ->
  (i < List.length ps)%nat ->
  (forall j, In j js -> (j < List.length ps)%nat) ->
  exists ps',
    resolve_row i js ps = Ok ps' /\
    Forall (fun p => 0 < m p) ps' /\
    List.length ps' = List.length ps.
Proof.
  revert ps. induction js as [|j js IH]; intros ps Hm Hi Hjs.
  - now exists ps.
  - destruct (getitem_in_range ps i Hi) as (a & Ha).
    destruct (getitem_in_range ps j (Hjs j (or_introl eq_refl)))
      as (b & Hb).
    rewrite Forall_forall in Hm.
    destruct (resolve_pair_total a b) as (a' & b' & Hres & Hma & Hmb).
    { apply Hm. eapply nth_error_In, Ha. }
    { apply Hm. eapply nth_error_In, Hb. }
    cbn [resolve_row].
    rewrite (getitem_some _ _ _ Ha), (getitem_some _ _ _ Hb). cbn [bind].
    rewrite Hres. cbn [bind].
    destruct (IH (setitem (setitem ps i a') j b')) as (ps' & Hrow & Hm' & Hlen).
    + apply setitem_Forall; [apply setitem_Forall|].
      * now apply Forall_forall.
      * rewrite Hma. apply Hm. eapply nth_error_In, Ha.
      * rewrite Hmb. apply Hm. eapply nth_error_In, Hb.
    + now rewrite !setitem_length.
    + intros j' Hin. rewrite !setitem_length. apply Hjs. now right.
    + exists ps'. split; [exact Hrow|]. split; [exact Hm'|].
      now rewrite Hlen, !setitem_length.
Qed.

Lemma resolve_rows_total (n : nat) (rows : list nat) (ps : list Particle) :
  Forall (fun p => 0 < m p) ps ->
  n = List.length ps ->
  (forall i, In i rows -> (i < n)%nat) ->
  exists ps',
    resolve_rows n rows ps = Ok ps' /\
    Forall (fun p => 0 < m p) ps' /\
    List.length ps' = List.length ps.
Proof.
  revert ps. induction rows as [|i rows IH]; intros ps Hm Hn Hrows.
  - now exists ps.
  - cbn [resolve_rows].
    destruct (resolve_row_total i (seq (i + 1) (n - (i + 1))) ps)
      as (ps1 & Hrow & Hm1 & Hlen1).
    + exact Hm.
    + rewrite <- Hn. apply Hrows. now left.
    + intros j Hj. apply in_seq in Hj. lia.
    + rewrite Hrow. cbn [bind].
      destruct (IH ps1) as (ps' & Hrest & Hm' & Hlen'); try assumption.
      * congruence.
      * intros i' Hin. apply Hrows. now right.
      * exists ps'. split; [exact Hrest|]. split; [exact Hm'|]. congruence.
Qed.

(** The sweep over a store of positive masses never raises. *)
Lemma resolve_collisions_total (ps : list Particle) :
  Forall (fun p => 0 < m p) ps ->
  exists ps',
    _resolve_collisions ps = Ok ps' /\
    Forall (fun p => 0 < m p) ps' /\
    List.length ps' = List.length ps.
Proof.
  intros Hm. unfold _resolve_collisions.
  apply resolve_rows_total; [exact Hm | reflexivity |].
  intros i Hi. apply in_seq in Hi. lia.
Qed.

(** So does [_step]. *)
Lemma step_total (dt0 : R) (s : Sim) :
  Forall (fun p => 0 < m p) (particles s) ->
  exists s',
    _step dt0 s = Ok s' /\
    Forall (fun p => 0 < m p) (particles s') /\
    List.length (particles s') = List.length (particles s).
Proof.
  intros Hm. unfold _step.
  destruct (resolve_collisions_total
              (map (fun p => _handle_wall_collision (integrate dt0 p))
                   (particles s)))
    as (ps' & Hres & Hm' & Hlen).
  - apply Forall_map. eapply Forall_impl; [|exact Hm].
    intros p Hp. cbn beta.
    destruct (EWall.wall_keeps_body (integrate dt0 p)) as (_ & -> & _).
    exact Hp.
  - rewrite Hres. cbn [bind]. eexists. split; [reflexivity|].
    cbn [particles]. split; [exact Hm'|].
    now rewrite Hlen, length_map.
Qed.

(** The radius drawn for a new disc is [18], whatever the draw. *)
Lemma radius_draw (g : Random.Rng) :
  fst (Random.uniform MIN_RADIUS MAX_RADIUS g) = 18.
Proof.
  unfold Random.uniform, Random.random, MIN_RADIUS, MAX_RADIUS. simpl. ring.
Qed.

Lemma random_digits_returns (k : nat) :
  returns (random_digits k) (fun _ => True).
Proof.
  induction k as [|k IH]; cbn [random_digits].
  - now apply returns_cret.
  - eapply returns_cbind; [apply returns_draw|]. intros i _.
    eapply returns_cbind; [exact IH|]. intros rest _.
    now apply returns_cret.
Qed.

Lemma random_color_returns : returns random_color (fun _ => True).
Proof.
  unfold random_color.
  eapply returns_cbind; [apply random_digits_returns|]. intros ds _.
  now apply returns_cret.
Qed.

Lemma init_loop_returns (n budget : nat) (ps : list Particle) :
  Forall (fun p => 0 < m p) ps ->
  returns (init_loop n budget ps) (Forall (fun p => 0 < m p)).
Proof.
  revert ps. induction budget as [|budget IH]; intros ps Hps.
  - now apply returns_cret.
  - cbn [init_loop]. destruct (Nat.ltb _ _); [|now apply returns_cret].
    apply returns_cbind with (P := fun r0 => r0 = 18).
    { intros g. eexists. eexists.
      split; [unfold draw; apply f_equal, surjective_pairing|].
      apply radius_draw. }
    intros r0 ->.
    do 4 (eapply returns_cbind; [apply returns_draw|]; intros ? _).
    eapply returns_cbind; [apply random_color_returns|]. intros c _.
    cbv zeta. destruct (existsb _ ps); apply IH; [exact Hps|].
    apply Forall_app. split; [exact Hps|].
    repeat constructor. simpl. lra.
Qed.

(** From a store of positive masses every callback of the main loop
    returns, and leaves a store of positive masses. *)
Lemma mainloop_returns (cbs : list Callback) (s : Sim) :
  massive s -> returns (mainloop cbs s) massive.
Proof.
  revert s. induction cbs as [|cb cbs IH]; intros s Hs.
  - now apply returns_cret.
  - cbn [mainloop]. apply returns_cbind with (P := massive); [|exact IH].
    destruct cb as [|[| |factor|x0 y0 vx0 vy0]];
      cbn [on_callback on_command].
    + unfold _loop. destruct (running s).
      * destruct (step_total (dt s * speed s) s Hs) as (s' & Hstep & Hm & _).
        eapply returns_lift; [exact Hstep | exact Hm].
      * eapply returns_lift; [reflexivity | exact Hs].
    + now apply returns_cret.
    + unfold _reset, _init_particles.
      eapply returns_cbind; [apply init_loop_returns; constructor|].
      intros ps Hps. now apply returns_cret.
    + now apply returns_cret.
    + unfold spawn_particle.
      apply returns_cbind with (P := fun r0 => r0 = 18).
      { intros g. eexists. eexists.
        split; [unfold draw; apply f_equal, surjective_pairing|].
        apply radius_draw. }
      intros r0 ->.
      eapply returns_cbind; [apply random_color_returns|]. intros c _.
      apply returns_cret. unfold massive. cbn [particles].
      apply Forall_app. split; [exact Hs|].
      repeat constructor. simpl. lra.
Qed.

(** The sweep as a sequence of turns of its inner loop. *)
Lemma resolve_each_app (l1 l2 : list (nat * nat)) (ps : list Particle) :
  resolve_each (l1 ++ l2) ps =
    (ps' <- resolve_each l1 ps ;; resolve_each l2 ps').
Proof.
  revert ps. induction l1 as [|[i j] l1 IH]; intros ps; simpl; [reflexivity|].
  destruct (resolve_at i j ps) as [ps1|e]; simpl; [apply IH | reflexivity].
Qed.

Lemma resolve_row_turns (i : nat) (js : list nat) (ps : list Particle) :
  resolve_row i js ps = resolve_each (map (pair i) js) ps.
Proof.
  revert ps. induction js as [|j js IH]; intros ps; [reflexivity|].
  cbn [resolve_row map resolve_each]. unfold resolve_at.
  destruct (getitem ps i) as [a|e]; [|reflexivity]. cbn [bind].
  destruct (getitem ps j) as [b|e]; [|reflexivity]. cbn [bind].
  destruct (resolve_pair a b) as [[a' b']|e]; [|reflexivity]. cbn [bind].
  apply IH.
Qed.

Lemma resolve_rows_turns (n : nat) (rows : list nat) (ps : list Particle) :
  resolve_rows n rows ps =
    resolve_each
      (flat_map (fun i => map (pair i) (seq (i + 1) (n - (i + 1)))) rows) ps.
Proof.
  revert ps. induction rows as [|i rows IH]; intros ps; [reflexivity|].
  cbn [resolve_rows flat_map]. rewrite resolve_each_app, resolve_row_turns.
  destruct (resolve_each _ ps) as [ps1|e]; [|reflexivity].
  cbn [bind]. apply IH.
Qed.

(** [_resolve_collisions] takes the turns of [index_pairs], in order. *)
Lemma sweep_turns (ps : list Particle) :
  _resolve_collisions ps = resolve_each (index_pairs (List.length ps)) ps.
Proof. apply resolve_rows_turns. Qed.

(** These are the pairs [i < j] of indices of the store, *)
Lemma index_pairs_spec (n i j : nat) :
  In (i, j) (index_pairs n) <-> (i < j < n)%nat.
Proof.
  unfold index_pairs. rewrite in_flat_map. split.
  - intros (i' & Hi' & Hin). apply in_map_iff in Hin as (j' & Heq & Hj').
    injection Heq as -> ->. apply in_seq in Hi', Hj'. lia.
  - intros H. exists i. split; [apply in_seq; lia|].
    apply in_map_iff. exists j. split; [reflexivity|]. apply in_seq. lia.
Qed.



(** A turn on the indices of two discs puts what [resolve_pair] makes of
    them back at their places. *)
Lemma resolve_at_pair (ps : list Particle) (i j : nat)
    (a b a' b' : Particle) :
  nth_error ps i = Some a -> nth_error ps j = Some b ->
  resolve_pair a b = Ok (a', b') ->
  resolve_at i j ps = Ok (setitem (setitem ps i a') j b').
Proof.
  intros Hi Hj Hres. unfold resolve_at, getitem.
  rewrite Hi, Hj. cbn [bind]. rewrite Hres. reflexivity.
Qed.

(** The sweep of a store of two discs is its one turn. *)
Lemma sweep_two (a b a' b' : Particle) :
  resolve_pair a b = Ok (a', b') ->
  _resolve_collisions [a; b] = Ok [a'; b'].
Proof.
  intros Hres. rewrite sweep_turns.
  cbn [List.length index_pairs seq flat_map map Nat.add Nat.sub app
       resolve_each].
  rewrite (resolve_at_pair [a; b] 0 1 a b a' b') by (reflexivity || exact Hres).
  reflexivity.
Qed.

End ESweep.



(** C3, as stated, fails on the floats of the program.  The resolver on
    binary64 leaves the first pair of discs with the squared distance of
    the centres still below the square of the sum of the radii, so the
    overlap is not removed exactly; and for the second pair the
    mass-weighted vertical displacements do not sum to zero. *)
Lemma exact_correction_counterexample :
  (exists a' b',
     E64.resolve_pair E64.slanted_left E64.slanted_right = Ok (a', b') /\
     PrimFloat.ltb (E64.dist2 a' b') (E64.radii2 a' b') = true) /\
  (exists a' b',
     E64.resolve_pair E64.steep_left E64.steep_right = Ok (a', b') /\
     PrimFloat.eqb
       (E64.weighted_shift_y E64.steep_left E64.steep_right a' b')
       PrimFloat.zero = false).
Proof.
  split.
  - destruct (E64.resolve_pair E64.slanted_left E64.slanted_right)
      as [[a' b']|e] eqn:Hres; [|vm_compute in Hres; discriminate].
    exists a', b'. split; [reflexivity|].
    vm_compute in Hres. injection Hres as <- <-. vm_compute. reflexivity.
  - destruct (E64.resolve_pair E64.steep_left E64.steep_right)
      as [[a' b']|e] eqn:Hres; [|vm_compute in Hres; discriminate].
    exists a', b'. split; [reflexivity|].
    vm_compute in Hres. injection Hres as <- <-. vm_compute. reflexivity.
Qed.

(** C3, amended.  In a turn of [_resolve_collisions] on a pair in contact
    the positional correction moves [a] by
    [- n * overlap * (m_b / (m_a + m_b))] and [b] by
    [+ n * overlap * (m_a / (m_a + m_b))], with [overlap = R - d]; on a
    store of these two discs that turn is the whole sweep.  As real
    numbers these two displacements have the mass-weighted sum zero and
    put the centres [R] apart; the floats of the program round them, so
    there it is zero and [R] up to rounding only. *)
Theorem positional_correction (ps : list E.Particle) (i j : nat)
    (a b : E.Particle) :
  (i < j)%nat -> nth_error ps i = Some a -> nth_error ps j = Some b ->
  0 < E.m a -> 0 < E.m b -> 0 <= E.r a -> 0 <= E.r b ->
  let dx := E.x b - E.x a in
  let dy := E.y b - E.y a in
  let dist2 := dx * dx + dy * dy in
  let radii := E.r a + E.r b in
  0 < dist2 -> dist2 <= radii * radii ->
  let d := sqrt dist2 in
  let nx := dx / d in
  let ny := dy / d in
  let overlap := radii - d in
  let shift_ax := - nx * overlap * (E.m b / (E.m a + E.m b)) in
  let shift_ay := - ny * overlap * (E.m b / (E.m a + E.m b)) in
  let shift_bx := nx * overlap * (E.m a / (E.m a + E.m b)) in
  let shift_by := ny * overlap * (E.m a / (E.m a + E.m b)) in
  E._resolve_collisions ps
  = E.resolve_each (E.index_pairs (List.length ps)) ps /\
  In (i, j) (E.index_pairs (List.length ps)) /\
  (exists a' b',
     E.resolve_at i j ps = Ok (E.setitem (E.setitem ps i a') j b') /\
     (ps = [a; b] -> E._resolve_collisions ps = Ok [a'; b']) /\
     E.x a' - E.x a = shift_ax /\ E.y a' - E.y a = shift_ay /\
     E.x b' - E.x b = shift_bx /\ E.y b' - E.y b = shift_by) /\
  (E.m a * shift_ax + E.m b * shift_bx = 0 /\
   E.m a * shift_ay + E.m b * shift_by = 0) /\
  math_hypot ((E.x b + shift_bx) - (E.x a + shift_ax))
             ((E.y b + shift_by) - (E.y a + shift_ay)) = radii.
Proof.
  intros Hij Hi Hj Ha Hb Hra Hrb dx dy dist2 radii Hpos Hle d nx ny overlap
         shift_ax shift_ay shift_bx shift_by.
  split; [apply ESweep.sweep_turns|].
  split.
  { apply ESweep.index_pairs_spec. split; [exact Hij|].
    apply nth_error_Some. congruence. }
  split; [|split].
  - destruct (ESweep.resolve_pair_total a b Ha Hb) as (a' & b' & Hres & _).
    pose proof Hres as Hval.
    rewrite ECollide.resolve_pair_contact in Hval by assumption.
    fold dx dy dist2 radii in Hval.
    rewrite ECollide.collide_ok in Hval by assumption.
    fold d nx ny overlap in Hval.
    injection Hval as Ea Eb.
    exists a', b'.
    split; [apply (ESweep.resolve_at_pair ps i j a b _ _ Hi Hj Hres)|].
    split; [intros ->; now apply ESweep.sweep_two|].
    rewrite <- Ea, <- Eb. cbn [E.x E.y E.vx E.vy].
    unfold shift_ax, shift_ay, shift_bx, shift_by. repeat split; ring.
  - unfold shift_ax, shift_ay, shift_bx, shift_by. split; field; lra.
  - assert (Hnx : nx * d = dx /\ ny * d = dy)
      by apply (ECollide.normal_times_distance dx dy Hpos).
    destruct Hnx as [Hnx Hny].
    assert (Hunit : nx * nx + ny * ny = 1)
      by apply (ECollide.normal_unit dx dy Hpos).
    unfold math_hypot.
    replace (E.x b + shift_bx - (E.x a + shift_ax))
      with (dx + nx * overlap)
      by (unfold dx, shift_ax, shift_bx; field; lra).
    replace (E.y b + shift_by - (E.y a + shift_ay))
      with (dy + ny * overlap)
      by (unfold dy, shift_ay, shift_by; field; lra).
    rewrite <- Hnx, <- Hny.
    replace (nx * d + nx * overlap) with (nx * radii)
      by (unfold overlap; ring).
    replace (ny * d + ny * overlap) with (ny * radii)
      by (unfold overlap; ring).
    replace (nx * radii * (nx * radii) + ny * radii * (ny * radii))
      with ((nx * nx + ny * ny) * (radii * radii)) by ring.
    rewrite Hunit, Rmult_1_l. apply sqrt_square. unfold radii. lra.
Qed.

Lemma positional_correction_witness :
  exists a' b',
    E._resolve_collisions [head_on_left; head_on_right] = Ok [a'; b'] /\
    E.x a' = 97 /\ E.y a' = 100 /\ E.x b' = 133 /\ E.y b' = 100.
Proof.
  assert (Hd : sqrt ((130 - 100) * (130 - 100) + (100 - 100) * (100 - 100))
               = 30).
  { replace ((130 - 100) * (130 - 100) + (100 - 100) * (100 - 100))
      with (30 * 30) by lra.
    apply sqrt_square. lra. }
  destruct (positional_correction [head_on_left; head_on_right] 0 1
              head_on_left head_on_right)
    as (_ & _ & (a' & b' & _ & Hsweep & Hxa & Hya & Hxb & Hyb) & _);
    try reflexivity; simpl; try lra; try lia.
  exists a', b'. split; [now apply Hsweep|].
  simpl in Hxa, Hya, Hxb, Hyb. rewrite Hd in Hxa, Hya, Hxb, Hyb.
  repeat split; lra.
Defined.

(** C5.  The code departs from it: the restitution is neither a parameter
    nor [1].  For two discs of equal mass in contact on a horizontal line,
    the left one moving with [(v, 0)] and the right one with [(-v, 0)],
    [v >= 0], the sweep of [_resolve_collisions] over the two, whose
    restitution is the constant [0.95] of the source, leaves them with
    [(-0.95 * v, 0)] and [(0.95 * v, 0)].  The collision response run with
    a restitution [e] gives [(- e * v, 0)] and [(e * v, 0)]: the full
    exchange of the velocities is what it gives at [e = 1], a value the
    resolver does not take. *)
Theorem head_on_exchange (a b : E.Particle) (v : R) :
  0 < E.m a -> E.m b = E.m a ->
  E.y b = E.y a -> E.x a < E.x b -> E.x b - E.x a <= E.r a + E.r b ->
  0 <= v ->
  E.vx a = v -> E.vy a = 0 -> E.vx b = - v -> E.vy b = 0 ->
  (exists a' b',
     E._resolve_collisions [a; b] = Ok [a'; b'] /\
     E.resolve_pair a b = Ok (a', b') /\
     E.vx a' = - 0.95 * v /\ E.vy a' = 0 /\
     E.vx b' = 0.95 * v /\ E.vy b' = 0) /\
  (forall e : R,
     let dx := E.x b - E.x a in
     let dy := E.y b - E.y a in
     exists a' b',
       E.collide e a b dx dy (dx * dx + dy * dy) (E.r a + E.r b)
         = Ok (a', b') /\
       E.vx a' = - e * v /\ E.vy a' = 0 /\
       E.vx b' = e * v /\ E.vy b' = 0).
Proof.
  intros Hm Hmb Hy Hx Hcontact Hv Hvxa Hvya Hvxb Hvyb.
  split.
  - destruct (EHeadOn.collide_head_on 0.95 a b v)
      as (a' & b' & Hres & Ha & Hay & Hb & Hby); try assumption.
    rewrite <- ECollide.resolve_pair_contact in Hres by nra.
    exists a', b'. split; [now apply ESweep.sweep_two|].
    split; [exact Hres|].
    repeat split; try assumption; lra.
  - intros e. now apply EHeadOn.collide_head_on.
Qed.

Lemma head_on_exchange_witness :
  exists a' b',
    E._resolve_collisions [head_on_left; head_on_right] = Ok [a'; b'] /\
    E.vx a' = -47.5 /\ E.vy a' = 0 /\ E.vx b' = 47.5 /\ E.vy b' = 0 /\
    ~ (E.vx a' = -50 /\ E.vx b' = 50).
Proof.
  destruct (head_on_exchange head_on_left head_on_right 50)
    as ((a' & b' & Hsweep & _ & Ha & Hay & Hb & Hby) & _); simpl; try lra.
  exists a', b'. split; [exact Hsweep|].
  repeat split; try assumption; lra.
Defined.




(* ================================================================== *)
(** ** The speed multiplier *)

Module BHClock.
Import BH.

Lemma step_keeps_clock (s s' : Sim) :
  step s = Ok s' ->
  speed_mult s' = speed_mult s /\ base_dt s' = base_dt s /\ dt s' = dt s.
Proof.
  unfold step, step_traced.
  destruct (pass s (particles s) _) as [ps|e]; [|discriminate]. cbn [bind].
  destruct (remove_all _ _) as [l|e]; [|discriminate]. cbn [bind].
  intros H. injection H as <-. auto.
Qed.

Lemma spawn_keeps_clock (floor : R) (n : nat) (rmin rmax : R) (s : Sim) :
  clock_ok floor s ->
  ensures (spawn_random_cloud n rmin rmax s) (clock_ok floor).
Proof.
  revert s. induction n as [|n IH]; intros s Hs.
  - now apply ensures_cret.
  - cbn [spawn_random_cloud]. unfold center.
    do 8 (apply ensures_then; intros ?).
    apply IH. exact Hs.
Qed.

Lemma keydown_keeps_clock (floor : R) (key : Key) (shift : bool) (s : Sim) :
  floor <= 0.125 -> 0 <= floor ->
  clock_ok floor s -> ensures (on_keydown key shift s) (clock_ok floor).
Proof.
  intros Hfloor Hnn [Hs Hb].
  destruct key; cbn [on_keydown];
    try (apply ensures_cret; split; assumption).
  - now apply spawn_keeps_clock.
  - destruct shift.
    + apply ensures_then. intros q. apply ensures_cret. now split.
    + apply ensures_cret. now split.
  - apply ensures_cret. split; cbn [speed_mult base_dt set_dt set_speed_mult];
      [lra | assumption].
  - apply ensures_then. intros q. apply ensures_cret.
    split; cbn [speed_mult base_dt set_dt set_speed_mult]; [|assumption].
    pose proof (max_lower_l 0.125 q). lra.
  - destruct (paused s).
    + apply ensures_lift. intros s' Hstep.
      apply step_keeps_clock in Hstep as (Hm & Hbd & _).
      unfold clock_ok. rewrite Hm, Hbd. now split.
    + apply ensures_cret. now split.
Qed.

Lemma mousebuttonup_keeps_clock (floor : R) (mx my : R) (s : Sim) :
  clock_ok floor s -> ensures (on_mousebuttonup mx my s) (clock_ok floor).
Proof.
  intros Hs. unfold on_mousebuttonup.
  destruct (dragging s); [|now apply ensures_cret].
  destruct (drag_start s) as [[sx sy]|]; [|now apply ensures_cret].
  apply ensures_cbind with (P := clock_ok floor).
  - destruct (Rlt_dec 6 _); [now apply ensures_cret|].
    destruct (drag_button s) as [[|[|[|[|k]]]]|];
      try (now apply ensures_cret).
    + unfold center. destruct (Rle_dec 5 _); [|now apply ensures_cret].
      do 6 (apply ensures_then; intros ?). now apply ensures_cret.
    + do 2 (apply ensures_then; intros ?). now apply ensures_cret.
  - intros s1 Hs1. now apply ensures_cret.
Qed.

Lemma event_keeps_clock (floor : R) (ev : Event) (s : Sim) :
  floor <= 0.125 -> 0 <= floor ->
  clock_ok floor s -> ensures (on_event ev s) (clock_ok floor).
Proof.
  intros Hfloor Hnn Hs. destruct ev; cbn [on_event];
    try (now apply ensures_cret).
  - now apply keydown_keeps_clock.
  - now apply mousebuttonup_keeps_clock.
Qed.

Lemma events_keep_clock (floor : R) (evs : list Event) (s : Sim) :
  floor <= 0.125 -> 0 <= floor ->
  clock_ok floor s -> ensures (on_events evs s) (clock_ok floor).
Proof.
  intros Hfloor Hnn. revert s. induction evs as [|ev evs IH]; intros s Hs.
  - now apply ensures_cret.
  - cbn [on_events]. apply ensures_cbind with (P := clock_ok floor).
    + now apply event_keeps_clock.
    + intros s' Hs'. now apply IH.
Qed.

(** After [tick] the step [dt] is the base step times the multiplier. *)
Lemma tick_sets_dt (s s' : Sim) :
  tick s = Ok s' ->
  speed_mult s' = speed_mult s /\ base_dt s' = base_dt s /\
  dt s' = base_dt s * speed_mult s.
Proof.
  unfold tick. cbn [paused set_dt]. destruct (paused s).
  - intros H. injection H as <-. auto.
  - intros H. apply step_keeps_clock in H as (-> & -> & ->). auto.
Qed.

End BHClock.

(** C9.  Mode a: from a state whose multiplier is at least [0.125], the
    key that speeds up doubles it and the key that slows down halves it
    but not below [0.125]; both set [dt] to the base step times the
    multiplier, and after any frame of events and its tick the multiplier
    is still at least [0.125] and [dt] is positive.  Mode b: after
    [_change_speed] the multiplier lies in [[0.1, 10]] whatever it was
    before, and the step [dt * speed] handed to [_step] is positive. *)
Theorem speed_multiplier_clamped (s : BH.Sim) (evs : list BH.Event)
    (t : E.Sim) (factor : R) :
  0.125 <= BH.speed_mult s -> 0 < BH.base_dt s -> 0 < E.dt t ->
  (forall shift g, exists s',
     BH.on_keydown BH.K_RIGHTBRACKET shift s g = Ok (s', g) /\
     BH.speed_mult s' = BH.speed_mult s * 2 /\
     0.125 <= BH.speed_mult s' /\
     BH.dt s' = BH.base_dt s * BH.speed_mult s' /\ 0 < BH.dt s') /\
  (forall shift g, exists s',
     BH.on_keydown BH.K_LEFTBRACKET shift s g = Ok (s', g) /\
     BH.speed_mult s' = max 0.125 (BH.speed_mult s / 2) /\
     0.125 <= BH.speed_mult s' /\
     BH.dt s' = BH.base_dt s * BH.speed_mult s' /\ 0 < BH.dt s') /\
  (forall g s' g',
     BH.frame evs s g = Ok (s', g') ->
     0.125 <= BH.speed_mult s' /\
     BH.dt s' = BH.base_dt s' * BH.speed_mult s' /\ 0 < BH.dt s') /\
  (let t' := E._change_speed factor t in
   0.1 <= E.speed t' <= 10 /\ E.dt t' = E.dt t /\
   0 < E.dt t' * E.speed t').
Proof.
  intros Hs Hb Ht. split; [|split; [|split]].
  - intros shift g. eexists. split; [reflexivity|].
    cbn [BH.speed_mult BH.base_dt BH.dt BH.set_dt BH.set_speed_mult].
    repeat split; try lra. apply Rmult_lt_0_compat; lra.
  - intros shift g. cbn [BH.on_keydown]. unfold cbind, lift.
    rewrite truediv_ok by lra. unfold cret.
    eexists. split; [reflexivity|].
    cbn [BH.speed_mult BH.base_dt BH.dt BH.set_dt BH.set_speed_mult].
    pose proof (max_lower_l 0.125 (BH.speed_mult s / 2)) as Hmax.
    repeat split; try lra. apply Rmult_lt_0_compat; lra.
  - intros g s' g' Hframe. unfold BH.frame in Hframe.
    apply cbind_ok in Hframe as (s1 & g1 & Hev & Htick).
    apply lift_ok in Htick as [Htick _].
    assert (Hclock : BH.clock_ok 0.125 s1).
    { eapply (BHClock.events_keep_clock 0.125 evs s); try lra.
      - now split.
      - exact Hev. }
    destruct Hclock as [Hs1 Hb1].
    apply BHClock.tick_sets_dt in Htick as (Hsm & Hbd & Hdt).
    rewrite Hsm, Hbd, Hdt. repeat split; try lra.
    apply Rmult_lt_0_compat; lra.
  - cbn zeta. unfold E._change_speed. cbn [E.speed E.dt].
    pose proof (max_lower_l 0.1 (min 10 (E.speed t * factor))) as Hlo.
    pose proof (min_upper_l 10 (E.speed t * factor)) as Hmin.
    pose proof (max_upper 0.1 (min 10 (E.speed t * factor)) 10) as Hhi.
    repeat split; try lra. apply Rmult_lt_0_compat; lra.
Qed.

Lemma speed_multiplier_clamped_witness :
  (exists s',
     BH.on_keydown BH.K_LEFTBRACKET false BH.init
       (Random.mkRng (fun _ => 0) (fun _ => 0%nat) 0) =
       Ok (s', Random.mkRng (fun _ => 0) (fun _ => 0%nat) 0) /\
     0.125 <= BH.speed_mult s' /\ 0 < BH.dt s') /\
  0.1 <= E.speed (E._change_speed 0.9 E.init) <= 10.
Proof.
  assert (H1 : 0.125 <= BH.speed_mult BH.init) by (simpl; lra).
  assert (H2 : 0 < BH.base_dt BH.init)
    by (simpl; unfold BH.FPS; lra).
  assert (H3 : 0 < E.dt E.init) by (simpl; lra).
  destruct (speed_multiplier_clamped BH.init [] E.init 0.9 H1 H2 H3)
    as (_ & Hslow & _ & Hb).
  split.
  - destruct (Hslow false (Random.mkRng (fun _ => 0) (fun _ => 0%nat) 0))
      as (s' & Hrun & _ & Hfloor & _ & Hdt).
    exists s'. auto.
  - apply Hb.
Defined.

(* ================================================================== *)
(** ** The tick and the generator *)

Module Determinism.

Lemma bh_keydown_draws_nothing (key : BH.Key) (shift : bool) (s : BH.Sim) :
  key <> BH.K_r -> draws_nothing (BH.on_keydown key shift s).
Proof.
  intros Hkey. destruct key; cbn [BH.on_keydown];
    try apply draws_nothing_cret; try contradiction.
  - destruct shift; [|apply draws_nothing_cret].
    apply draws_nothing_cbind; [apply draws_nothing_lift|].
    intros q. apply draws_nothing_cret.
  - apply draws_nothing_cbind; [apply draws_nothing_lift|].
    intros q. apply draws_nothing_cret.
  - destruct (BH.paused s);
      [apply draws_nothing_lift | apply draws_nothing_cret].
Qed.

Lemma bh_event_draws_nothing (ev : BH.Event) (s : BH.Sim) :
  BH.spawns ev = false -> draws_nothing (BH.on_event ev s).
Proof.
  destruct ev as [|key shift| | |]; cbn [BH.spawns BH.on_event]; intros H;
    try apply draws_nothing_cret; try discriminate.
  apply bh_keydown_draws_nothing. intros ->. discriminate.
Qed.

Lemma bh_events_draw_nothing (evs : list BH.Event) (s : BH.Sim) :
  forallb (fun ev => negb (BH.spawns ev)) evs = true ->
  draws_nothing (BH.on_events evs s).
Proof.
  revert s. induction evs as [|ev evs IH]; intros s H.
  - apply draws_nothing_cret.
  - cbn [forallb] in H. apply andb_true_iff in H as [Hev Hevs].
    apply negb_true_iff in Hev. cbn [BH.on_events].
    apply draws_nothing_cbind.
    + now apply bh_event_draws_nothing.
    + intros s'. now apply IH.
Qed.

Lemma e_command_draws_nothing (c : E.Command) (s : E.Sim) :
  E.spawns c = false -> draws_nothing (E.on_command c s).
Proof.
  destruct c; cbn [E.spawns E.on_command]; intros H;
    try apply draws_nothing_cret; discriminate.
Qed.

Lemma e_callback_draws_nothing (cb : E.Callback) (s : E.Sim) :
  E.physics_only cb = true -> draws_nothing (E.on_callback cb s).
Proof.
  destruct cb as [|c]; cbn [E.physics_only E.on_callback]; intros H.
  - apply draws_nothing_lift.
  - apply e_command_draws_nothing. now apply negb_true_iff.
Qed.

Lemma e_mainloop_draws_nothing (cbs : list E.Callback) (s : E.Sim) :
  forallb E.physics_only cbs = true -> draws_nothing (E.mainloop cbs s).
Proof.
  revert s. induction cbs as [|cb cbs IH]; intros s H.
  - apply draws_nothing_cret.
  - cbn [forallb] in H. apply andb_true_iff in H as [Hcb Hcbs].
    cbn [E.mainloop]. apply draws_nothing_cbind.
    + now apply e_callback_draws_nothing.
    + intros s'. now apply IH.
Qed.

(** The spawning commands do draw: [spawn_particle] of [e.py] makes seven
    draws (the radius and six colour digits). *)
Lemma e_spawn_draws (x0 y0 vx0 vy0 : R) (s : E.Sim) (g : Random.Rng) :
  exists s' g',
    E.spawn_particle x0 y0 vx0 vy0 s g = Ok (s', g') /\
    Random.cursor g' = (Random.cursor g + 7)%nat.
Proof.
  unfold E.spawn_particle, E.random_color, cbind, draw, cret.
  cbn [Random.uniform Random.random E.random_digits cbind draw cret
       Random.randbelow].
  unfold cbind, draw, cret. cbn [Random.randbelow].
  eexists. eexists. split; [reflexivity|]. simpl. lia.
Qed.

End Determinism.

(** C10.  A frame of [bh.py] whose events create no particle, and a run
    of callbacks of [e.py] among which no command creates particles, are
    functions of the state they start from: their outcome does not depend
    on the state of the random generator, and they leave the generator as
    it was.  In particular ([evs = []], [cbs = [Timer]]) so is one tick of
    each program. *)
Theorem tick_deterministic (evs : list BH.Event) (s : BH.Sim)
    (cbs : list E.Callback) (t : E.Sim) :
  forallb (fun ev => negb (BH.spawns ev)) evs = true ->
  forallb E.physics_only cbs = true ->
  (exists r : result BH.Sim,
     forall g, BH.frame evs s g = lift r g) /\
  (exists r : result E.Sim,
     forall g, E.mainloop cbs t g = lift r g) /\
  (forall g, BH.frame [] s g = lift (BH.tick s) g) /\
  (forall g, E.mainloop [E.Timer] t g = lift (E._loop t) g).
Proof.
  intros Hevs Hcbs. split; [|split; [|split]].
  - unfold BH.frame. apply draws_nothing_cbind.
    + now apply Determinism.bh_events_draw_nothing.
    + intros s'. apply draws_nothing_lift.
  - now apply Determinism.e_mainloop_draws_nothing.
  - intros g. reflexivity.
  - intros g. cbn [E.mainloop E.on_callback]. unfold cbind, lift, cret.
    destruct (E._loop t); reflexivity.
Qed.

Lemma tick_deterministic_witness :
  (exists r : result BH.Sim,
     forall g,
       BH.frame [BH.KEYDOWN BH.K_LEFTBRACKET false] two_tracers g
       = lift r g) /\
  (exists r : result E.Sim,
     forall g,
       E.mainloop [E.Request (E.ChangeSpeed 1.1); E.Timer] E.init g
       = lift r g).
Proof.
  destruct (tick_deterministic [BH.KEYDOWN BH.K_LEFTBRACKET false] two_tracers
              [E.Request (E.ChangeSpeed 1.1); E.Timer] E.init
              eq_refl eq_refl)
    as (Hbh & He & _).
  split; assumption.
Defined.

(* ================================================================== *)
(** ** The concrete cases on binary64 *)

Module Binary64Runs.

Import PrimFloat.
Local Open Scope float_scope.

(** The disc across the left wall that moves right is put back at
    [x = r] and keeps [vx = 50]. *)
Example wall_inbound_run :
  E64._handle_wall_collision E64.inbound_at_left_wall
  = E64.mkParticle 18 300 50 0 18 324.
Proof. vm_compute. reflexivity. Qed.

(** The head-on pair leaves with [-47.5] and [47.5], pushed apart to
    [x = 97] and [x = 133]. *)
Example head_on_run :
  E64.resolve_pair E64.head_on_left E64.head_on_right
  = Ok (E64.mkParticle 97 100 (-47.5) 0 18 324,
        E64.mkParticle 133 100 47.5 0 18 324).
Proof. vm_compute. reflexivity. Qed.

(** The pair that exactly touches is not moved, and gets the impulse. *)
Example touching_run :
  E64.resolve_pair E64.head_on_left E64.touching_right
  = Ok (E64.mkParticle 100 100 (-47.5) 0 18 324,
        E64.mkParticle 136 100 47.5 0 18 324).
Proof. vm_compute. reflexivity. Qed.

(** The pair that is apart is left alone. *)
Example far_run :
  E64.resolve_pair E64.head_on_left E64.far_right
  = Ok (E64.head_on_left, E64.far_right).
Proof. vm_compute. reflexivity. Qed.

End Binary64Runs.

(* ================================================================== *)
(** ** Invariants of the frames of [bh.py] *)

Module BHInvariant.
Import BH.

(** [step] changes the store and nothing else. *)
Lemma step_frame (s s' : Sim) :
  step s = Ok s' -> exists l, s' = set_particles s l.
Proof.
  unfold step, step_traced.
  destruct (pass s (particles s) _) as [ps|e]; [|discriminate]. cbn [bind].
  destruct (remove_all _ _) as [l|e]; [|discriminate]. cbn [bind].
  intros H. injection H as <-. now exists l.
Qed.

Lemma list_remove_incl (p : Particle) (l l' : list Particle) :
  list_remove p l = Ok l' -> incl l' l.
Proof.
  revert l'. induction l as [|q l IH]; intros l' H; simpl in H.
  - discriminate.
  - destruct (Nat.eqb (oid q) (oid p)).
    + injection H as <-. apply incl_tl, incl_refl.
    + destruct (list_remove p l) as [r|e]; [|discriminate].
      simpl in H. injection H as <-.
      apply incl_cons; [now left|]. apply incl_tl. now apply IH.
Qed.

Lemma remove_all_incl (rm l l' : list Particle) :
  remove_all rm l = Ok l' -> incl l' l.
Proof.
  revert l l'. induction rm as [|p rm IH]; intros l l' H; simpl in H.
  - injection H as <-. apply incl_refl.
  - destruct (list_remove p l) as [l1|e] eqn:E; [|discriminate].
    simpl in H. eapply incl_tran; [eapply IH, H|].
    eapply list_remove_incl, E.
Qed.

(** Whatever [step] leaves in the store is a particle of the store,
    advanced. *)
Lemma step_survivors (s s' : Sim) :
  step s = Ok s' -> incl (particles s') (map (moved s) (particles s)).
Proof.
  unfold step, step_traced. rewrite BHStep.pass_spec. cbn [bind store remove].
  destruct (remove_all _ _) as [l|e] eqn:E; [|discriminate]. cbn [bind].
  intros H. injection H as <-. cbn [particles set_particles].
  eapply remove_all_incl, E.
Qed.

Section Invariant.

(** A property of the state that every elementary change keeps. *)
Variable Q : Sim -> Prop.

Hypothesis Q_add : forall s x0 y0 vx0 vy0,
  Q s -> Q (add_particle s x0 y0 vx0 vy0).
Hypothesis Q_clear : forall s, Q s -> Q (set_particles s []).
Hypothesis Q_running : forall s b, Q s -> Q (set_running s b).
Hypothesis Q_paused : forall s b, Q s -> Q (set_paused s b).
Hypothesis Q_show_trails : forall s b, Q s -> Q (set_show_trails s b).
Hypothesis Q_drag : forall s d st b, Q s -> Q (set_drag s d st b).
Hypothesis Q_mass : forall s m',
  Q s ->
  m' = M s * 1.5 \/ m' = M s * 1.1 \/
  m' = max 1 (M s / 1.5) \/ m' = max 1 (M s * 0.9) ->
  Q (set_M s m').
Hypothesis Q_speed : forall s sp,
  Q s ->
  sp = speed_mult s * 2 \/ sp = max 0.125 (speed_mult s / 2) ->
  Q (set_dt (set_speed_mult s sp) (base_dt s * sp)).
Hypothesis Q_refresh : forall s,
  Q s -> Q (set_dt s (base_dt s * speed_mult s)).
Hypothesis Q_step : forall s s', Q s -> step s = Ok s' -> Q s'.

Lemma spawn_invariant (n : nat) (rmin rmax : R) (s : Sim) :
  Q s -> ensures (spawn_random_cloud n rmin rmax s) Q.
Proof.
  revert s. induction n as [|n IH]; intros s Hs.
  - now apply ensures_cret.
  - cbn [spawn_random_cloud]. unfold center.
    do 8 (apply ensures_then; intros ?).
    apply IH. now apply Q_add.
Qed.

Lemma keydown_invariant (key : Key) (shift : bool) (s : Sim) :
  Q s -> ensures (on_keydown key shift s) Q.
Proof.
  intros Hs. destruct key; cbn [on_keydown].
  - apply ensures_cret. now apply Q_running.
  - apply ensures_cret. now apply Q_paused.
  - apply ensures_cret. now apply Q_clear.
  - now apply spawn_invariant.
  - apply ensures_cret. apply Q_mass; [exact Hs|].
    destruct shift; auto.
  - destruct shift.
    + intros g s' g' H. apply cbind_ok in H as (q & g1 & Hq & H).
      apply lift_ok in Hq as [Hq _]. apply cret_ok in H as [-> _].
      unfold truediv in Hq. destruct (Req_dec_T 1.5 0); [discriminate|].
      injection Hq as <-. apply Q_mass; auto.
    + apply ensures_cret. apply Q_mass; auto.
  - apply ensures_cret. cbn [base_dt speed_mult set_speed_mult].
    apply Q_speed; auto.
  - intros g s' g' H. apply cbind_ok in H as (q & g1 & Hq & H).
    apply lift_ok in Hq as [Hq _]. apply cret_ok in H as [-> _].
    unfold truediv in Hq. destruct (Req_dec_T 2 0); [discriminate|].
    injection Hq as <-. cbn [base_dt speed_mult set_speed_mult].
    apply Q_speed; auto.
  - destruct (paused s); [|now apply ensures_cret].
    apply ensures_lift. intros s' Hstep. now apply (Q_step s).
  - apply ensures_cret. now apply Q_show_trails.
  - now apply ensures_cret.
Qed.

Lemma mousebuttonup_invariant (mx my : R) (s : Sim) :
  Q s -> ensures (on_mousebuttonup mx my s) Q.
Proof.
  intros Hs. unfold on_mousebuttonup.
  destruct (dragging s); [|now apply ensures_cret].
  destruct (drag_start s) as [[sx sy]|]; [|now apply ensures_cret].
  apply ensures_cbind with (P := Q).
  - destruct (Rlt_dec 6 _); [apply ensures_cret; now apply Q_add|].
    destruct (drag_button s) as [[|[|[|[|k]]]]|];
      try (now apply ensures_cret).
    + unfold center. destruct (Rle_dec 5 _); [|now apply ensures_cret].
      do 6 (apply ensures_then; intros ?).
      apply ensures_cret. now apply Q_add.
    + do 2 (apply ensures_then; intros ?).
      apply ensures_cret. now apply Q_add.
  - intros s1 Hs1. apply ensures_cret. now apply Q_drag.
Qed.

Lemma event_invariant (ev : Event) (s : Sim) :
  Q s -> ensures (on_event ev s) Q.
Proof.
  intros Hs. destruct ev; cbn [on_event].
  - apply ensures_cret. now apply Q_running.
  - now apply keydown_invariant.
  - apply ensures_cret. now apply Q_drag.
  - now apply mousebuttonup_invariant.
  - now apply ensures_cret.
Qed.

Lemma events_invariant (evs : list Event) (s : Sim) :
  Q s -> ensures (on_events evs s) Q.
Proof.
  revert s. induction evs as [|ev evs IH]; intros s Hs.
  - now apply ensures_cret.
  - cbn [on_events]. apply ensures_cbind with (P := Q).
    + now apply event_invariant.
    + intros s' Hs'. now apply IH.
Qed.

Lemma tick_invariant (s s' : Sim) : Q s -> tick s = Ok s' -> Q s'.
Proof.
  intros Hs. unfold tick. cbn [paused set_dt]. destruct (paused s).
  - intros H. injection H as <-. now apply Q_refresh.
  - intros H. eapply Q_step; [|exact H]. now apply Q_refresh.
Qed.

Lemma frame_invariant (evs : list Event) (s : Sim) :
  Q s -> ensures (frame evs s) Q.
Proof.
  intros Hs. unfold frame. apply ensures_cbind with (P := Q).
  - now apply events_invariant.
  - intros s1 Hs1. apply ensures_lift. intros s' Htick.
    now apply (tick_invariant s1).
Qed.

End Invariant.

End BHInvariant.

(* ================================================================== *)
(** ** Further properties of [bh.py] *)

(** X2.  The attractor mass never falls below [1]: the keys that lower
    it clamp it at [1.0], the keys that raise it multiply it, and nothing
    else touches it; so after any frame the horizon radius is at least
    [2]. *)
Theorem attractor_mass_floor (evs : list BH.Event) (s s' : BH.Sim)
    (g g' : Random.Rng) :
  1 <= BH.M s ->
  BH.frame evs s g = Ok (s', g') ->
  1 <= BH.M s' /\ 2 <= BH.schwarzschild_radius s'.
Proof.
  intros HM Hrun.
  assert (H : 1 <= BH.M s').
  { refine (BHInvariant.frame_invariant (fun s => 1 <= BH.M s)
              _ _ _ _ _ _ _ _ _ _ evs s HM g s' g' Hrun);
      clear; try (intros; assumption).
    - intros s m' Hs [-> | [-> | [-> | ->]]]; cbn [BH.M BH.set_M];
        try lra; apply max_lower_l.
    - intros s s' Hs Hstep.
      apply BHInvariant.step_frame in Hstep as [l ->]. exact Hs. }
  split; [exact H|]. unfold BH.schwarzschild_radius. lra.
Qed.

Lemma attractor_mass_floor_witness :
  exists s' g',
    BH.frame busy_frame BH.init zero_rng = Ok (s', g') /\
    1 <= BH.M s' /\ 2 <= BH.schwarzschild_radius s'.
Proof.
  destruct (BHStep.frame_returns busy_frame BH.init BHStep.well_formed_init
              zero_rng) as (s' & g' & Hrun & _).
  exists s', g'. split; [exact Hrun|].
  apply (attractor_mass_floor busy_frame BH.init s' zero_rng g');
    [simpl; lra | exact Hrun].
Defined.

(** X3.  The step [dt] always is the base step times the speed
    multiplier: the two speed keys set both together and nothing else
    changes either, so a single step taken while paused runs at the speed
    shown, and the refresh of [dt] at the end of a frame finds it already
    right. *)
Theorem dt_follows_speed (evs : list BH.Event) (s s' : BH.Sim)
    (g g' : Random.Rng) :
  BH.dt s = BH.base_dt s * BH.speed_mult s ->
  BH.on_events evs s g = Ok (s', g') ->
  BH.dt s' = BH.base_dt s' * BH.speed_mult s' /\
  BH.set_dt s' (BH.base_dt s' * BH.speed_mult s') = s'.
Proof.
  intros Hdt Hrun.
  assert (H : BH.dt s' = BH.base_dt s' * BH.speed_mult s').
  { refine (BHInvariant.events_invariant
              (fun s => BH.dt s = BH.base_dt s * BH.speed_mult s)
              _ _ _ _ _ _ _ _ _ evs s Hdt g s' g' Hrun);
      clear; try (intros; assumption).
    - intros s sp _ _. reflexivity.
    - intros s s' Hs Hstep.
      apply BHInvariant.step_frame in Hstep as [l ->]. exact Hs. }
  split; [exact H|]. rewrite <- H. now destruct s'.
Qed.

Lemma dt_follows_speed_witness :
  exists s' g',
    BH.on_events [BH.KEYDOWN BH.K_LEFTBRACKET false;
                  BH.KEYDOWN BH.K_SPACE false] BH.init zero_rng
      = Ok (s', g') /\
    BH.dt s' = BH.base_dt s' * BH.speed_mult s'.
Proof.
  assert (Hrun : exists s' g',
            BH.on_events [BH.KEYDOWN BH.K_LEFTBRACKET false;
                          BH.KEYDOWN BH.K_SPACE false] BH.init zero_rng
            = Ok (s', g')).
  { cbn [BH.on_events BH.on_event BH.on_keydown]. unfold cbind, lift, cret.
    rewrite truediv_ok by lra. eexists. eexists. reflexivity. }
  destruct Hrun as (s' & g' & Hrun). exists s', g'. split; [exact Hrun|].
  apply (dt_follows_speed
           [BH.KEYDOWN BH.K_LEFTBRACKET false; BH.KEYDOWN BH.K_SPACE false]
           BH.init s' zero_rng g'); [|exact Hrun].
  simpl. reflexivity.
Defined.

Module BHTrail.
Import BH.

(** What [advance] does to the trail: the new position is appended, and
    the oldest entry goes when the trail has become too long. *)
Lemma moved_trail (s : Sim) (p : Particle) :
  trail (moved s p) =
    let t := trail p ++ [(x (moved s p), y (moved s p))] in
    if Nat.ltb (trail_length s) (List.length t) then tl t else t.
Proof.
  unfold moved, advance.
  destruct (BHForce.compute_acceleration_total s (x p) (y p)) as (ax & ay & ->).
  reflexivity.
Qed.

Lemma moved_trail_bounded (s : Sim) (p : Particle) :
  (List.length (trail p) <= trail_length s)%nat ->
  (List.length (trail (moved s p)) <= trail_length s)%nat.
Proof.
  intros Hp. rewrite moved_trail. cbv zeta.
  destruct (Nat.ltb_spec (trail_length s)
              (List.length (trail p ++ [(x (moved s p), y (moved s p))])))
    as [Hfull|Hroom].
  - destruct (trail p) as [|e t]; simpl in *.
    + lia.
    + rewrite length_app in *. simpl in *. lia.
  - exact Hroom.
Qed.

End BHTrail.

(** X4.  No trail ever holds more than [trail_length] positions: a new
    particle starts with an empty trail, a step appends one position and
    drops the oldest one of a trail that has become too long, and no event
    changes [trail_length]. *)
Theorem trail_bounded (evs : list BH.Event) (s s' : BH.Sim)
    (g g' : Random.Rng) :
  Forall (fun p => (List.length (BH.trail p) <= BH.trail_length s)%nat)
         (BH.particles s) ->
  BH.frame evs s g = Ok (s', g') ->
  BH.trail_length s' = BH.trail_length s /\
  Forall (fun p => (List.length (BH.trail p) <= BH.trail_length s')%nat)
         (BH.particles s').
Proof.
  intros Hs Hrun.
  set (K := BH.trail_length s).
  assert (H : BH.trail_length s' = K /\
              Forall (fun p => (List.length (BH.trail p) <= K)%nat)
                     (BH.particles s')).
  { refine (BHInvariant.frame_invariant
              (fun s => BH.trail_length s = K /\
                        Forall (fun p => (List.length (BH.trail p) <= K)%nat)
                               (BH.particles s))
              _ _ _ _ _ _ _ _ _ _ evs s (conj eq_refl Hs) g s' g' Hrun);
      clear; try (intros; assumption).
    - intros t x0 y0 vx0 vy0 [HK Hall]. split; [exact HK|].
      cbn [BH.particles BH.add_particle]. apply Forall_app. split; [exact Hall|].
      repeat constructor. simpl. lia.
    - intros t [HK _]. split; [exact HK | constructor].
    - intros t t' [HK Hall] Hstep.
      pose proof (BHInvariant.step_survivors t t' Hstep) as Hincl.
      apply BHInvariant.step_frame in Hstep as [l ->].
      split; [exact HK|]. cbn [BH.particles BH.set_particles] in *.
      apply Forall_forall. intros q Hq.
      apply Hincl, in_map_iff in Hq as (p & <- & Hp).
      rewrite <- HK. apply BHTrail.moved_trail_bounded. rewrite HK.
      rewrite Forall_forall in Hall. now apply Hall. }
  destruct H as [HK Hall]. split; [exact HK|]. now rewrite HK.
Qed.

Lemma trail_bounded_witness :
  exists s' g',
    BH.frame busy_frame BH.init zero_rng = Ok (s', g') /\
    BH.trail_length s' = 30%nat /\
    Forall (fun p => (List.length (BH.trail p) <= BH.trail_length s')%nat)
           (BH.particles s').
Proof.
  destruct (BHStep.frame_returns busy_frame BH.init BHStep.well_formed_init
              zero_rng) as (s' & g' & Hrun & _).
  exists s', g'. split; [exact Hrun|].
  apply (trail_bounded busy_frame BH.init s' zero_rng g');
    [constructor | exact Hrun].
Defined.





Module BHCloud.
Import BH.

Lemma hypot_polar (r0 t : R) :
  0 <= r0 -> math_hypot (r0 * cos t) (r0 * sin t) = r0.
Proof.
  intros Hr. unfold math_hypot.
  replace (r0 * cos t * (r0 * cos t) + r0 * sin t * (r0 * sin t))
    with (r0 * r0 * (Rsqr (sin t) + Rsqr (cos t))) by (unfold Rsqr; ring).
  rewrite sin2_cos2, Rmult_1_r. now apply sqrt_square.
Qed.

(** One turn of the loop of [spawn_random_cloud]: six draws, one particle
    at the drawn radius and angle. *)
Lemma spawn_turn (n : nat) (rmin rmax : R) (s : Sim) (g : Random.Rng) :
  0 < M s ->
  let r0 := rmin + (rmax - rmin) * Random.unit_draws g (Random.cursor g) in
  let theta :=
    0 + (2 * PI - 0) * Random.unit_draws g (S (Random.cursor g)) in
  exists vx0 vy0,
    spawn_random_cloud (S n) rmin rmax s g =
    spawn_random_cloud n rmin rmax
      (add_particle s (width s / 2 + r0 * cos theta)
                      (height s / 2 + r0 * sin theta) vx0 vy0)
      (after 6 g).
Proof.
  intros HM r0 theta.
  assert (Hmax : 0 < max r0 0.001)
    by (pose proof (max_lower_r r0 0.001); lra).
  cbn [spawn_random_cloud]. unfold center, cbind, draw, lift.
  cbn [Random.uniform Random.random Random.advance Random.unit_draws
       Random.int_draws Random.cursor].
  fold r0. fold theta.
  rewrite truediv_ok by lra.
  rewrite math_sqrt_ok
    by (apply Rlt_le, Rdiv_lt_0_compat; [unfold G; lra | exact Hmax]).
  eexists. eexists. reflexivity.
Qed.

Lemma cloud_spec (n : nat) (rmin rmax : R) (s : Sim) (g : Random.Rng) :
  0 < M s -> 0 <= rmin <= rmax -> unit_range g ->
  exists new,
    List.length new = n /\
    Forall (fun p =>
              rmin <= math_hypot (x p - width s / 2) (y p - height s / 2)
                   <= rmax /\ trail p = []) new /\
    exists s',
      spawn_random_cloud n rmin rmax s g = Ok (s', after (6 * n) g) /\
      particles s' = particles s ++ new /\
      width s' = width s /\ height s' = height s /\ M s' = M s.
Proof.
  intros HM Hr. revert s g HM.
  induction n as [|n IH]; intros s g HM Hg.
  - exists []. split; [reflexivity|]. split; [constructor|].
    exists s. rewrite app_nil_r. repeat split.
    unfold after. simpl. now destruct g.
  - destruct (spawn_turn n rmin rmax s g HM) as (vx0 & vy0 & Hturn).
    cbv zeta in Hturn.
    set (r0 := rmin + (rmax - rmin) * Random.unit_draws g (Random.cursor g))
      in *.
    set (theta := 0 + (2 * PI - 0) * Random.unit_draws g (S (Random.cursor g)))
      in *.
    set (s1 := add_particle s (width s / 2 + r0 * cos theta)
                 (height s / 2 + r0 * sin theta) vx0 vy0) in *.
    destruct (IH s1 (after 6 g)) as (new & Hlen & Hall & s' & Hrun & Hps & Hw & Hh & HMs).
    + exact HM.
    + intros i. apply Hg.
    + exists (mkParticle (next_oid s) (width s / 2 + r0 * cos theta)
                (height s / 2 + r0 * sin theta) vx0 vy0 [] :: new).
      split; [simpl; now rewrite Hlen|]. split.
      * constructor; [|exact Hall]. cbn [x y trail]. split; [|reflexivity].
        replace (width s / 2 + r0 * cos theta - width s / 2)
          with (r0 * cos theta) by ring.
        replace (height s / 2 + r0 * sin theta - height s / 2)
          with (r0 * sin theta) by ring.
        assert (Hr0 : rmin <= r0 <= rmax).
        { destruct (Hg (Random.cursor g)) as [Hlo Hhi]. unfold r0.
          split; nra. }
        rewrite hypot_polar by lra. exact Hr0.
      * exists s'. rewrite Hturn, Hrun.
        split; [|split; [|auto]].
        -- f_equal. f_equal. unfold after. cbn [Random.unit_draws
             Random.int_draws Random.cursor]. f_equal. lia.
        -- rewrite Hps. unfold s1. cbn [particles add_particle].
           now rewrite <- app_assoc.
Qed.

End BHCloud.

(** X7.  [spawn_random_cloud(n, radius_min, radius_max)] never raises
    while the attractor mass is positive; it appends exactly [n] new
    particles with empty trails, each at a distance from the centre
    between [radius_min] and [radius_max], and makes [6 * n] draws. *)
Theorem cloud_in_annulus (n : nat) (rmin rmax : R) (s : BH.Sim)
    (g : Random.Rng) :
  0 < BH.M s -> 0 <= rmin <= rmax -> unit_range g ->
  exists s' g' new,
    BH.spawn_random_cloud n rmin rmax s g = Ok (s', g') /\
    BH.particles s' = BH.particles s ++ new /\
    List.length new = n /\
    Forall (fun p =>
              rmin <= math_hypot (BH.x p - fst (BH.center s'))
                                 (BH.y p - snd (BH.center s'))
                   <= rmax /\ BH.trail p = []) new /\
    Random.cursor g' = (Random.cursor g + 6 * n)%nat.
Proof.
  intros HM Hr Hg.
  destruct (BHCloud.cloud_spec n rmin rmax s g HM Hr Hg)
    as (new & Hlen & Hall & s' & Hrun & Hps & Hw & Hh & _).
  exists s', (after (6 * n) g), new.
  split; [exact Hrun|]. split; [exact Hps|]. split; [exact Hlen|].
  split; [|simpl; lia].
  unfold BH.center. cbn [fst snd]. now rewrite Hw, Hh.
Qed.

Lemma cloud_in_annulus_witness :
  exists s' g' new,
    BH.start BH.init zero_rng = Ok (s', g') /\
    BH.particles s' = new /\
    List.length new = 80%nat /\
    Forall (fun p =>
              120 <= math_hypot (BH.x p - fst (BH.center s'))
                                (BH.y p - snd (BH.center s'))
                  <= 320 /\ BH.trail p = []) new /\
    Random.cursor g' = 480%nat.
Proof.
  apply (cloud_in_annulus 80 120 320 BH.init zero_rng).
  - simpl. lra.
  - lra.
  - intros i. simpl. lra.
Defined.

Module BHMouse.
Import BH.

(** What a release can do to the store and to the drag state. *)
Lemma release_outcome (mx my : R) (s : Sim) :
  dragging s = true -> drag_start s <> None ->
  ensures (on_mousebuttonup mx my s)
    (fun s' =>
       dragging s' = false /\ drag_start s' = None /\ drag_button s' = None /\
       exists new, particles s' = particles s ++ new /\
                   (List.length new <= 1)%nat).
Proof.
  intros Hd Hst. unfold on_mousebuttonup. rewrite Hd.
  destruct (drag_start s) as [[sx sy]|]; [|contradiction].
  apply ensures_cbind
    with (P := fun s1 => exists new, particles s1 = particles s ++ new /\
                                     (List.length new <= 1)%nat).
  - assert (Hnone : exists new, particles s = particles s ++ new /\
                                (List.length new <= 1)%nat)
      by (exists []; rewrite app_nil_r; simpl; auto).
    assert (Hone : forall x0 y0 vx0 vy0,
              exists new,
                particles (add_particle s x0 y0 vx0 vy0)
                = particles s ++ new /\ (List.length new <= 1)%nat)
      by (intros; eexists; split; [reflexivity | simpl; lia]).
    destruct (Rlt_dec 6 _); [now apply ensures_cret|].
    destruct (drag_button s) as [[|[|[|[|k]]]]|];
      try (now apply ensures_cret).
    + unfold center. destruct (Rle_dec 5 _); [|now apply ensures_cret].
      do 6 (apply ensures_then; intros ?). now apply ensures_cret.
    + do 2 (apply ensures_then; intros ?). now apply ensures_cret.
  - intros s1 Hs1. apply ensures_cret. auto.
Qed.

End BHMouse.

(** X8.  A press followed by a release more than 6 pixels away flings one
    particle: whatever the button, the store gains exactly one particle at
    the point of the press, with the drag vector times [0.06] as velocity;
    no random number is drawn and the drag is over. *)
Theorem fling_gesture (s : BH.Sim) (sx sy mx my : R) (b : nat)
    (g : Random.Rng) :
  6 < math_hypot (mx - sx) (my - sy) ->
  exists s',
    BH.on_events [BH.MOUSEBUTTONDOWN sx sy b; BH.MOUSEBUTTONUP mx my] s g
      = Ok (s', g) /\
    BH.particles s' =
      BH.particles s ++
      [BH.mkParticle (BH.next_oid s) sx sy
                     ((mx - sx) * 0.06) ((my - sy) * 0.06) []] /\
    BH.dragging s' = false /\ BH.drag_start s' = None /\
    BH.drag_button s' = None.
Proof.
  intros Hfar. eexists. split.
  - cbn [BH.on_events BH.on_event]. unfold cbind at 1, cret at 1.
    unfold BH.on_mousebuttonup.
    cbn [BH.dragging BH.drag_start BH.set_drag].
    destruct (Rlt_dec 6 (math_hypot (mx - sx) (my - sy))); [|contradiction].
    reflexivity.
  - repeat split.
Qed.

Lemma fling_gesture_witness :
  exists s',
    BH.on_events [BH.MOUSEBUTTONDOWN 100 100 1; BH.MOUSEBUTTONUP 110 100]
                 BH.init zero_rng = Ok (s', zero_rng) /\
    BH.particles s' =
      [BH.mkParticle 0 100 100 ((110 - 100) * 0.06) ((100 - 100) * 0.06) []] /\
    BH.dragging s' = false /\ BH.drag_start s' = None /\
    BH.drag_button s' = None.
Proof.
  apply (fling_gesture BH.init 100 100 110 100 1 zero_rng).
  unfold math_hypot.
  replace ((110 - 100) * (110 - 100) + (100 - 100) * (100 - 100))
    with (10 * 10) by lra.
  rewrite sqrt_square; lra.
Defined.

(** X9.  A release of a mouse button that follows no press changes
    nothing and draws nothing.  A release that follows a press always ends
    the drag and adds at most one particle to the end of the store. *)
Theorem release_ends_drag (mx my : R) (s : BH.Sim) (g : Random.Rng) :
  (BH.dragging s = false \/ BH.drag_start s = None ->
   BH.on_event (BH.MOUSEBUTTONUP mx my) s g = Ok (s, g)) /\
  (BH.dragging s = true -> BH.drag_start s <> None ->
   forall s' g',
     BH.on_event (BH.MOUSEBUTTONUP mx my) s g = Ok (s', g') ->
     BH.dragging s' = false /\ BH.drag_start s' = None /\
     BH.drag_button s' = None /\
     exists new, BH.particles s' = BH.particles s ++ new /\
                 (List.length new <= 1)%nat).
Proof.
  split.
  - intros H. cbn [BH.on_event]. unfold BH.on_mousebuttonup.
    destruct (BH.dragging s); [|reflexivity].
    destruct H as [H|H]; [discriminate|]. now rewrite H.
  - intros Hd Hst s' g' Hrun.
    exact (BHMouse.release_outcome mx my s Hd Hst g s' g' Hrun).
Qed.

Lemma release_ends_drag_witness :
  BH.on_event (BH.MOUSEBUTTONUP 10 20) BH.init zero_rng
  = Ok (BH.init, zero_rng).
Proof.
  apply (proj1 (release_ends_drag 10 20 BH.init zero_rng)).
  left. reflexivity.
Defined.

Module BHBound.
Import BH.

Lemma Rpower_three_halves_square (X : R) :
  0 < X -> Rpower X (3 / 2) * Rpower X (3 / 2) = X * X * X.
Proof.
  intros HX. rewrite <- Rpower_plus.
  replace (3 / 2 + 3 / 2) with (INR 3) by (simpl; lra).
  rewrite Rpower_pow by exact HX. simpl. ring.
Qed.



End BHBound.

(* ================================================================== *)
(** ** The force model of [bh.py] and the largest float *)

Module BHRange.
Import BH.

Lemma float_max_bounds :
  1e308 < BHOverflow.FLOAT_MAX /\ BHOverflow.FLOAT_MAX < 2e308.
Proof. unfold BHOverflow.FLOAT_MAX. split; lra. Qed.

(** For a base of at least [1] the power [3/2] is at least the base. *)
Lemma Rpower_three_halves_above (X : R) : 1 <= X -> X <= Rpower X (3 / 2).
Proof.
  intros HX. rewrite <- (Rpower_1 X) at 1 by lra. apply Rle_Rpower; lra.
Qed.

(** It is beyond the largest float as soon as the cube of the base is
    beyond its square. *)
Lemma Rpower_three_halves_beyond (X : R) :
  0 < X ->
  BHOverflow.FLOAT_MAX * BHOverflow.FLOAT_MAX < X * X * X ->
  BHOverflow.FLOAT_MAX < Rpower X (3 / 2).
Proof.
  intros HX Hcube.
  pose proof (Rpower_positive X (3 / 2)) as HD.
  pose proof (BHBound.Rpower_three_halves_square X HX) as HDD.
  destruct float_max_bounds as [Hlo _].
  apply Rnot_le_lt. intros Hle.
  assert (Rpower X (3 / 2) * Rpower X (3 / 2)
          <= BHOverflow.FLOAT_MAX * BHOverflow.FLOAT_MAX)
    by (apply Rmult_le_compat; lra).
  lra.
Qed.

(** And within it when the square of the base is. *)
Lemma Rpower_three_halves_within (X : R) :
  1 <= X ->
  X * X <= BHOverflow.FLOAT_MAX ->
  Rpower X (3 / 2) <= BHOverflow.FLOAT_MAX.
Proof.
  intros HX Hsq.
  apply Rle_trans with (Rpower X (INR 2)).
  - apply Rle_Rpower; simpl; lra.
  - rewrite Rpower_pow by lra. simpl. lra.
Qed.

Lemma softened_at_least_one (dx dy : R) : 1 <= dx * dx + dy * dy + 6 * 6.
Proof. nra. Qed.

(** Where the power is a float the force model returns the softened
    inverse-square value. *)
Lemma in_range (s : Sim) (px py : R) :
  let dx := px - width s / 2 in
  let dy := py - height s / 2 in
  let D := Rpower (dx * dx + dy * dy + 6 * 6) (3 / 2) in
  D <= BHOverflow.FLOAT_MAX ->
  BHOverflow.compute_acceleration s px py =
    Ok (- G * M s * dx / D, - G * M s * dy / D).
Proof.
  intros dx dy. set (X := dx * dx + dy * dy + 6 * 6). intros D HD.
  pose proof (softened_at_least_one dx dy) as HX. fold X in HX.
  pose proof (Rpower_three_halves_above X HX) as HXD. fold D in HXD.
  unfold BHOverflow.compute_acceleration, center. fold dx dy.
  destruct (Req_dec_T (math_hypot dx dy) 0) as [H0|Hn].
  - destruct (hypot_zero _ _ H0) as [E1 E2]. rewrite E1, E2.
    unfold Rdiv. now rewrite !Rmult_0_r, !Rmult_0_l.
  - rewrite hypot_square. fold X.
    unfold BHOverflow.overflowing.
    destruct (Rlt_dec BHOverflow.FLOAT_MAX X) as [Hbig|_]; [lra|].
    unfold BHOverflow.float_pow.
    rewrite float_pow_positive by lra.
    replace 1.5 with (3 / 2) by lra. fold D.
    destruct (Rlt_dec BHOverflow.FLOAT_MAX D) as [Hbig|_]; [lra|].
    cbn [bind BHOverflow.truediv].
    assert (Hd : D <> 0)
      by (pose proof (Rpower_positive X (3 / 2)) as HP; fold D in HP; lra).
    rewrite !truediv_ok by exact Hd. reflexivity.
Qed.

(** Where the sum of squares is a float and its power is not, the power
    raises. *)
Lemma overflow_band (s : Sim) (px py : R) :
  let dx := px - width s / 2 in
  let dy := py - height s / 2 in
  let X := dx * dx + dy * dy + 6 * 6 in
  X <= BHOverflow.FLOAT_MAX ->
  BHOverflow.FLOAT_MAX < Rpower X (3 / 2) ->
  BHOverflow.compute_acceleration s px py = Raise OverflowError.
Proof.
  intros dx dy X HX HD.
  unfold BHOverflow.compute_acceleration, center. fold dx dy.
  destruct (Req_dec_T (math_hypot dx dy) 0) as [H0|Hn].
  - exfalso. destruct (hypot_zero _ _ H0) as [E1 E2].
    assert (HX36 : X = 36) by (unfold X; rewrite E1, E2; ring).
    destruct float_max_bounds as [Hlo _].
    assert (Rpower X (3 / 2) <= BHOverflow.FLOAT_MAX); [|lra].
    rewrite HX36. apply Rpower_three_halves_within; lra.
  - rewrite hypot_square. fold X.
    unfold BHOverflow.overflowing.
    destruct (Rlt_dec BHOverflow.FLOAT_MAX X) as [Hbig|_]; [lra|].
    unfold BHOverflow.float_pow.
    pose proof (softened_at_least_one dx dy) as H1. fold X in H1.
    rewrite float_pow_positive by lra.
    replace 1.5 with (3 / 2) by lra.
    destruct (Rlt_dec BHOverflow.FLOAT_MAX (Rpower X (3 / 2))) as [_|Hn'];
      [reflexivity | lra].
Qed.

(** Where the sum of squares itself is [inf], so is the power, and the
    quotients are zero. *)
Lemma beyond_range (s : Sim) (px py : R) :
  let dx := px - width s / 2 in
  let dy := py - height s / 2 in
  BHOverflow.FLOAT_MAX < dx * dx + dy * dy + 6 * 6 ->
  BHOverflow.compute_acceleration s px py = Ok (0, 0).
Proof.
  intros dx dy HX.
  unfold BHOverflow.compute_acceleration, center. fold dx dy.
  destruct (Req_dec_T (math_hypot dx dy) 0) as [H0|Hn]; [reflexivity|].
  rewrite hypot_square.
  unfold BHOverflow.overflowing.
  destruct (Rlt_dec BHOverflow.FLOAT_MAX _) as [_|Hn']; [|lra].
  reflexivity.
Qed.

Lemma at_centre (s : Sim) :
  BHOverflow.compute_acceleration s (width s / 2) (height s / 2) = Ok (0, 0).
Proof.
  unfold BHOverflow.compute_acceleration, center.
  replace (width s / 2 - width s / 2) with 0 by ring.
  replace (height s / 2 - height s / 2) with 0 by ring.
  rewrite hypot_origin.
  destruct (Req_dec_T 0 0) as [_|Hn]; [reflexivity | now contradiction Hn].
Qed.


(** A tracer [1e103] pixels to the right of the initial attractor: the
    power raises. *)
Lemma far_right_raises :
  BHOverflow.compute_acceleration init 1e103 350 = Raise OverflowError.
Proof.
  destruct float_max_bounds as [Hlo Hhi].
  apply overflow_band; cbn [width height init]; unfold WIDTH, HEIGHT.
  - unfold BHOverflow.FLOAT_MAX. lra.
  - apply Rpower_three_halves_beyond; [lra|].
    apply Rlt_trans with (2e308 * 2e308).
    + apply Rmult_le_0_lt_compat; lra.
    + lra.
Qed.

(** A tracer on the screen, to the right of the initial attractor: it is
    pulled to the left. *)
Lemma on_screen_returns :
  exists ax ay,
    BHOverflow.compute_acceleration init 800 350 = Ok (ax, ay) /\
    ax < 0 /\ ay = 0.
Proof.
  destruct float_max_bounds as [Hlo Hhi].
  eexists. eexists. split.
  - apply in_range. cbn [width height init]. unfold WIDTH, HEIGHT.
    apply Rpower_three_halves_within; lra.
  - cbn [width height init M]. unfold WIDTH, HEIGHT, G.
    set (D := Rpower _ _).
    assert (HD : 0 < D) by apply Rpower_positive.
    split.
    + replace (- (10) * 40 * (800 - 1000 / 2) / D) with (- (120000 * / D))
        by (field; lra).
      assert (0 < 120000 * / D); [|lra].
      apply Rmult_lt_0_compat; [lra | now apply Rinv_0_lt_compat].
    + replace (350 - 700 / 2) with 0 by lra. unfold Rdiv.
      now rewrite Rmult_0_r, Rmult_0_l.
Qed.

(** There the two models of the force agree. *)
Lemma agree (s : Sim) (px py : R) :
  BHOverflow.representable s px py ->
  BHOverflow.compute_acceleration s px py = compute_acceleration s px py.
Proof.
  intros H. unfold BHOverflow.representable, center in H.
  rewrite in_range by exact H.
  now rewrite BHForce.compute_acceleration_value.
Qed.

(** A particle at such a position gets the kick of the force at that
    position and then drifts with its new velocity. *)
Lemma moved_in_range (s : Sim) (p : Particle) :
  BHOverflow.representable s (x p) (y p) ->
  exists ax ay,
    BHOverflow.compute_acceleration s (x p) (y p) = Ok (ax, ay) /\
    vx (moved s p) = vx p + ax * dt s /\
    vy (moved s p) = vy p + ay * dt s /\
    x (moved s p) = x p + vx (moved s p) * dt s /\
    y (moved s p) = y p + vy (moved s p) * dt s.
Proof.
  intros H. pose proof (agree s (x p) (y p) H) as Hagree.
  destruct (BHForce.compute_acceleration_total s (x p) (y p))
    as (ax & ay & Ha).
  exists ax, ay. split; [congruence|].
  now apply BHStep.moved_kick_drift.
Qed.

Lemma Forall2_map_Forall {A B : Type} (P : A -> B -> Prop) (Q : A -> Prop)
    (f : A -> B) (l : list A) :
  Forall Q l -> (forall a, Q a -> P a (f a)) -> Forall2 P l (map f l).
Proof.
  intros HQ HP. induction HQ as [|a l Ha _ IH]; simpl; constructor; auto.
Qed.

End BHRange.

(** C7.  The code departs from it far from the centre.  With the fixed
    softening length [s = 6 > 0], [compute_acceleration] returns
    [-G * M * (p - center) / (|p - center|^2 + s^2)^(3/2)], a value
    computed from the position, the centre and the current mass [M] alone,
    at every position where that power is a float, and exactly [(0, 0)] at
    the centre.  Where [|p - center|^2 + s^2] is a float and its power
    [3/2] is beyond the largest float, the operator [**] raises
    [OverflowError] and nothing is returned: so for the initial attractor
    at the position [(1e103, 350)].  Further out, where the sum of squares
    is [inf], the function returns zero. *)
Theorem acceleration_formula_and_overflow (s : BH.Sim) (px py : R) :
  let cx := fst (BH.center s) in
  let cy := snd (BH.center s) in
  let soft := 6 in
  let X := (px - cx) * (px - cx) + (py - cy) * (py - cy) + soft * soft in
  let denom := Rpower X (3 / 2) in
  0 < soft /\
  (denom <= BHOverflow.FLOAT_MAX ->
   BHOverflow.compute_acceleration s px py =
     Ok (- BH.G * BH.M s * (px - cx) / denom,
         - BH.G * BH.M s * (py - cy) / denom)) /\
  BHOverflow.compute_acceleration s cx cy = Ok (0, 0) /\
  (X <= BHOverflow.FLOAT_MAX -> BHOverflow.FLOAT_MAX < denom ->
   BHOverflow.compute_acceleration s px py = Raise OverflowError) /\
  (BHOverflow.FLOAT_MAX < X ->
   BHOverflow.compute_acceleration s px py = Ok (0, 0)) /\
  BHOverflow.compute_acceleration BH.init 1e103 350 = Raise OverflowError /\
  (exists ax ay,
     BHOverflow.compute_acceleration BH.init 800 350 = Ok (ax, ay) /\
     ax < 0 /\ ay = 0).
Proof.
  simpl. split; [lra|].
  split; [apply BHRange.in_range|].
  split; [apply BHRange.at_centre|].
  split; [apply BHRange.overflow_band|].
  split; [apply BHRange.beyond_range|].
  split; [apply BHRange.far_right_raises | apply BHRange.on_screen_returns].
Qed.

(** C1.  Mode a: for a store of distinct particles at positions where the
    force model returns, [step] returns, and every particle of the store
    got one kick and one drift: its velocity is the old one plus [a * dt],
    with [a] the acceleration at the position the particle had before the
    update, and its position is the old one plus the new velocity times
    [dt]; the store after the tick holds these particles, minus the
    captured ones.  Where that acceleration is zero the position becomes
    [pos + vel * dt] and the velocity stays what it was.  Mode b: [_loop]
    of a running simulation is [_step] with [dt * speed]; [_step] adds
    [GRAVITY * dt] to the vertical velocity of every disc, moves the disc
    by the new velocity times [dt] and hands it to the wall handler, then
    runs the collision sweep; a disc alone in the store that stays inside
    the walls ends the step at [x + vx * dt] with [vx] unchanged, the
    horizontal acceleration being zero. *)
Theorem symplectic_euler_order (s : BH.Sim) (t : E.Sim) (dt0 : R) :
  NoDup (map BH.oid (BH.particles s)) ->
  Forall (fun p => BHOverflow.representable s (BH.x p) (BH.y p))
         (BH.particles s) ->
  (exists qs : list BH.Particle,
     BH.step s =
       Ok (BH.set_particles s (filter (fun q => negb (BH.captured s q)) qs)) /\
     Forall2
       (fun p q =>
          exists ax ay,
            BHOverflow.compute_acceleration s (BH.x p) (BH.y p) = Ok (ax, ay) /\
            BH.vx q = BH.vx p + ax * BH.dt s /\
            BH.vy q = BH.vy p + ay * BH.dt s /\
            BH.x q = BH.x p + BH.vx q * BH.dt s /\
            BH.y q = BH.y p + BH.vy q * BH.dt s /\
            (ax = 0 -> ay = 0 ->
             BH.x q = BH.x p + BH.vx p * BH.dt s /\
             BH.y q = BH.y p + BH.vy p * BH.dt s /\
             BH.vx q = BH.vx p /\ BH.vy q = BH.vy p))
       (BH.particles s) qs) /\
  (exists ps1 : list E.Particle,
     Forall2
       (fun p q =>
          let vy' := E.vy p + E.GRAVITY * dt0 in
          q = E._handle_wall_collision
                (E.mkParticle (E.x p + E.vx p * dt0) (E.y p + vy' * dt0)
                              (E.vx p) vy' (E.r p) (E.m p) (E.color p)))
       (E.particles t) ps1 /\
     E._step dt0 t =
       (ps2 <- E._resolve_collisions ps1 ;;
        Ok (E.mkSim ps2 (E.running t) (E.speed t) (E.dt t)))) /\
  (forall p : E.Particle,
     E.particles t = [p] ->
     let vy' := E.vy p + E.GRAVITY * dt0 in
     let q := E.mkParticle (E.x p + E.vx p * dt0) (E.y p + vy' * dt0)
                           (E.vx p) vy' (E.r p) (E.m p) (E.color p) in
     EPhysics.inside q ->
     E._step dt0 t = Ok (E.mkSim [q] (E.running t) (E.speed t) (E.dt t))) /\
  (E.running t = true -> E._loop t = E._step (E.dt t * E.speed t) t) /\
  (E.running t = false -> E._loop t = Ok t).
Proof.
  intros Hnd Hrep.
  assert (Hint : forall p : E.Particle,
            E.integrate dt0 p =
              E.mkParticle (E.x p + E.vx p * dt0)
                           (E.y p + (E.vy p + E.GRAVITY * dt0) * dt0)
                           (E.vx p) (E.vy p + E.GRAVITY * dt0)
                           (E.r p) (E.m p) (E.color p)).
  { intros p. unfold E.integrate, E.FRICTION. f_equal; ring. }
  split; [|split; [|split; [|split]]].
  - exists (map (BH.moved s) (BH.particles s)).
    split; [now apply BHStep.step_spec|].
    apply BHRange.Forall2_map_Forall
      with (Q := fun p => BHOverflow.representable s (BH.x p) (BH.y p));
      [exact Hrep|].
    intros p Hp.
    destruct (BHRange.moved_in_range s p Hp)
      as (ax & ay & Ha & Hvx & Hvy & Hx & Hy).
    exists ax, ay. repeat (split; [assumption|]).
    intros Hax Hay. rewrite Hax in Hvx. rewrite Hay in Hvy.
    rewrite Hx, Hy, Hvx, Hvy. repeat split; ring.
  - exists (map (fun p => E._handle_wall_collision (E.integrate dt0 p))
                (E.particles t)).
    split; [|reflexivity].
    apply BHStep.Forall2_map_r. intros p. cbv zeta. now rewrite Hint.
  - intros p Hp vy' q Hq.
    rewrite (EWall.step_single dt0 t p Hp), Hint.
    fold vy'. fold q. now rewrite EWall.wall_inside.
  - intros Hrun. unfold E._loop. now rewrite Hrun.
  - intros Hrun. unfold E._loop. now rewrite Hrun.
Qed.

Lemma symplectic_euler_order_witness :
  (exists q : BH.Particle,
     BH.step through_centre = Ok (BH.set_particles through_centre [q]) /\
     BH.x q = 600 /\ BH.y q = 350 /\ BH.vx q = 6000 /\ BH.vy q = 0) /\
  E._loop one_disc =
    Ok (E.mkSim
          [E.mkParticle (400 + 30 * (0.016 * 1))
                        (300 + (-20 + E.GRAVITY * (0.016 * 1)) * (0.016 * 1))
                        30 (-20 + E.GRAVITY * (0.016 * 1)) 18 324 EmptyString]
          true 1 0.016).
Proof.
  pose proof BHRange.float_max_bounds as [Hlo _].
  destruct (symplectic_euler_order through_centre one_disc (0.016 * 1))
    as ((qs & Hstep & Hfa) & _ & Hsingle & Hloop & _).
  { simpl. repeat constructor. simpl. tauto. }
  { simpl. constructor; [|constructor].
    unfold BHOverflow.representable. simpl. unfold BH.WIDTH, BH.HEIGHT.
    apply BHRange.Rpower_three_halves_within; lra. }
  split.
  - simpl in Hfa.
    inversion Hfa as [|p q ps qs' Hpq Hrest]; subst.
    inversion Hrest; subst.
    destruct Hpq as (ax & ay & Hacc & _ & _ & _ & _ & Hzero).
    cbn [BH.x BH.y BH.vx BH.vy] in Hacc, Hzero.
    assert (Hc : BHOverflow.compute_acceleration through_centre 500 350
                 = Ok (0, 0)).
    { replace 500 with (BH.width through_centre / 2)
        by (simpl; unfold BH.WIDTH; lra).
      replace 350 with (BH.height through_centre / 2)
        by (simpl; unfold BH.HEIGHT; lra).
      apply BHRange.at_centre. }
    rewrite Hc in Hacc. injection Hacc as <- <-.
    destruct (Hzero eq_refl eq_refl) as (Hx & Hy & Hvx & Hvy).
    unfold BH.FPS in Hx, Hy.
    assert (Hx600 : BH.x q = 600) by lra.
    assert (Hy350 : BH.y q = 350) by lra.
    assert (Hfree : BH.captured through_centre q = false).
    { unfold BH.captured, BH.schwarzschild_radius, BH.center.
      rewrite Hx600, Hy350. simpl. unfold BH.WIDTH, BH.HEIGHT.
      replace (600 - 1000 / 2) with 100 by lra.
      replace (350 - 700 / 2) with 0 by lra.
      unfold math_hypot.
      replace (100 * 100 + 0 * 0) with (100 * 100) by lra.
      rewrite sqrt_square by lra.
      destruct (Rle_dec 100 (2 * 40)) as [H|_]; [lra | reflexivity]. }
    exists q. split.
    + rewrite Hstep. cbn [filter]. rewrite Hfree. reflexivity.
    + repeat split; assumption.
  - rewrite Hloop by reflexivity.
    apply (Hsingle mid_air eq_refl).
    unfold EPhysics.inside. simpl. unfold E.WIDTH, E.HEIGHT, E.GRAVITY. lra.
Defined.



(* ================================================================== *)
(** ** Further properties of [e.py] *)

Module EConserve.
Import E EPhysics.

Lemma total_setitem (f : Particle -> R) (l : list Particle) (i : nat)
    (q q' : Particle) :
  nth_error l i = Some q ->
  total f (setitem l i q') = total f l - f q + f q'.
Proof.
  revert i. induction l as [|h l IH]; intros [|i] H; simpl in *;
    try discriminate.
  - injection H as ->. ring.
  - rewrite (IH i H). ring.
Qed.

Lemma nth_error_setitem_other (l : list Particle) (i j : nat)
    (q' : Particle) :
  i <> j -> nth_error (setitem l i q') j = nth_error l j.
Proof.
  revert i j. induction l as [|h l IH]; intros [|i] [|j] H; simpl;
    try reflexivity; try contradiction.
  apply IH. lia.
Qed.

Lemma getitem_ok (l : list Particle) (i : nat) (q : Particle) :
  getitem l i = Ok q -> nth_error l i = Some q.
Proof.
  unfold getitem. destruct (nth_error l i); [|discriminate].
  intros H. now injection H as ->.
Qed.

(** What [collide] has computed when it returns. *)
Lemma collide_inv (e : R) (a b a' b' : Particle) (dx dy dist2 radii : R) :
  collide e a b dx dy dist2 radii = Ok (a', b') ->
  let d := sqrt dist2 in
  let nx := dx / d in
  let ny := dy / d in
  let overlap := radii - d in
  let vn := (vx b - vx a) * nx + (vy b - vy a) * ny in
  let j := - (1 + e) * vn / (1 / m a + 1 / m b) in
  d <> 0 /\ m a + m b <> 0 /\
  x a' = x a - nx * (overlap * (m b / (m a + m b))) /\
  y a' = y a - ny * (overlap * (m b / (m a + m b))) /\
  x b' = x b + nx * (overlap * (m a / (m a + m b))) /\
  y b' = y b + ny * (overlap * (m a / (m a + m b))) /\
  body a' = body a /\ body b' = body b /\
  ((0 < vn /\ vx a' = vx a /\ vy a' = vy a /\ vx b' = vx b /\ vy b' = vy b)
   \/
   (vn <= 0 /\ m a <> 0 /\ m b <> 0 /\ 1 / m a + 1 / m b <> 0 /\
    vx a' = vx a - j * nx / m a /\ vy a' = vy a - j * ny / m a /\
    vx b' = vx b + j * nx / m b /\ vy b' = vy b + j * ny / m b)).
Proof.
  unfold collide, math_sqrt.
  destruct (Rlt_dec dist2 0); [discriminate|]. cbn [bind].
  unfold truediv at 1. destruct (Req_dec_T (sqrt dist2) 0); [discriminate|].
  cbn [bind].
  unfold truediv at 1. destruct (Req_dec_T (sqrt dist2) 0); [contradiction|].
  cbn [bind].
  unfold truediv at 1. destruct (Req_dec_T (m a + m b) 0); [discriminate|].
  cbn [bind].
  unfold truediv at 1. destruct (Req_dec_T (m a + m b) 0); [contradiction|].
  cbn [bind].
  destruct (Rlt_dec 0 _) as [Hsep|Happ].
  - intros H. injection H as <- <-. cbn [x y vx vy r m color body].
    repeat split; auto. left. repeat split; auto.
  - unfold truediv at 1. destruct (Req_dec_T (m a) 0); [discriminate|].
    cbn [bind].
    unfold truediv at 1. destruct (Req_dec_T (m b) 0); [discriminate|].
    cbn [bind].
    unfold truediv at 1.
    destruct (Req_dec_T (1 / m a + 1 / m b) 0); [discriminate|].
    cbn [bind]. unfold truediv.
    destruct (Req_dec_T (m a) 0); [contradiction|].
    destruct (Req_dec_T (m b) 0); [contradiction|].
    cbn [bind].
    intros H. injection H as <- <-. cbn [x y vx vy r m color body].
    repeat split; auto. right. repeat split; auto. lra.
Qed.

(** When [resolve_pair] returns, either it has left the pair alone or it
    has run [collide] on a pair with distinct centres. *)
Lemma resolve_pair_inv (a b a' b' : Particle) :
  resolve_pair a b = Ok (a', b') ->
  (a' = a /\ b' = b) \/
  (let dx := x b - x a in
   let dy := y b - y a in
   0 < dx * dx + dy * dy /\
   dx * dx + dy * dy <= (r a + r b) * (r a + r b) /\
   collide 0.95 a b dx dy (dx * dx + dy * dy) (r a + r b) = Ok (a', b')).
Proof.
  unfold resolve_pair.
  destruct (Rle_dec _ _) as [Hle|];
    [destruct (Rlt_dec 0 _) as [Hpos|]|].
  - intros H. right. auto.
  - intros H. injection H as <- <-. now left.
  - intros H. injection H as <- <-. now left.
Qed.

Section Monotone.

(** A property of discs [resolve_pair] keeps, and a quantity of discs
    whose sum over a pair [resolve_pair] does not increase. *)
Variable Inv : Particle -> Prop.
Variable f : Particle -> R.

Hypothesis pair_step : forall a b a' b',
  Inv a -> Inv b -> resolve_pair a b = Ok (a', b') ->
  Inv a' /\ Inv b' /\ f a' + f b' <= f a + f b.

Lemma row_monotone (i : nat) (js : list nat) (ps ps' : list Particle) :
  Forall Inv ps -> (forall j, In j js -> j <> i) ->
  resolve_row i js ps = Ok ps' ->
  Forall Inv ps' /\ total f ps' <= total f ps.
Proof.
  revert ps. induction js as [|j js IH]; intros ps Hinv Hjs H.
  - simpl in H. injection H as <-. split; [exact Hinv | lra].
  - cbn [resolve_row] in H.
    destruct (getitem ps i) as [a|] eqn:Ea; [|discriminate].
    destruct (getitem ps j) as [b|] eqn:Eb; [|discriminate].
    cbn [bind] in H.
    destruct (resolve_pair a b) as [[a' b']|] eqn:Er; [|discriminate].
    cbn [bind] in H.
    apply getitem_ok in Ea. apply getitem_ok in Eb.
    assert (Hij : i <> j) by (intros ->; now apply (Hjs j (or_introl eq_refl))).
    pose proof Hinv as Hall. rewrite Forall_forall in Hall.
    destruct (pair_step a b a' b') as (Ha' & Hb' & Hf); auto.
    { apply Hall. eapply nth_error_In, Ea. }
    { apply Hall. eapply nth_error_In, Eb. }
    destruct (IH (setitem (setitem ps i a') j b')) as [Hinv' Htot]; auto.
    + apply ESweep.setitem_Forall; [apply ESweep.setitem_Forall|]; auto.
    + intros j' Hin. apply Hjs. now right.
    + split; [exact Hinv'|].
      rewrite (total_setitem f (setitem ps i a') j b b') in Htot
        by (rewrite nth_error_setitem_other by exact Hij; exact Eb).
      rewrite (total_setitem f ps i a a' Ea) in Htot. lra.
Qed.

Lemma rows_monotone (n : nat) (rows : list nat) (ps ps' : list Particle) :
  Forall Inv ps -> resolve_rows n rows ps = Ok ps' ->
  Forall Inv ps' /\ total f ps' <= total f ps.
Proof.
  revert ps. induction rows as [|i rows IH]; intros ps Hinv H.
  - simpl in H. injection H as <-. split; [exact Hinv | lra].
  - cbn [resolve_rows] in H.
    destruct (resolve_row i _ ps) as [ps1|] eqn:Er; [|discriminate].
    cbn [bind] in H.
    destruct (row_monotone i (seq (i + 1) (n - (i + 1))) ps ps1 Hinv)
      as [Hinv1 H1]; [|exact Er|].
    + intros j Hj. apply in_seq in Hj. lia.
    + destruct (IH ps1 Hinv1 H) as [Hinv' H']. split; [exact Hinv' | lra].
Qed.

Lemma sweep_monotone (ps ps' : list Particle) :
  Forall Inv ps -> _resolve_collisions ps = Ok ps' ->
  Forall Inv ps' /\ total f ps' <= total f ps.
Proof. unfold _resolve_collisions. apply rows_monotone. Qed.

End Monotone.

End EConserve.

Module EPair.
Import E EPhysics.

Lemma body_eq (q q' : Particle) :
  body q' = body q -> r q' = r q /\ m q' = m q /\ color q' = color q.
Proof. unfold body. intros H. injection H as -> -> ->. auto. Qed.

(** The impulse and the positional correction are equal and opposite:
    [resolve_pair] keeps the momentum of the pair and its centre of
    mass. *)
Lemma pair_conserves (a b a' b' : Particle) :
  resolve_pair a b = Ok (a', b') ->
  momentum_x a' + momentum_x b' = momentum_x a + momentum_x b /\
  momentum_y a' + momentum_y b' = momentum_y a + momentum_y b /\
  moment_x a' + moment_x b' = moment_x a + moment_x b /\
  moment_y a' + moment_y b' = moment_y a + moment_y b /\
  body a' = body a /\ body b' = body b.
Proof.
  intros H. apply EConserve.resolve_pair_inv in H as [[-> ->]|(_ & _ & H)];
    [repeat split|].
  apply EConserve.collide_inv in H. cbv zeta in H.
  destruct H as (Hd & HM & Hxa & Hya & Hxb & Hyb & Hba & Hbb & Hv).
  destruct (body_eq _ _ Hba) as (_ & Hma & _).
  destruct (body_eq _ _ Hbb) as (_ & Hmb & _).
  unfold momentum_x, momentum_y, moment_x, moment_y.
  rewrite Hma, Hmb, Hxa, Hya, Hxb, Hyb.
  set (nx := (x b - x a) / sqrt _) in *.
  set (ny := (y b - y a) / sqrt _) in *.
  set (ov := r a + r b - sqrt _) in *.
  destruct Hv as [(_ & -> & -> & -> & ->)
                 |(_ & Hmanz & Hmbnz & HS & -> & -> & -> & ->)].
  - repeat split; try assumption; field; exact HM.
  - set (j := _ / (1 / m a + 1 / m b)).
    repeat split; try assumption; field; auto.
Qed.

(** The relative velocity along the normal after [collide], and the
    change of kinetic energy, for positive masses. *)
Lemma collide_normal_velocity (a b : Particle) :
  0 < m a -> 0 < m b ->
  let dx := x b - x a in
  let dy := y b - y a in
  0 < dx * dx + dy * dy ->
  let d := sqrt (dx * dx + dy * dy) in
  let nx := dx / d in
  let ny := dy / d in
  let vn := (vx b - vx a) * nx + (vy b - vy a) * ny in
  exists a' b',
    collide 0.95 a b dx dy (dx * dx + dy * dy) (r a + r b) = Ok (a', b') /\
    m a' = m a /\ m b' = m b /\
    let vn' := (vx b' - vx a') * nx + (vy b' - vy a') * ny in
    (0 < vn -> vn' = vn) /\
    (vn <= 0 -> vn' = - 0.95 * vn) /\
    (vx a' - vx a) * (- ny) + (vy a' - vy a) * nx = 0 /\
    (vx b' - vx b) * (- ny) + (vy b' - vy b) * nx = 0 /\
    kinetic_energy a' + kinetic_energy b'
      <= kinetic_energy a + kinetic_energy b.
Proof.
  intros Hma Hmb dx dy Hpos d nx ny vn.
  rewrite ECollide.collide_ok by assumption.
  fold d nx ny vn.
  eexists. eexists. split; [reflexivity|].
  cbn [x y vx vy r m color]. split; [reflexivity|]. split; [reflexivity|].
  assert (Hunit : nx * nx + ny * ny = 1)
    by apply (ECollide.normal_unit dx dy Hpos).
  pose proof (ECollide.inverse_mass_sum_nonzero (m a) (m b) Hma Hmb) as HS.
  assert (HSpos : 0 < 1 / m a + 1 / m b).
  { assert (0 < 1 / m a) by (apply Rdiv_lt_0_compat; lra).
    assert (0 < 1 / m b) by (apply Rdiv_lt_0_compat; lra). lra. }
  set (j := - (1 + 0.95) * vn / (1 / m a + 1 / m b)).
  assert (Hj : j * (1 / m a + 1 / m b) = - (1 + 0.95) * vn).
  { unfold j. set (k := - (1 + 0.95)).
    set (S := 1 / m a + 1 / m b) in *. field. exact HS. }
  unfold kinetic_energy. cbn [x y vx vy r m color].
  destruct (Rlt_dec 0 vn) as [Hsep|Happ].
  - split; [intros _; unfold vn; ring|]. split; [intros; lra|].
    split; [ring|]. split; [ring|]. lra.
  - assert (Hvn' : (vx b + j * nx / m b - (vx a - j * nx / m a)) * nx
                   + (vy b + j * ny / m b - (vy a - j * ny / m a)) * ny
                   = - 0.95 * vn).
    { transitivity (vn + j * (1 / m a + 1 / m b) * (nx * nx + ny * ny));
        [unfold vn; field; lra|].
      rewrite Hunit, Rmult_1_r, Hj. lra. }
    split; [intros; lra|]. split; [intros _; exact Hvn'|].
    split; [field; lra|]. split; [field; lra|].
    assert (Hdiff :
      m a * ((vx a - j * nx / m a) * (vx a - j * nx / m a)
             + (vy a - j * ny / m a) * (vy a - j * ny / m a)) / 2
      + m b * ((vx b + j * nx / m b) * (vx b + j * nx / m b)
               + (vy b + j * ny / m b) * (vy b + j * ny / m b)) / 2
      = m a * (vx a * vx a + vy a * vy a) / 2
        + m b * (vx b * vx b + vy b * vy b) / 2
        + (j * vn
           + j * (j * (1 / m a + 1 / m b)) * (nx * nx + ny * ny) / 2)).
    { unfold vn. field. lra. }
    rewrite Hdiff, Hunit, Hj.
    assert (Hjvn : j * vn <= 0).
    { assert (Hprod : j * vn * (1 / m a + 1 / m b) = - (1 + 0.95) * (vn * vn))
        by (replace (- (1 + 0.95) * (vn * vn))
              with (- (1 + 0.95) * vn * vn) by ring;
            rewrite <- Hj; ring).
      pose proof (Rle_0_sqr vn) as Hsq. unfold Rsqr in Hsq.
      apply Rmult_le_reg_r with (r := 1 / m a + 1 / m b); [exact HSpos|].
      rewrite Hprod. lra. }
    lra.
Qed.

End EPair.

Module EBodies.
Import E EPhysics.

Lemma map_body_setitem (l : list Particle) (i : nat) (q q' : Particle) :
  nth_error l i = Some q -> body q' = body q ->
  map body (setitem l i q') = map body l.
Proof.
  revert i. induction l as [|h l IH]; intros [|i] H Hb; simpl in *;
    try discriminate.
  - injection H as ->. now rewrite Hb.
  - f_equal. now apply IH.
Qed.

Lemma row_keeps_bodies (i : nat) (js : list nat) (ps ps' : list Particle) :
  (forall j, In j js -> j <> i) ->
  resolve_row i js ps = Ok ps' -> map body ps' = map body ps.
Proof.
  revert ps. induction js as [|j js IH]; intros ps Hjs H.
  - simpl in H. now injection H as <-.
  - cbn [resolve_row] in H.
    destruct (getitem ps i) as [a|] eqn:Ea; [|discriminate].
    destruct (getitem ps j) as [b|] eqn:Eb; [|discriminate].
    cbn [bind] in H.
    destruct (resolve_pair a b) as [[a' b']|] eqn:Er; [|discriminate].
    cbn [bind] in H.
    apply EConserve.getitem_ok in Ea. apply EConserve.getitem_ok in Eb.
    assert (Hij : i <> j) by (intros ->; now apply (Hjs j (or_introl eq_refl))).
    destruct (EPair.pair_conserves a b a' b' Er) as (_ & _ & _ & _ & Hba & Hbb).
    rewrite (IH _ (fun j' Hin => Hjs j' (or_intror Hin)) H).
    rewrite (map_body_setitem (setitem ps i a') j b b')
      by (rewrite ?EConserve.nth_error_setitem_other by exact Hij; assumption).
    now apply (map_body_setitem ps i a a').
Qed.

Lemma sweep_keeps_bodies (ps ps' : list Particle) :
  _resolve_collisions ps = Ok ps' -> map body ps' = map body ps.
Proof.
  unfold _resolve_collisions. generalize (List.length ps) as n.
  intros n. generalize (seq 0 n) as rows. intros rows. revert ps.
  induction rows as [|i rows IH]; intros ps H.
  - simpl in H. now injection H as <-.
  - cbn [resolve_rows] in H.
    destruct (resolve_row i _ ps) as [ps1|] eqn:Er; [|discriminate].
    cbn [bind] in H. rewrite (IH ps1 H).
    eapply row_keeps_bodies; [|exact Er].
    intros j Hj. apply in_seq in Hj. lia.
Qed.

Lemma wall_integrate_body (dt0 : R) (q : Particle) :
  body (_handle_wall_collision (integrate dt0 q)) = body q.
Proof.
  destruct (EWall.wall_keeps_body (integrate dt0 q)) as (Hr & Hm & Hc).
  unfold body. now rewrite Hr, Hm, Hc.
Qed.

End EBodies.



(** X13.  Collisions never add kinetic energy: on a store of positive
    masses the sweep returns, and the total of [m * (vx^2 + vy^2) / 2]
    after it is at most what it was before. *)
Theorem sweep_dissipates (ps : list E.Particle) :
  Forall (fun p => 0 < E.m p) ps ->
  exists ps',
    E._resolve_collisions ps = Ok ps' /\
    EPhysics.total EPhysics.kinetic_energy ps'
    <= EPhysics.total EPhysics.kinetic_energy ps.
Proof.
  intros Hm.
  destruct (ESweep.resolve_collisions_total ps Hm) as (ps' & Hrun & _).
  exists ps'. split; [exact Hrun|].
  refine (proj2 (EConserve.sweep_monotone (fun p => 0 < E.m p)
                   EPhysics.kinetic_energy _ ps ps' Hm Hrun)).
  intros a b a' b' Ha Hb H.
  apply EConserve.resolve_pair_inv in H as [[-> ->]|(Hpos & _ & H)].
  - repeat split; auto. lra.
  - destruct (EPair.collide_normal_velocity a b Ha Hb Hpos)
      as (a1 & b1 & Hres & Hma & Hmb & _ & _ & _ & _ & Hke).
    rewrite Hres in H. injection H as <- <-.
    rewrite Hma, Hmb. auto.
Qed.

Lemma sweep_dissipates_witness :
  exists ps',
    E._resolve_collisions [head_on_left; head_on_right] = Ok ps' /\
    EPhysics.total EPhysics.kinetic_energy ps'
    <= EPhysics.total EPhysics.kinetic_energy [head_on_left; head_on_right].
Proof.
  apply (sweep_dissipates [head_on_left; head_on_right]).
  repeat constructor; simpl; lra.
Defined.

(** X14.  A step never raises on a store of positive masses, and it
    neither creates, removes nor reorders discs, nor changes the radius,
    mass or colour of any: only positions and velocities move.  The flags
    and the speed of the simulation are left alone. *)
Theorem step_keeps_bodies (dt0 : R) (s : E.Sim) :
  Forall (fun p => 0 < E.m p) (E.particles s) ->
  exists s',
    E._step dt0 s = Ok s' /\
    map EPhysics.body (E.particles s') = map EPhysics.body (E.particles s) /\
    E.running s' = E.running s /\ E.speed s' = E.speed s /\
    E.dt s' = E.dt s.
Proof.
  intros Hm. destruct (ESweep.step_total dt0 s Hm) as (s' & Hstep & _).
  exists s'. split; [exact Hstep|].
  unfold E._step in Hstep.
  destruct (E._resolve_collisions _) as [ps2|] eqn:Er; [|discriminate].
  cbn [bind] in Hstep. injection Hstep as <-.
  cbn [E.particles E.running E.speed E.dt]. repeat split.
  rewrite (EBodies.sweep_keeps_bodies _ _ Er), map_map.
  apply map_ext. intros q. apply EBodies.wall_integrate_body.
Qed.

Lemma step_keeps_bodies_witness :
  exists s',
    E._step 0.016 (E.mkSim [head_on_left; head_on_right] true 1 0.016)
      = Ok s' /\
    map EPhysics.body (E.particles s')
    = [(18, 324, EmptyString); (18, 324, EmptyString)].
Proof.
  destruct (step_keeps_bodies 0.016
              (E.mkSim [head_on_left; head_on_right] true 1 0.016))
    as (s' & Hstep & Hb & _).
  { repeat constructor; simpl; lra. }
  exists s'. split; [exact Hstep | exact Hb].
Defined.

Module EOverlap.
Import E EPhysics.

Lemma overlap_sym (a b : Particle) : _overlap a b = _overlap b a.
Proof.
  unfold _overlap.
  replace ((x b - x a) * (x b - x a) + (y b - y a) * (y b - y a))
    with ((x a - x b) * (x a - x b) + (y a - y b) * (y a - y b)) by ring.
  replace (r b + r a) with (r a + r b) by ring. reflexivity.
Qed.

End EOverlap.

(** X16.  The wall handler leaves a disc that lies inside the domain
    exactly as it is, and for a disc that fits in the domain handling
    twice is handling once: what the handler returns lies inside. *)
Theorem wall_handler_idempotent (p : E.Particle) :
  2 * E.r p <= E.WIDTH -> 2 * E.r p <= E.HEIGHT ->
  (EPhysics.inside p -> E._handle_wall_collision p = p) /\
  EPhysics.inside (E._handle_wall_collision p) /\
  E._handle_wall_collision (E._handle_wall_collision p)
  = E._handle_wall_collision p.
Proof.
  intros Hw Hh.
  assert (Hin : forall q, EPhysics.inside q -> E._handle_wall_collision q = q).
  { intros q [[Hx1 Hx2] [Hy1 Hy2]]. unfold E._handle_wall_collision.
    destruct (Rlt_dec (E.x q - E.r q) 0); [lra|].
    destruct (Rlt_dec E.WIDTH (E.x q + E.r q)); [lra|].
    destruct (Rlt_dec (E.y q - E.r q) 0); [lra|].
    destruct (Rlt_dec E.HEIGHT (E.y q + E.r q)); [lra|]. reflexivity. }
  assert (Hq : EPhysics.inside (E._handle_wall_collision p)).
  { pose proof (EWall.wall_x_cases p Hw) as Hx.
    pose proof (EWall.wall_y_cases p Hh) as Hy. cbv zeta in Hx, Hy.
    destruct (EWall.wall_keeps_body p) as (Hr & _ & _).
    unfold EPhysics.inside. rewrite Hr.
    split.
    - destruct Hx as [(_ & -> & _)|[(_ & _ & -> & _)|(? & ? & -> & _)]]; lra.
    - destruct Hy as [(_ & -> & _)|[(_ & _ & -> & _)|(? & ? & -> & _)]]; lra. }
  split; [apply Hin|]. split; [exact Hq|]. now apply Hin.
Qed.

Lemma wall_handler_idempotent_witness :
  E._handle_wall_collision (E._handle_wall_collision inbound_at_left_wall)
  = E._handle_wall_collision inbound_at_left_wall.
Proof.
  apply (wall_handler_idempotent inbound_at_left_wall);
    simpl; unfold E.WIDTH, E.HEIGHT; lra.
Defined.

Section DrawsOk.

Context {A B : Type}.

Lemma draws_ok_cret (a : A) (Q : A -> Prop) : Q a -> draws_ok (cret a) Q.
Proof. intros HQ g Hg. now exists a, g. Qed.

Lemma draws_ok_cbind (c : Cmd A) (k : A -> Cmd B) (P : A -> Prop)
    (Q : B -> Prop) :
  draws_ok c P -> (forall a, P a -> draws_ok (k a) Q) ->
  draws_ok (cbind c k) Q.
Proof.
  intros Hc Hk g Hg. destruct (Hc g Hg) as (a & g1 & Ha & Hg1 & HP).
  destruct (Hk a HP g1 Hg1) as (b & g2 & Hb & Hg2 & HQ).
  exists b, g2. unfold cbind. rewrite Ha. auto.
Qed.

Lemma draws_ok_weaken (c : Cmd A) (P Q : A -> Prop) :
  draws_ok c P -> (forall a, P a -> Q a) -> draws_ok c Q.
Proof.
  intros Hc HPQ g Hg. destruct (Hc g Hg) as (a & g' & Ha & Hg' & HP).
  exists a, g'. auto.
Qed.

End DrawsOk.

Lemma draws_ok_uniform (lo hi : R) :
  lo <= hi -> draws_ok (draw (Random.uniform lo hi)) (fun v => lo <= v <= hi).
Proof.
  intros Hle g Hg. unfold draw, Random.uniform, Random.random.
  eexists. eexists. split; [reflexivity|]. split.
  - intros i. apply Hg.
  - destruct (Hg (Random.cursor g)) as [H0 H1]. split; nra.
Qed.

Lemma draws_ok_randbelow (n : nat) :
  draws_ok (draw (Random.randbelow n)) (fun _ => True).
Proof.
  intros g Hg. unfold draw, Random.randbelow.
  eexists. eexists. split; [reflexivity|]. split; [|exact I].
  intros i. apply Hg.
Qed.

Module EInit.
Import E EPhysics.

Lemma random_color_ok : draws_ok random_color (fun _ => True).
Proof.
  unfold random_color.
  apply draws_ok_cbind with (P := fun _ => True).
  - generalize 6%nat as k. intros k. induction k as [|k IH];
      cbn [random_digits].
    + now apply draws_ok_cret.
    + eapply draws_ok_cbind; [apply draws_ok_randbelow|]. intros i _.
      eapply draws_ok_cbind; [exact IH|]. intros rest _.
      now apply draws_ok_cret.
  - intros ds _. now apply draws_ok_cret.
Qed.

Lemma ForallOrdPairs_snoc {T : Type} (Rel : T -> T -> Prop) (l : list T)
    (t : T) :
  ForallOrdPairs Rel l -> Forall (fun u => Rel u t) l ->
  ForallOrdPairs Rel (l ++ [t]).
Proof.
  intros Hl Ht. induction Hl as [|u l Hu Hl IH]; simpl.
  - repeat constructor.
  - inversion Ht as [|? ? Hut Ht']; subst.
    constructor; [|now apply IH].
    apply Forall_app. split; [exact Hu | now constructor].
Qed.

Lemma init_loop_tidy (n budget : nat) (ps : list Particle) :
  tidy n ps -> draws_ok (init_loop n budget ps) (tidy n).
Proof.
  revert ps. induction budget as [|budget IH]; intros ps Hps.
  - now apply draws_ok_cret.
  - cbn [init_loop].
    destruct (Nat.ltb_spec (List.length ps) n) as [Hroom|];
      [|now apply draws_ok_cret].
    eapply draws_ok_cbind;
      [apply draws_ok_uniform; unfold MIN_RADIUS, MAX_RADIUS; lra|].
    intros r0 Hr0.
    assert (Er : r0 = 18) by (unfold MIN_RADIUS, MAX_RADIUS in Hr0; lra).
    subst r0.
    eapply draws_ok_cbind;
      [apply draws_ok_uniform; unfold WIDTH; lra|]. intros x0 Hx0.
    eapply draws_ok_cbind;
      [apply draws_ok_uniform; unfold HEIGHT; lra|]. intros y0 Hy0.
    eapply draws_ok_cbind; [apply draws_ok_uniform; lra|]. intros vx0 Hvx.
    eapply draws_ok_cbind; [apply draws_ok_uniform; lra|]. intros vy0 Hvy.
    eapply draws_ok_cbind; [apply random_color_ok|]. intros c _.
    cbv zeta.
    destruct (existsb _ ps) eqn:Ex; apply IH; [exact Hps|].
    destruct Hps as (Hlen & Hall & Hpairs).
    split; [rewrite length_app; simpl; lia|]. split.
    + apply Forall_app. split; [exact Hall|].
      constructor; [|constructor].
      unfold placed, inside, WIDTH, HEIGHT in *. cbn [x y vx vy r m].
      repeat split; lra.
    + apply ForallOrdPairs_snoc; [exact Hpairs|].
      apply Forall_forall. intros u Hu.
      rewrite EOverlap.overlap_sym.
      destruct (_overlap _ u) eqn:Eo; [|reflexivity].
      assert (Hex : existsb
                (_overlap (mkParticle x0 y0 vx0 vy0 18 (18 * 18) c)) ps = true)
        by (apply existsb_exists; now exists u).
      congruence.
Qed.

End EInit.

(** X18.  [_init_particles(n)] never raises and places at most [n] discs,
    no two of which overlap; each has radius [18], mass [324], its centre
    between the walls and both velocity components within [[-150, 150]].
    The flags and the speed are kept.  So [_reset], which asks for as many
    discs as there are, never leaves more discs than there were. *)
Theorem placement_tidy (n : nat) (s : E.Sim) (g : Random.Rng) :
  unit_range g ->
  (exists s' g',
     E._init_particles n s g = Ok (s', g') /\
     (List.length (E.particles s') <= n)%nat /\
     Forall EPhysics.placed (E.particles s') /\
     ForallOrdPairs (fun a b => E._overlap a b = false) (E.particles s') /\
     E.running s' = E.running s /\ E.speed s' = E.speed s /\
     E.dt s' = E.dt s) /\
  (exists s' g',
     E._reset s g = Ok (s', g') /\
     (List.length (E.particles s') <= List.length (E.particles s))%nat).
Proof.
  intros Hg.
  assert (Hinit : forall k,
            exists s' g',
              E._init_particles k s g = Ok (s', g') /\
              EPhysics.tidy k (E.particles s') /\
              E.running s' = E.running s /\ E.speed s' = E.speed s /\
              E.dt s' = E.dt s).
  { intros k. unfold E._init_particles.
    destruct (EInit.init_loop_tidy k (k * 200) []) with (g := g)
      as (ps & g' & Hrun & _ & Htidy); [|exact Hg|].
    - split; [simpl; lia|]. split; constructor.
    - eexists. eexists. unfold cbind, cret. rewrite Hrun.
      split; [reflexivity|]. cbn [E.particles E.running E.speed E.dt]. auto. }
  split.
  - destruct (Hinit n) as (s' & g' & Hrun & (Hlen & Hall & Hpairs) & Hf).
    exists s', g'. auto.
  - destruct (Hinit (List.length (E.particles s)))
      as (s' & g' & Hrun & (Hlen & _) & _).
    exists s', g'. auto.
Qed.

Lemma placement_tidy_witness :
  exists s' g',
    E._init_particles 5 E.init zero_rng = Ok (s', g') /\
    (List.length (E.particles s') <= 5)%nat /\
    ForallOrdPairs (fun a b => E._overlap a b = false) (E.particles s').
Proof.
  destruct (placement_tidy 5 E.init zero_rng)
    as [(s' & g' & Hrun & Hlen & _ & Hpairs & _) _].
  { intros i. simpl. lra. }
  exists s', g'. auto.
Defined.

Module EMouseFacts.
Import E EPhysics EMouse.

Lemma combine_snoc {T U : Type} (ks : list T) (l : list U) (k : T) (u : U) :
  List.length ks = List.length l ->
  combine (ks ++ [k]) (l ++ [u]) = combine ks l ++ [(k, u)].
Proof.
  revert l. induction ks as [|k0 ks IH]; intros [|u0 l] H; simpl in *;
    try discriminate; try reflexivity.
  f_equal. apply IH. lia.
Qed.

(** Searching a store with one more disc at its end. *)
Lemma find_snoc (ps : list Particle) (q : Particle) (x0 y0 : R) :
  find_particle_at (ps ++ [q]) x0 y0 =
    if hit x0 y0 q then Some (List.length ps, q)
    else find_particle_at ps x0 y0.
Proof.
  unfold find_particle_at. rewrite length_app. simpl.
  rewrite seq_app. simpl.
  rewrite combine_snoc by now rewrite length_seq.
  rewrite rev_app_distr. simpl. reflexivity.
Qed.

Lemma find_spec (ps : list Particle) (x0 y0 : R) :
  match find_particle_at ps x0 y0 with
  | Some (i, q) =>
      nth_error ps i = Some q /\ hit x0 y0 q = true /\
      forall j q', (i < j)%nat -> nth_error ps j = Some q' ->
                   hit x0 y0 q' = false
  | None => forall q, In q ps -> hit x0 y0 q = false
  end.
Proof.
  induction ps as [|q ps IH] using rev_ind.
  - simpl. intros q [].
  - rewrite find_snoc. destruct (hit x0 y0 q) eqn:Hq.
    + split; [|split].
      * rewrite nth_error_app2 by lia. now rewrite Nat.sub_diag.
      * exact Hq.
      * intros j q' Hj Hn.
        assert (Hlt : (j < List.length (ps ++ [q]))%nat)
          by (apply nth_error_Some; congruence).
        rewrite length_app in Hlt. simpl in Hlt. lia.
    + destruct (find_particle_at ps x0 y0) as [[i q0]|].
      * destruct IH as (Hn & Hh & Hafter). split; [|split].
        -- rewrite nth_error_app1; [exact Hn|].
           apply nth_error_Some. congruence.
        -- exact Hh.
        -- intros j q' Hj Hq'.
           destruct (Nat.lt_ge_cases j (List.length ps)) as [Hin|Hout].
           ++ rewrite nth_error_app1 in Hq' by exact Hin.
              now apply (Hafter j).
           ++ rewrite nth_error_app2 in Hq' by exact Hout.
              destruct (j - List.length ps)%nat as [|k]; simpl in Hq'.
              ** now injection Hq' as <-.
              ** now destruct k.
      * intros q' Hin. apply in_app_iff in Hin as [Hin|[<-|[]]]; auto.
Qed.

Lemma nth_error_setitem_same (l : list Particle) (i : nat) (q q' : Particle) :
  nth_error l i = Some q -> nth_error (setitem l i q') i = Some q'.
Proof.
  revert i. induction l as [|h l IH]; intros [|i] H; simpl in *;
    try discriminate; auto.
Qed.

(** The clamp of the elapsed time keeps the divisions of the handlers
    defined. *)
Lemma elapsed_positive (t : R) : 0.0001 <= max 0.0001 t.
Proof. apply max_lower_l. Qed.

Lemma elapsed_div (d t : R) :
  truediv d (max 0.0001 t) = Ok (d / max 0.0001 t).
Proof. apply truediv_ok. pose proof (elapsed_positive t). lra. Qed.

(** A ratio to the clamped elapsed time is at most [10000] times the
    distance. *)
Lemma throw_bound (d t : R) : Rabs (d / max 0.0001 t) <= 10000 * Rabs d.
Proof.
  pose proof (elapsed_positive t) as Ht.
  unfold Rdiv. rewrite Rabs_mult. rewrite (Rabs_right (/ max 0.0001 t)).
  - assert (Hinv : / max 0.0001 t <= 10000).
    { replace 10000 with (/ 0.0001) by lra.
      apply Rinv_le_contravar; lra. }
    pose proof (Rabs_pos d). nra.
  - apply Rle_ge, Rlt_le, Rinv_0_lt_compat. lra.
Qed.

End EMouseFacts.

(** X19.  [find_particle_at] returns the topmost disc under the point:
    the disc it returns is in the store and contains the point, and no
    disc later in the store does; it returns nothing exactly when no disc
    of the store contains the point. *)
Theorem find_topmost (ps : list E.Particle) (x0 y0 : R) :
  match EMouse.find_particle_at ps x0 y0 with
  | Some (i, q) =>
      nth_error ps i = Some q /\
      (E.x q - x0) * (E.x q - x0) + (E.y q - y0) * (E.y q - y0)
      <= E.r q * E.r q /\
      forall j q', (i < j)%nat -> nth_error ps j = Some q' ->
        E.r q' * E.r q'
        < (E.x q' - x0) * (E.x q' - x0) + (E.y q' - y0) * (E.y q' - y0)
  | None =>
      forall q, In q ps ->
        E.r q * E.r q
        < (E.x q - x0) * (E.x q - x0) + (E.y q - y0) * (E.y q - y0)
  end.
Proof.
  assert (Hyes : forall q, EMouse.hit x0 y0 q = true ->
            (E.x q - x0) * (E.x q - x0) + (E.y q - y0) * (E.y q - y0)
            <= E.r q * E.r q).
  { intros q. unfold EMouse.hit. cbv zeta.
    destruct (Rle_dec _ _); [auto | discriminate]. }
  assert (Hno : forall q, EMouse.hit x0 y0 q = false ->
            E.r q * E.r q
            < (E.x q - x0) * (E.x q - x0) + (E.y q - y0) * (E.y q - y0)).
  { intros q. unfold EMouse.hit. cbv zeta.
    destruct (Rle_dec _ _); [discriminate | intros _; lra]. }
  pose proof (EMouseFacts.find_spec ps x0 y0) as H.
  destruct (EMouse.find_particle_at ps x0 y0) as [[i q]|].
  - destruct H as (Hn & Hh & Hafter). split; [exact Hn|].
    split; [now apply Hyes|]. intros j q' Hj Hq'. apply Hno.
    now apply (Hafter j).
  - intros q Hin. apply Hno. now apply H.
Qed.

Module ESpawn.
Import E EPhysics EMouse.

(** [spawn_particle] always returns: one disc more at the end of the
    store, of radius [18] and mass [324], where and as fast as asked. *)
Lemma spawn_particle_spec (x0 y0 vx0 vy0 : R) (s : Sim) (g : Random.Rng) :
  exists new g',
    spawn_particle x0 y0 vx0 vy0 s g =
      Ok (mkSim (particles s ++ [new]) (running s) (speed s) (dt s), g') /\
    x new = x0 /\ y new = y0 /\ vx new = vx0 /\ vy new = vy0 /\
    r new = 18 /\ m new = 324.
Proof.
  unfold spawn_particle, random_color, cbind, draw, cret.
  cbn [Random.uniform Random.random random_digits cbind draw cret
       Random.randbelow].
  unfold cbind, draw, cret. cbn [Random.randbelow].
  eexists. eexists. split; [reflexivity|]. cbn [x y vx vy r m].
  unfold MIN_RADIUS, MAX_RADIUS. repeat split; ring.
Qed.

End ESpawn.

(** X20.  Picking up a disc and throwing it: a left press on a disc, a
    motion and the release leave that disc at the last position of the
    mouse, with the displacement of the motion over the elapsed time as
    velocity -- the elapsed time taken as at least [0.0001], so that each
    velocity component is at most [10000] times the displacement; its
    radius, mass and colour and all other discs are as before, no random
    number is drawn, and nothing is dragged any more. *)
Theorem pick_up_and_throw (a : EMouse.App) (i : nat) (q : E.Particle)
    (x0 y0 t0 x1 y1 t1 x2 y2 t2 : R) (g : Random.Rng) :
  EMouse.find_particle_at (E.particles (EMouse.sim a)) x0 y0 = Some (i, q) ->
  let dt0 := max 0.0001 (t1 - t0) in
  exists a',
    EMouse.on_inputs [EMouse.ButtonPress 1 x0 y0 t0; EMouse.Motion x1 y1 t1;
                      EMouse.ButtonRelease 1 x2 y2 t2] a g = Ok (a', g) /\
    nth_error (E.particles (EMouse.sim a')) i =
      Some (E.mkParticle x1 y1 ((x1 - x0) / dt0) ((y1 - y0) / dt0)
                         (E.r q) (E.m q) (E.color q)) /\
    (forall j, j <> i ->
       nth_error (E.particles (EMouse.sim a')) j
       = nth_error (E.particles (EMouse.sim a)) j) /\
    Rabs ((x1 - x0) / dt0) <= 10000 * Rabs (x1 - x0) /\
    Rabs ((y1 - y0) / dt0) <= 10000 * Rabs (y1 - y0) /\
    EMouse.p (EMouse.drag a') = None /\ EMouse.last (EMouse.drag a') = None.
Proof.
  intros Hfind dt0.
  pose proof (EMouseFacts.find_spec (E.particles (EMouse.sim a)) x0 y0) as Hs.
  rewrite Hfind in Hs. destruct Hs as (Hn & _ & _).
  eexists. split; [|split; [|split; [|split; [|split]]]].
  - cbn [EMouse.on_inputs EMouse.on_input EMouse.on_button_press].
    rewrite Hfind. unfold cbind at 1, cret at 1.
    unfold cbind at 1. unfold EMouse.on_motion.
    cbn [EMouse.p EMouse.last EMouse.drag EMouse.sim EMouse.start
         EMouse.button].
    rewrite !EMouseFacts.elapsed_div. cbn [bind lift]. rewrite Hn.
    cbn [EMouse.on_button_release EMouse.p EMouse.drag EMouse.sim].
    unfold cret. reflexivity.
  - cbn [EMouse.sim E.particles].
    apply (EMouseFacts.nth_error_setitem_same _ _ q). exact Hn.
  - intros j Hj. cbn [EMouse.sim E.particles].
    apply EConserve.nth_error_setitem_other. auto.
  - apply EMouseFacts.throw_bound.
  - apply EMouseFacts.throw_bound.
  - split; reflexivity.
Qed.

Lemma pick_up_and_throw_witness :
  exists a',
    EMouse.on_inputs [EMouse.ButtonPress 1 105 100 0; EMouse.Motion 200 100 0;
                      EMouse.ButtonRelease 1 200 100 1]
      (EMouse.mkApp (E.mkSim [head_on_left] true 1 0.016) EMouse.no_drag)
      zero_rng = Ok (a', zero_rng) /\
    nth_error (E.particles (EMouse.sim a')) 0 =
      Some (E.mkParticle 200 100 ((200 - 105) / max 0.0001 (0 - 0))
                         ((100 - 100) / max 0.0001 (0 - 0)) 18 324 EmptyString).
Proof.
  assert (Hfind : EMouse.find_particle_at [head_on_left] 105 100
                  = Some (0%nat, head_on_left)).
  { unfold EMouse.find_particle_at. simpl. unfold EMouse.hit. simpl.
    destruct (Rle_dec _ _) as [|Hn]; [reflexivity|]. exfalso. apply Hn. lra. }
  destruct (pick_up_and_throw
              (EMouse.mkApp (E.mkSim [head_on_left] true 1 0.016) EMouse.no_drag)
              0 head_on_left 105 100 0 200 100 0 200 100 1 zero_rng Hfind)
    as (a' & Hrun & Hat & _).
  exists a'. split; [exact Hrun | exact Hat].
Defined.

(** X21.  A drag with the right button spawns one disc: the press and the
    release never raise and add exactly one disc of radius [18] and mass
    [324] at the point of the press, whose velocity is the drag vector over
    the elapsed time (at least [0.0001]) times [0.02]; the pending press is
    cleared.  A release of the right button with no pending press changes
    nothing. *)
Theorem right_drag_spawns (a : EMouse.App) (sx sy t0 x1 y1 t1 : R)
    (g : Random.Rng) :
  let dt0 := max 0.0001 (t1 - t0) in
  (exists a' g' new,
     EMouse.on_inputs [EMouse.ButtonPress 3 sx sy t0;
                       EMouse.ButtonRelease 3 x1 y1 t1] a g = Ok (a', g') /\
     E.particles (EMouse.sim a') = E.particles (EMouse.sim a) ++ [new] /\
     E.x new = sx /\ E.y new = sy /\
     E.vx new = (x1 - sx) / dt0 * 0.02 /\
     E.vy new = (y1 - sy) / dt0 * 0.02 /\
     E.r new = 18 /\ E.m new = 324 /\
     EMouse.start (EMouse.drag a') = None /\
     EMouse.p (EMouse.drag a') = EMouse.p (EMouse.drag a)) /\
  (EMouse.start (EMouse.drag a) = None ->
   EMouse.on_input (EMouse.ButtonRelease 3 x1 y1 t1) a g = Ok (a, g)).
Proof.
  intros dt0. split.
  - destruct (ESpawn.spawn_particle_spec sx sy ((x1 - sx) / dt0 * 0.02)
                ((y1 - sy) / dt0 * 0.02) (EMouse.sim a) g)
      as (new & g' & Hspawn & Hx & Hy & Hvx & Hvy & Hr & Hm).
    destruct a as [s [tgt lst st bt]].
    cbn [EMouse.sim EMouse.drag EMouse.p EMouse.start] in *.
    assert (Hrun : EMouse.on_inputs
                     [EMouse.ButtonPress 3 sx sy t0;
                      EMouse.ButtonRelease 3 x1 y1 t1]
                     (EMouse.mkApp s (EMouse.mkDrag tgt lst st bt)) g
                   = Ok (EMouse.mkApp
                           (E.mkSim (E.particles s ++ [new]) (E.running s)
                                    (E.speed s) (E.dt s))
                           (EMouse.mkDrag tgt lst None (Some 3%nat)), g')).
    { cbn [EMouse.on_inputs EMouse.on_input EMouse.on_button_press].
      unfold cbind at 1, cret at 1.
      cbn [EMouse.on_button_release EMouse.p EMouse.start EMouse.drag
           EMouse.sim EMouse.last EMouse.button].
      unfold cbind at 1.
      destruct tgt as [t|];
        unfold cbind, lift; rewrite !EMouseFacts.elapsed_div;
        fold dt0; rewrite Hspawn; unfold cret; reflexivity. }
    eexists. exists g', new. split; [exact Hrun|].
    cbn [EMouse.sim EMouse.drag E.particles EMouse.start EMouse.p].
    repeat split; assumption.
  - intros Hnone. cbn [EMouse.on_input EMouse.on_button_release].
    rewrite Hnone. now destruct (EMouse.p (EMouse.drag a)).
Qed.

Lemma right_drag_spawns_witness :
  EMouse.on_input (EMouse.ButtonRelease 3 40 50 1)
    (EMouse.mkApp E.init EMouse.no_drag) zero_rng
  = Ok (EMouse.mkApp E.init EMouse.no_drag, zero_rng).
Proof.
  apply (proj2 (right_drag_spawns (EMouse.mkApp E.init EMouse.no_drag)
                  0 0 0 40 50 1 zero_rng)).
  reflexivity.
Defined.

(** X22.  A left press on empty space puts a disc under the pointer and
    picks it up: the press never raises, the store gains one disc at rest
    at the point of the press, of radius [18] and mass [324]; that disc is
    the one dragged, and a search at the same point now finds it. *)
Theorem press_on_empty_space (a : EMouse.App) (x0 y0 now : R)
    (g : Random.Rng) :
  EMouse.find_particle_at (E.particles (EMouse.sim a)) x0 y0 = None ->
  exists a' g' new,
    EMouse.on_input (EMouse.ButtonPress 1 x0 y0 now) a g = Ok (a', g') /\
    E.particles (EMouse.sim a') = E.particles (EMouse.sim a) ++ [new] /\
    E.x new = x0 /\ E.y new = y0 /\ E.vx new = 0 /\ E.vy new = 0 /\
    E.r new = 18 /\ E.m new = 324 /\
    EMouse.p (EMouse.drag a') =
      Some (EMouse.InStore (List.length (E.particles (EMouse.sim a)))) /\
    EMouse.last (EMouse.drag a') = Some (x0, y0, now) /\
    EMouse.find_particle_at (E.particles (EMouse.sim a')) x0 y0 =
      Some (List.length (E.particles (EMouse.sim a)), new).
Proof.
  intros Hfind.
  destruct (ESpawn.spawn_particle_spec x0 y0 0 0 (EMouse.sim a) g)
    as (new & g' & Hspawn & Hx & Hy & Hvx & Hvy & Hr & Hm).
  eexists. exists g', new. split.
  - cbn [EMouse.on_input EMouse.on_button_press]. rewrite Hfind.
    unfold cbind. rewrite Hspawn. unfold cret. reflexivity.
  - cbn [EMouse.sim EMouse.drag E.particles EMouse.p EMouse.last].
    repeat split; try assumption.
    rewrite EMouseFacts.find_snoc.
    unfold EMouse.hit. cbv zeta. rewrite Hx, Hy, Hr.
    destruct (Rle_dec _ _) as [|Hn]; [reflexivity|].
    exfalso. apply Hn. lra.
Qed.

Lemma press_on_empty_space_witness :
  exists a' g' new,
    EMouse.on_input (EMouse.ButtonPress 1 300 200 0)
      (EMouse.mkApp E.init EMouse.no_drag) zero_rng = Ok (a', g') /\
    E.particles (EMouse.sim a') = [new] /\
    EMouse.find_particle_at (E.particles (EMouse.sim a')) 300 200
    = Some (0%nat, new).
Proof.
  destruct (press_on_empty_space (EMouse.mkApp E.init EMouse.no_drag)
              300 200 0 zero_rng eq_refl)
    as (a' & g' & new & Hrun & Hps & _ & _ & _ & _ & _ & _ & _ & _ & Hfind).
  exists a', g', new. auto.
Defined.

Module EApp.
Import E EPhysics EMouse.

Lemma massive_app (s : Sim) (new : Particle) :
  massive s -> 0 < m new ->
  Forall (fun q => 0 < m q) (particles s ++ [new]).
Proof.
  intros Hs Hnew. apply Forall_app. split; [exact Hs|]. now repeat constructor.
Qed.

(** Every handler returns from a sound state, and leaves a sound state. *)
Lemma input_sound (i : Input) (a : App) :
  sound a -> returns (on_input i a) sound.
Proof.
  intros [Hm Ht]. destruct i as [| | | | |delta|b x0 y0 now|x0 y0 now|b x0 y0 now];
    cbn [on_input].
  - unfold _loop. destruct (running (sim a)).
    + destruct (ESweep.step_total (dt (sim a) * speed (sim a)) (sim a) Hm)
        as (s' & Hstep & Hm' & Hlen).
      eapply returns_cbind; [eapply returns_lift with (Q := fun s1 => s1 = s');
                             [exact Hstep | reflexivity]|].
      intros s1 ->. apply returns_cret. split; [exact Hm'|].
      cbn [with_sim sim drag]. destruct (p (drag a)) as [[k|]|]; auto. lia.
    + eapply returns_cbind;
        [eapply returns_lift with (Q := fun s1 => s1 = sim a); reflexivity|].
      intros s1 ->. apply returns_cret. now split.
  - apply returns_cret. now split.
  - unfold on_reset, _reset, _init_particles.
    apply returns_cbind with (P := massive).
    + eapply returns_cbind; [apply ESweep.init_loop_returns; constructor|].
      intros ps Hps. apply returns_cret. exact Hps.
    + intros s' Hs'. apply returns_cret. split; [exact Hs'|].
      cbn [drag p]. now destruct (p (drag a)).
  - apply returns_cret. now split.
  - apply returns_cret. now split.
  - apply returns_cret. unfold on_mouse_wheel.
    destruct (Req_dec_T delta 0); now split.
  - unfold on_button_press.
    destruct b as [|[|[|[|b]]]]; try (apply returns_cret; now split).
    + pose proof (EMouseFacts.find_spec (particles (sim a)) x0 y0) as Hf.
      destruct (find_particle_at (particles (sim a)) x0 y0) as [[k q]|].
      * apply returns_cret. split; [exact Hm|]. cbn [drag p sim].
        destruct Hf as (Hn & _). apply nth_error_Some. congruence.
      * intros g.
        destruct (ESpawn.spawn_particle_spec x0 y0 0 0 (sim a) g)
          as (new & g' & Hspawn & _ & _ & _ & _ & _ & Hmass).
        eexists. exists g'. unfold cbind. rewrite Hspawn. unfold cret.
        split; [reflexivity|]. split.
        -- apply massive_app; [exact Hm | lra].
        -- cbn [drag p sim particles]. rewrite length_app. simpl. lia.
  - unfold on_motion.
    destruct (p (drag a)) as [t|] eqn:Ep;
      [|eapply returns_lift; [reflexivity | split; [exact Hm | now rewrite Ep]]].
    destruct (last (drag a)) as [[[lx ly] lt]|];
      [|eapply returns_lift; [reflexivity | split; [exact Hm | now rewrite Ep]]].
    rewrite !EMouseFacts.elapsed_div. cbn [bind].
    eapply returns_lift; [reflexivity|].
    split; cbn [sim drag p particles].
    + destruct t as [k|]; [|exact Hm].
      destruct (nth_error (particles (sim a)) k) as [q|] eqn:Eq; [|exact Hm].
      apply ESweep.setitem_Forall; [exact Hm|]. cbn [drag_to m].
      unfold massive in Hm. rewrite Forall_forall in Hm.
      apply Hm. eapply nth_error_In, Eq.
    + destruct t as [k|]; [|exact I].
      destruct (nth_error (particles (sim a)) k);
        [now rewrite ESweep.setitem_length | exact Ht].
  - unfold on_button_release.
    destruct b as [|[|[|[|b]]]]; try (apply returns_cret; now split).
    + destruct (p (drag a)) eqn:Ep; apply returns_cret.
      * split; [exact Hm | exact I].
      * split; [exact Hm | now rewrite Ep].
    + destruct (start (drag a)) as [[[sx sy] st]|];
        [|destruct (p (drag a)) eqn:Ep; apply returns_cret;
          (split; [exact Hm | now rewrite Ep])].
      assert (Hgoal : returns
                (qx <~ lift (truediv (x0 - sx) (max 0.0001 (now - st))) ;;
                 qy <~ lift (truediv (y0 - sy) (max 0.0001 (now - st))) ;;
                 s' <~ spawn_particle sx sy (qx * 0.02) (qy * 0.02) (sim a) ;;
                 cret (mkApp s' (mkDrag (p (drag a)) (last (drag a)) None
                                        (button (drag a))))) sound).
      { intros g. unfold cbind, lift. rewrite !EMouseFacts.elapsed_div.
        destruct (ESpawn.spawn_particle_spec sx sy
                    ((x0 - sx) / max 0.0001 (now - st) * 0.02)
                    ((y0 - sy) / max 0.0001 (now - st) * 0.02) (sim a) g)
          as (new & g' & Hspawn & _ & _ & _ & _ & _ & Hmass).
        rewrite Hspawn. unfold cret. eexists. exists g'.
        split; [reflexivity|]. split.
        - apply massive_app; [exact Hm | lra].
        - cbn [drag p sim particles]. rewrite length_app. simpl.
          destruct (p (drag a)) as [[k|]|]; auto. lia. }
      destruct (p (drag a)); exact Hgoal.
Qed.

End EApp.

(** X23.  With the mouse in the picture too, nothing the main loop of
    [e.py] delivers makes a handler raise: from a store of positive masses
    in which the dragged disc, if any, is a disc of the store, every
    sequence of ticks, keys, wheel turns, presses, motions and releases
    runs through, whatever the clock readings and the random draws, and
    leaves such a state. *)
Theorem e_handlers_never_raise (inputs : list EMouse.Input) (a : EMouse.App)
    (g : Random.Rng) :
  EMouse.sound a ->
  exists a' g', EMouse.on_inputs inputs a g = Ok (a', g') /\ EMouse.sound a'.
Proof.
  revert a g. induction inputs as [|i inputs IH]; intros a g Ha.
  - now exists a, g.
  - destruct (EApp.input_sound i a Ha g) as (a1 & g1 & Hrun & Ha1).
    destruct (IH a1 g1 Ha1) as (a' & g' & Hrest & Ha').
    exists a', g'. cbn [EMouse.on_inputs]. unfold cbind. rewrite Hrun.
    auto.
Qed.

Lemma e_handlers_never_raise_witness :
  exists a' g',
    EMouse.on_inputs
      [EMouse.ButtonPress 1 300 200 0; EMouse.Motion 310 200 0;
       EMouse.KeyR; EMouse.Motion 320 200 0; EMouse.Tick;
       EMouse.ButtonRelease 1 320 200 1; EMouse.Wheel (-1)]
      (EMouse.mkApp E.init EMouse.no_drag) zero_rng = Ok (a', g') /\
    EMouse.sound a'.
Proof.
  apply (e_handlers_never_raise _ (EMouse.mkApp E.init EMouse.no_drag)
           zero_rng).
  split; [constructor | exact I].
Defined.

Module BHClick.
Import BH.

(** The squared speed of the jittered tangential velocity lies between the
    squared jitter bounds times the squared circular speed. *)
Lemma jitter_speed (vc dx dy r0 u1 u2 : R) :
  0 < r0 -> r0 * r0 = dx * dx + dy * dy -> 0 <= vc ->
  0.95 <= u1 <= 1.05 -> 0.95 <= u2 <= 1.05 ->
  let vx0 := - vc * dy / r0 * u1 in
  let vy0 := vc * dx / r0 * u2 in
  0.95 * vc <= math_hypot vx0 vy0 <= 1.05 * vc /\
  dx * vy0 - dy * vx0 = vc * (dx * dx * u2 + dy * dy * u1) / r0.
Proof.
  intros Hr Hrr Hvc Hu1 Hu2 vx0 vy0.
  assert (Hsq : vx0 * vx0 + vy0 * vy0
                = vc * vc * ((dy * dy * (u1 * u1) + dx * dx * (u2 * u2))
                             / (r0 * r0)))
    by (unfold vx0, vy0; field; lra).
  assert (Hdx : 0 <= dx * dx) by nra.
  assert (Hdy : 0 <= dy * dy) by nra.
  assert (Hrr0 : 0 < r0 * r0) by nra.
  assert (Hu1lo : 0.95 * 0.95 <= u1 * u1) by nra.
  assert (Hu1hi : u1 * u1 <= 1.05 * 1.05) by nra.
  assert (Hu2lo : 0.95 * 0.95 <= u2 * u2) by nra.
  assert (Hu2hi : u2 * u2 <= 1.05 * 1.05) by nra.
  set (w := (dy * dy * (u1 * u1) + dx * dx * (u2 * u2)) / (r0 * r0)) in *.
  assert (Hw : 0.95 * 0.95 <= w <= 1.05 * 1.05).
  { unfold w. split.
    - apply (Rmult_le_reg_r (r0 * r0)); [exact Hrr0|].
      replace ((dy * dy * (u1 * u1) + dx * dx * (u2 * u2)) / (r0 * r0)
               * (r0 * r0))
        with (dy * dy * (u1 * u1) + dx * dx * (u2 * u2)) by (field; lra).
      rewrite Hrr. nra.
    - apply (Rmult_le_reg_r (r0 * r0)); [exact Hrr0|].
      replace ((dy * dy * (u1 * u1) + dx * dx * (u2 * u2)) / (r0 * r0)
               * (r0 * r0))
        with (dy * dy * (u1 * u1) + dx * dx * (u2 * u2)) by (field; lra).
      rewrite Hrr. nra. }
  assert (Hvv : 0 <= vc * vc) by nra.
  split; [|unfold vx0, vy0; field; lra].
  unfold math_hypot. rewrite Hsq. split.
  - rewrite <- (sqrt_square (0.95 * vc)) by lra.
    apply sqrt_le_1_alt. nra.
  - rewrite <- (sqrt_square (1.05 * vc)) by lra.
    apply sqrt_le_1_alt. nra.
Qed.

End BHClick.

(** X24.  A left click (press and release at the same point) at least 5
    pixels from the centre puts one particle there on a nearly circular
    orbit: with draws in [[0, 1)] and a positive attractor mass, its speed
    lies within 5% of the circular speed [sqrt(G * M / r)] at its distance
    [r], and its angular momentum about the centre is positive, the same
    sense of rotation for every click. *)
Theorem click_spawns_orbit (s : BH.Sim) (sx sy : R) (g : Random.Rng) :
  unit_range g -> 0 < BH.M s ->
  let dx := sx - fst (BH.center s) in
  let dy := sy - snd (BH.center s) in
  let r0 := math_hypot dx dy in
  5 <= r0 ->
  let vc := sqrt (BH.G * BH.M s / r0) in
  exists s' g' new,
    BH.on_events [BH.MOUSEBUTTONDOWN sx sy 1; BH.MOUSEBUTTONUP sx sy] s g
      = Ok (s', g') /\
    BH.particles s' = BH.particles s ++ [new] /\
    BH.x new = sx /\ BH.y new = sy /\
    0.95 * vc <= math_hypot (BH.vx new) (BH.vy new) <= 1.05 * vc /\
    0 < dx * BH.vy new - dy * BH.vx new.
Proof.
  intros Hg HM dx dy r0 Hr vc.
  unfold BH.center in dx, dy. cbn [fst snd] in dx, dy.
  assert (Hmax : max r0 0.001 = r0)
    by (unfold max; destruct (Rlt_dec r0 0.001); lra).
  assert (Hq : 0 < BH.G * BH.M s / r0)
    by (apply Rdiv_lt_0_compat; [unfold BH.G; lra | lra]).
  assert (Hvc : 0 < vc) by (apply sqrt_lt_R0; exact Hq).
  set (u1 := 0.95 + (1.05 - 0.95) * Random.unit_draws g (Random.cursor g)).
  set (u2 := 0.95 + (1.05 - 0.95) * Random.unit_draws g (S (Random.cursor g))).
  assert (Hu1 : 0.95 <= u1 <= 1.05)
    by (destruct (Hg (Random.cursor g)); unfold u1; lra).
  assert (Hu2 : 0.95 <= u2 <= 1.05)
    by (destruct (Hg (S (Random.cursor g))); unfold u2; lra).
  destruct (BHClick.jitter_speed vc dx dy r0 u1 u2) as [Hspeed Hsense];
    try lra.
  { unfold r0. apply hypot_square. }
  cbv zeta in Hspeed, Hsense.
  exists (BH.set_drag
            (BH.add_particle (BH.set_drag s true (Some (sx, sy)) (Some 1%nat))
               sx sy (- vc * dy / r0 * u1) (vc * dx / r0 * u2))
            false None None),
         (after 2 g),
         (BH.mkParticle (BH.next_oid s) sx sy
            (- vc * dy / r0 * u1) (vc * dx / r0 * u2) []).
  split; [|split; [reflexivity|split; [reflexivity|split; [reflexivity|]]]].
  - cbn [BH.on_events BH.on_event]. unfold cbind at 1, cret at 1.
    unfold BH.on_mousebuttonup.
    cbn [BH.dragging BH.drag_start BH.drag_button BH.set_drag BH.center
         BH.width BH.height BH.M].
    destruct (Rlt_dec 6 (math_hypot (sx - sx) (sy - sy))) as [Hfar|_].
    { exfalso. replace (sx - sx) with 0 in Hfar by ring.
      replace (sy - sy) with 0 in Hfar by ring.
      rewrite hypot_origin in Hfar. lra. }
    fold dx dy. fold r0.
    destruct (Rle_dec 5 r0) as [_|Hn]; [|contradiction].
    unfold cbind, lift, draw, cret.
    rewrite Hmax. rewrite truediv_ok by lra.
    rewrite math_sqrt_ok by lra. fold vc.
    rewrite !truediv_ok by lra.
    cbn [Random.uniform Random.random Random.advance Random.unit_draws
         Random.int_draws Random.cursor].
    fold u1 u2. reflexivity.
  - cbn [BH.vx BH.vy]. split; [exact Hspeed|].
    rewrite Hsense.
    apply Rdiv_lt_0_compat; [|lra].
    apply Rmult_lt_0_compat; [exact Hvc|].
    pose proof (hypot_square dx dy) as Hrr. fold r0 in Hrr.
    assert (0 <= dx * dx) by nra. assert (0 <= dy * dy) by nra. nra.
Qed.

Lemma click_spawns_orbit_witness :
  exists s' g' new,
    BH.on_events [BH.MOUSEBUTTONDOWN 600 350 1; BH.MOUSEBUTTONUP 600 350]
                 BH.init zero_rng = Ok (s', g') /\
    BH.particles s' = [new] /\ BH.x new = 600 /\ BH.y new = 350 /\
    0 < (600 - fst (BH.center BH.init)) * BH.vy new
        - (350 - snd (BH.center BH.init)) * BH.vx new.
Proof.
  assert (Hr : math_hypot (600 - fst (BH.center BH.init))
                          (350 - snd (BH.center BH.init)) = 100).
  { simpl. unfold BH.WIDTH, BH.HEIGHT, math_hypot.
    replace ((600 - 1000 / 2) * (600 - 1000 / 2)
             + (350 - 700 / 2) * (350 - 700 / 2)) with (100 * 100) by lra.
    apply sqrt_square. lra. }
  destruct (click_spawns_orbit BH.init 600 350 zero_rng)
    as (s' & g' & new & Hrun & Hps & Hx & Hy & _ & Hsense).
  - intros i. simpl. lra.
  - simpl. lra.
  - rewrite Hr. lra.
  - exists s', g', new. auto.
Defined.

(** X25.  Speeding up and then slowing down restores the state: from a
    multiplier of at least [0.125] with [dt] in step, the key [\]] followed
    by the key [\[] leaves every field as it was.  The other order does
    not undo itself at the floor: from a multiplier below [0.25], [\[]
    followed by [\]] leaves the multiplier at [0.25].  Pressing the pause
    key twice, or the trail key twice, changes nothing. *)
Theorem speed_keys_round_trip (s : BH.Sim) (g : Random.Rng) :
  0.125 <= BH.speed_mult s ->
  BH.dt s = BH.base_dt s * BH.speed_mult s ->
  BH.on_events [BH.KEYDOWN BH.K_RIGHTBRACKET false;
                BH.KEYDOWN BH.K_LEFTBRACKET false] s g = Ok (s, g) /\
  (BH.speed_mult s < 0.25 ->
   exists s',
     BH.on_events [BH.KEYDOWN BH.K_LEFTBRACKET false;
                   BH.KEYDOWN BH.K_RIGHTBRACKET false] s g = Ok (s', g) /\
     BH.speed_mult s' = 0.25) /\
  BH.on_events [BH.KEYDOWN BH.K_SPACE false; BH.KEYDOWN BH.K_SPACE false] s g
    = Ok (s, g) /\
  BH.on_events [BH.KEYDOWN BH.K_t false; BH.KEYDOWN BH.K_t false] s g
    = Ok (s, g).
Proof.
  intros Hs Hdt. split; [|split; [|split]].
  - cbn [BH.on_events BH.on_event BH.on_keydown]. unfold cbind, lift, cret.
    cbn [BH.speed_mult BH.base_dt BH.set_dt BH.set_speed_mult].
    rewrite truediv_ok by lra.
    assert (Hback : max 0.125 (BH.speed_mult s * 2 / 2) = BH.speed_mult s).
    { replace (BH.speed_mult s * 2 / 2) with (BH.speed_mult s) by field.
      unfold max. destruct (Rlt_dec _ _); lra. }
    destruct s. cbn in *. rewrite Hback, <- Hdt. reflexivity.
  - intros Hlow. cbn [BH.on_events BH.on_event BH.on_keydown].
    unfold cbind, lift, cret. rewrite truediv_ok by lra.
    eexists. split; [reflexivity|].
    cbn [BH.speed_mult BH.base_dt BH.set_dt BH.set_speed_mult].
    unfold max. destruct (Rlt_dec _ _); lra.
  - cbn [BH.on_events BH.on_event BH.on_keydown]. unfold cbind, cret.
    destruct s. cbn. now rewrite negb_involutive.
  - cbn [BH.on_events BH.on_event BH.on_keydown]. unfold cbind, cret.
    destruct s. cbn. now rewrite negb_involutive.
Qed.

Lemma speed_keys_round_trip_witness :
  BH.on_events [BH.KEYDOWN BH.K_RIGHTBRACKET false;
                BH.KEYDOWN BH.K_LEFTBRACKET false] BH.init zero_rng
  = Ok (BH.init, zero_rng).
Proof.
  apply (speed_keys_round_trip BH.init zero_rng); simpl; lra.
Defined.
